(** * crumb: the task store (services/tasks.ts over db.ts)

    A shallow embedding of the task service of crumb and of the part of
    SQLite it relies on: one table [tasks] with a TEXT primary key, a
    self-referencing foreign key [parent_id REFERENCES tasks(id) ON DELETE
    CASCADE] (pragma [foreign_keys = ON]), autocommit statements and
    [db.transaction].  The service functions are written in a small
    state-and-exception monad over a [World] that holds the table, the
    process-wide undo stack and the two sources of nondeterminism of the
    code, [ulid()] and [datetime('now')].  The tree that [getTasks] builds
    is a map of objects whose [children] arrays hold references; its two
    readers, [numberTasks] (index.ts) and [flattenTasks]
    (components/TaskTree.tsx), recurse over it with a bounded call stack. *)

From Stdlib Require Import ZArith List Lia Bool.
From stdpp Require Import gmap strings list fin_maps pretty.

Local Open Scope string_scope.
Local Open Scope list_scope.
Local Open Scope nat_scope.

(** ** Data model *)

(** [status TEXT DEFAULT 'todo' CHECK(status IN ('todo','done'))] *)
Inductive Status : Type := todo | done.

Global Instance Status_eq_dec : EqDecision Status.
Proof. solve_decision. Defined.

(** [interface TaskRow]: one row of the table.  [parent_id] is NULL
    ([None]) for a root task.  [position] is an SQLite INTEGER, kept as a
    [Z].  The position that the code computes, [MAX(position) + 1], goes
    through a JS number ([to_double]); a position that it only reads and
    writes back or returns is taken as it is stored, which is what JS does
    with the integers up to [2^53] in magnitude. *)
Record TaskRow : Type := {
  id : string;
  title : string;
  status : Status;
  parent_id : option string;
  position : Z;
  created_at : string;
  updated_at : string;
}.

Global Instance TaskRow_eq_dec : EqDecision TaskRow.
Proof. solve_decision. Defined.

(** [interface Task], the object [addTask] returns ([children] is never
    set by the functions embedded here).  Its fields carry a [task_]
    prefix where they would clash with those of [TaskRow]. *)
Record Task : Type := {
  task_id : string;
  task_title : string;
  task_status : Status;
  parentId : option string;
  task_position : Z;
}.

(** [type TaskOperation].  An optional or nullable field is an [option]. *)
Inductive TaskOperation : Type :=
| OpAdd (op_id : option string) (op_title : string) (op_parentId : option string)
| OpDelete (taskId : string)
| OpMove (taskId : string) (newParentId : option string)
| OpUpdate (taskId : string) (op_title : string)
| OpDone (taskId : string).

(** The table, in rowid order: a full scan ([SELECT * FROM tasks]) returns
    the rows in this order, and an INSERT appends. *)
Abbreviation Table := (list TaskRow).

Definition ids (t : Table) : list string := id <$> t.

(** ** The SQL statements of the service, as functions on the table *)

(** [WHERE id = ?]: a NULL parameter matches no row. *)
Definition where_id (v : option string) (r : TaskRow) : Prop := v = Some (id r).

Global Instance where_id_dec v r : Decision (where_id v r).
Proof. unfold where_id. apply _. Defined.

(** [WHERE parent_id IS ?]: NULL matches the root tasks. *)
Definition where_parent (p : option string) (r : TaskRow) : Prop := parent_id r = p.

Global Instance where_parent_dec p r : Decision (where_parent p r).
Proof. unfold where_parent. apply _. Defined.

(** [SELECT ... FROM tasks WHERE id = ?] with [.get()]: the first match. *)
Definition select_by_id (v : option string) (t : Table) : option TaskRow :=
  head (filter (where_id v) t).

(** [MAX(position)]: NULL over no row. *)
Definition max_position (rows : Table) : option Z :=
  match rows with
  | [] => None
  | r :: rest => Some (fold_left Z.max (position <$> rest) (position r))
  end.

(** An integer that SQLite hands to JavaScript becomes a number, that is a
    double: exact up to [2^53] in magnitude, and beyond rounded to the nearest
    multiple of the unit in the last place, ties to the even mantissa. *)
Definition to_double (z : Z) : Z :=
  let a := Z.abs z in
  if (a <=? 2 ^ 53)%Z then z
  else
    let ulp := (2 ^ (Z.log2 a - 52))%Z in
    let q := (a / ulp)%Z in
    let r := (a mod ulp)%Z in
    let q' := if (2 * r <? ulp)%Z then q
              else if (ulp <? 2 * r)%Z then (q + 1)%Z
              else if Z.even q then q else (q + 1)%Z in
    (Z.sgn z * (q' * ulp))%Z.

(** [SELECT COALESCE(MAX(position), -1) + 1 AS pos FROM tasks WHERE parent_id IS ?]
    with [.get()]: the code reads [pos] as a JS number and binds that number
    in the statement that follows. *)
Definition next_position (p : option string) (t : Table) : Z :=
  to_double (default (-1) (max_position (filter (where_parent p) t)) + 1)%Z.

(** [SELECT COUNT( * ) as total, SUM(CASE WHEN status = 'done' THEN 1 ELSE 0 END)
    as done FROM tasks WHERE parent_id = ?]: the sum is NULL over no row. *)
Definition child_stats (p : string) (t : Table) : nat * option nat :=
  let kids := filter (where_parent (Some p)) t in
  (length kids,
   match kids with
   | [] => None
   | _ => Some (length (filter (λ r, status r = done) kids))
   end).

(** Insertion sort, for [ORDER BY position ASC]: rows with equal positions
    stay in rowid order, as SQLite returns them. *)
Fixpoint insert_by_position (r : TaskRow) (sorted : Table) : Table :=
  match sorted with
  | [] => [r]
  | r' :: rest =>
      if (position r <=? position r')%Z then r :: sorted
      else r' :: insert_by_position r rest
  end.

Definition order_by_position (rows : Table) : Table :=
  fold_right insert_by_position [] rows.

(** [SELECT * FROM tasks WHERE parent_id IS ? ORDER BY position ASC] *)
Definition select_siblings (p : option string) (t : Table) : Table :=
  order_by_position (filter (where_parent p) t).

(** What a statement can throw, and what the recursion of
    [autoCompleteParent] throws when the call stack is exhausted.
    [TriggerDepth] is SQLite's "too many levels of trigger recursion". *)
Inductive Exception : Type :=
| ConstraintPrimaryKey
| ConstraintForeignKey
| TriggerDepth
| StackExhausted.

(** The immediate foreign-key check at the end of a statement: a non-NULL
    [parent_id] must be the [id] of a row of the table as the statement
    leaves it. *)
Definition fk_ok (p : option string) (t : Table) : bool :=
  match p with
  | None => true
  | Some x => bool_decide (x ∈ ids t)
  end.

(** [INSERT INTO tasks (...) VALUES (...)] of one row. *)
Definition sql_insert (r : TaskRow) (t : Table) : Exception + Table :=
  if bool_decide (id r ∈ ids t) then inl ConstraintPrimaryKey
  else if fk_ok (parent_id r) (t ++ [r]) then inr (t ++ [r])
  else inl ConstraintForeignKey.

(** [UPDATE tasks SET ... WHERE id = ?] *)
Definition update_where_id (v : option string) (f : TaskRow → TaskRow) (t : Table) : Table :=
  (λ r, if decide (where_id v r) then f r else r) <$> t.

Definition set_title (new_title now : string) (r : TaskRow) : TaskRow :=
  {| id := id r; title := new_title; status := status r; parent_id := parent_id r;
     position := position r; created_at := created_at r; updated_at := now |}.

Definition set_status (st : Status) (now : string) (r : TaskRow) : TaskRow :=
  {| id := id r; title := title r; status := st; parent_id := parent_id r;
     position := position r; created_at := created_at r; updated_at := now |}.

Definition set_parent (p : option string) (pos : Z) (now : string) (r : TaskRow) : TaskRow :=
  {| id := id r; title := title r; status := status r; parent_id := p;
     position := pos; created_at := created_at r; updated_at := now |}.

Definition set_position (pos : Z) (now : string) (r : TaskRow) : TaskRow :=
  {| id := id r; title := title r; status := status r; parent_id := parent_id r;
     position := pos; created_at := created_at r; updated_at := now |}.

(** [UPDATE tasks SET title = ?, updated_at = datetime('now') WHERE id = ?] *)
Definition sql_update_title (v : option string) (new_title now : string) (t : Table)
  : Exception + Table :=
  inr (update_where_id v (set_title new_title now) t).

(** [UPDATE tasks SET status = ?, updated_at = datetime('now') WHERE id = ?] *)
Definition sql_update_status (v : option string) (st : Status) (now : string) (t : Table)
  : Exception + Table :=
  inr (update_where_id v (set_status st now) t).

(** [UPDATE tasks SET position = ?, updated_at = datetime('now') WHERE id = ?] *)
Definition sql_update_position (v : option string) (pos : Z) (now : string) (t : Table)
  : Exception + Table :=
  inr (update_where_id v (set_position pos now) t).

(** [UPDATE tasks SET parent_id = ?, position = ?, updated_at = datetime('now')
    WHERE id = ?]: the foreign key is checked only if a row is updated. *)
Definition sql_update_parent (v : option string) (p : option string) (pos : Z)
    (now : string) (t : Table) : Exception + Table :=
  if bool_decide (Exists (where_id v) t) && negb (fk_ok p t)
  then inl ConstraintForeignKey
  else inr (update_where_id v (set_parent p pos now) t).

(** [ON DELETE CASCADE]: the rows that reference a deleted row are deleted
    in turn, round after round.  Every round that deletes anything shortens
    the table, so [length t] rounds are enough. *)
Definition references (deleted : list string) (r : TaskRow) : Prop :=
  ∃ p, parent_id r = Some p ∧ p ∈ deleted.

Global Instance references_dec deleted r : Decision (references deleted r).
Proof.
  unfold references. destruct (parent_id r) as [p|].
  - destruct (decide (p ∈ deleted)); [left; eauto | right; intros (? & [= <-] & ?); done].
  - right. intros (? & ? & ?). done.
Defined.

Fixpoint cascade (rounds : nat) (deleted : list string) (t : Table) : Table :=
  match rounds with
  | O => t
  | S rounds' =>
      cascade rounds' (ids (filter (references deleted) t))
              (filter (λ r, ¬ references deleted r) t)
  end.

(** The number of rounds of the cascade that delete a row: the level of the
    deepest row deleted, the rows that the statement itself deletes being at
    level 0. *)
Fixpoint cascade_depth (rounds : nat) (deleted : list string) (t : Table) : nat :=
  match rounds with
  | O => 0
  | S rounds' =>
      match filter (references deleted) t with
      | [] => 0
      | gone =>
          S (cascade_depth rounds' (ids gone) (filter (λ r, ¬ references deleted r) t))
      end
  end.

(** SQLite runs the cascade as a recursive trigger, one level of recursion
    per level of the tree, and allows [SQLITE_MAX_TRIGGER_DEPTH] = 1000 levels:
    a statement that would delete a row 1000 levels below a row it deletes
    itself fails, and deletes nothing. *)
Definition MAX_TRIGGER_DEPTH : nat := 1000.

(** [DELETE FROM tasks WHERE id = ?] *)
Definition sql_delete (v : option string) (t : Table) : Exception + Table :=
  match filter (where_id v) t with
  | [] => inr t
  | gone =>
      let rest := filter (λ r, ¬ where_id v r) t in
      if decide (cascade_depth (length t) (ids gone) rest < MAX_TRIGGER_DEPTH)
      then inr (cascade (length t) (ids gone) rest)
      else inl TriggerDepth
  end.

(** [DELETE FROM tasks]: the rows are deleted one after the other in rowid
    order, each with its cascade; a row that an earlier cascade has removed
    is passed over.  The statement fails as a whole if one cascade does. *)
Fixpoint delete_rows (xs : list string) (t : Table) : Exception + Table :=
  match xs with
  | [] => inr t
  | x :: rest =>
      match sql_delete (Some x) t with
      | inl e => inl e
      | inr t' => delete_rows rest t'
      end
  end.

Definition sql_delete_all (t : Table) : Exception + Table := delete_rows (ids t) t.

(** ** The world and the effect monad *)

(** The state a call runs in.
    - [tasks] is the table as the connection sees it;
    - [durable] lists the committed states of the table, newest first (what
      survives if the process stops, and all another reader could see);
    - [in_transaction] is set inside [db.transaction];
    - [undoStack] is the module-level array, oldest snapshot first;
    - [ulid_source n] is the result of the [n]-th call of [ulid()] and
      [ulid_calls] counts the calls so far;
    - [datetime_now n] is the value of [datetime('now')] in the [n]-th
      statement that mentions it and [sql_clock] counts those statements. *)
Record World : Type := {
  tasks : Table;
  durable : list Table;
  in_transaction : bool;
  undoStack : list Table;
  ulid_source : nat → string;
  ulid_calls : nat;
  datetime_now : nat → string;
  sql_clock : nat;
}.

Definition with_tasks (t : Table) (w : World) : World :=
  {| tasks := t; durable := durable w; in_transaction := in_transaction w;
     undoStack := undoStack w; ulid_source := ulid_source w;
     ulid_calls := ulid_calls w; datetime_now := datetime_now w;
     sql_clock := sql_clock w |}.

Definition with_durable (d : list Table) (w : World) : World :=
  {| tasks := tasks w; durable := d; in_transaction := in_transaction w;
     undoStack := undoStack w; ulid_source := ulid_source w;
     ulid_calls := ulid_calls w; datetime_now := datetime_now w;
     sql_clock := sql_clock w |}.

Definition with_in_transaction (b : bool) (w : World) : World :=
  {| tasks := tasks w; durable := durable w; in_transaction := b;
     undoStack := undoStack w; ulid_source := ulid_source w;
     ulid_calls := ulid_calls w; datetime_now := datetime_now w;
     sql_clock := sql_clock w |}.

Definition with_undoStack (u : list Table) (w : World) : World :=
  {| tasks := tasks w; durable := durable w; in_transaction := in_transaction w;
     undoStack := u; ulid_source := ulid_source w;
     ulid_calls := ulid_calls w; datetime_now := datetime_now w;
     sql_clock := sql_clock w |}.

Definition with_ulid_calls (n : nat) (w : World) : World :=
  {| tasks := tasks w; durable := durable w; in_transaction := in_transaction w;
     undoStack := undoStack w; ulid_source := ulid_source w;
     ulid_calls := n; datetime_now := datetime_now w;
     sql_clock := sql_clock w |}.

Definition with_sql_clock (n : nat) (w : World) : World :=
  {| tasks := tasks w; durable := durable w; in_transaction := in_transaction w;
     undoStack := undoStack w; ulid_source := ulid_source w;
     ulid_calls := ulid_calls w; datetime_now := datetime_now w;
     sql_clock := n |}.

(** A call returns a value or throws; either way it leaves a world. *)
Inductive Outcome (A : Type) : Type :=
| Returned (a : A)
| Thrown (e : Exception).
Arguments Returned {A} a.
Arguments Thrown {A} e.

Definition Eff (A : Type) : Type := World → Outcome A * World.

Global Instance Eff_ret : MRet Eff := λ A a w, (Returned a, w).

Global Instance Eff_bind : MBind Eff := λ A B k m w,
  match m w with
  | (Returned a, w') => k a w'
  | (Thrown e, w') => (Thrown e, w')
  end.

Definition throw {A : Type} (e : Exception) : Eff A := λ w, (Thrown e, w).

(** Reading the table. *)
Definition query {A : Type} (q : Table → A) : Eff A := λ w, (Returned (q (tasks w)), w).

(** A write outside [db.transaction] commits on its own. *)
Definition store (t : Table) (w : World) : World :=
  if in_transaction w then with_tasks t w
  else with_durable (t :: durable w) (with_tasks t w).

(** Running one writing statement: a statement that fails changes nothing. *)
Definition exec (stmt : Table → Exception + Table) : Eff unit := λ w,
  match stmt (tasks w) with
  | inl e => (Thrown e, w)
  | inr t => (Returned (), store t w)
  end.

(** The same for a statement that evaluates [datetime('now')]. *)
Definition exec_now (stmt : string → Table → Exception + Table) : Eff unit := λ w,
  exec (stmt (datetime_now w (sql_clock w))) (with_sql_clock (S (sql_clock w)) w).

(** [db.transaction(body)()]: commit when [body] returns, roll the table
    back and rethrow when it throws.  Inside another transaction it is a
    savepoint: nothing is committed before the outer one ends. *)
Definition transaction {A : Type} (body : Eff A) : Eff A := λ w,
  match body (with_in_transaction true w) with
  | (Returned a, w') =>
      (Returned a, store (tasks w') (with_in_transaction (in_transaction w) w'))
  | (Thrown e, w') =>
      (Thrown e, with_tasks (tasks w) (with_in_transaction (in_transaction w) w'))
  end.

(** [ulid()] *)
Definition ulid : Eff string := λ w,
  (Returned (ulid_source w (ulid_calls w)), with_ulid_calls (S (ulid_calls w)) w).

(** The module-level [undoStack]. *)
Definition get_undoStack : Eff (list Table) := λ w, (Returned (undoStack w), w).

Definition put_undoStack (u : list Table) : Eff unit := λ w,
  (Returned (), with_undoStack u w).

(** ** The service: undo *)

Definition MAX_UNDO : nat := 50.

(** [push] appends, [shift] drops the first (oldest) entry. *)
Definition saveSnapshot : Eff unit :=
  snapshot ← query (λ t, t);
  stack ← get_undoStack;
  put_undoStack (stack ++ [snapshot]);;
  stack ← get_undoStack;
  if decide (MAX_UNDO < length stack) then put_undoStack (tail stack) else mret ().

Fixpoint insert_rows (rows : Table) : Eff unit :=
  match rows with
  | [] => mret ()
  | row :: rest => exec (sql_insert row);; insert_rows rest
  end.

(** [pop] removes and returns the last (newest) entry. *)
Definition undo : Eff bool :=
  stack ← get_undoStack;
  match last stack with
  | None => mret false
  | Some snapshot =>
      put_undoStack (removelast stack);;
      transaction (exec sql_delete_all;; insert_rows snapshot);;
      mret true
  end.

Definition canUndo : Eff bool :=
  stack ← get_undoStack; mret (bool_decide (0 < length stack)).

Definition undoDepth : Eff nat :=
  stack ← get_undoStack; mret (length stack).

(** ** The service: CRUD *)

(** JavaScript truthiness of a [string | null | undefined]: the empty
    string counts as absent. *)
Definition truthy (x : option string) : option string :=
  match x with
  | Some EmptyString => None
  | _ => x
  end.

(** The row [INSERT INTO tasks (id, title, parent_id, position)] creates:
    the other columns take their defaults. *)
Definition new_row (new_id new_title : string) (p : option string) (pos : Z)
    (now : string) : TaskRow :=
  {| id := new_id; title := new_title; status := todo; parent_id := p;
     position := pos; created_at := now; updated_at := now |}.

Definition addTask (new_title : string) (p : option string) : Eff Task :=
  new_id ← ulid;
  pos ← query (next_position p);
  exec_now (λ now, sql_insert (new_row new_id new_title p pos now));;
  mret {| task_id := new_id; task_title := new_title; task_status := todo;
          parentId := p; task_position := pos |}.

Definition row_to_task (row : TaskRow) : Task :=
  {| task_id := id row; task_title := title row; task_status := status row;
     parentId := parent_id row; task_position := position row |}.

Definition getAllTasksFlat : Eff (list Task) :=
  rows ← query order_by_position; mret (row_to_task <$> rows).

(** [fields] is passed as its two optional members.  The [id] parameters
    of the functions below are [option]s because [applyOperations] passes
    [resolveId(...)!], which is [null] for an empty id. *)
Definition updateTask (v : option string) (new_title : option string)
    (new_status : option Status) : Eff unit :=
  match new_title with
  | Some x => exec_now (sql_update_title v x)
  | None => mret ()
  end;;
  match new_status with
  | Some st => exec_now (sql_update_status v st)
  | None => mret ()
  end.

Definition deleteTask (v : option string) : Eff unit := exec (sql_delete v).

(** [stats.total > 0 && stats.total === stats.done] *)
Definition all_children_done (stats : nat * option nat) : bool :=
  bool_decide (0 < stats.1) && bool_decide (stats.2 = Some stats.1).

(** [depth] bounds the nesting of the recursive calls: JavaScript throws a
    RangeError when the call stack is exhausted. *)
Fixpoint autoCompleteParent (depth : nat) (childId : option string) : Eff unit :=
  match depth with
  | O => throw StackExhausted
  | S depth' =>
      row ← query (select_by_id childId);
      match truthy (row ≫= parent_id) with
      | None => mret ()
      | Some p =>
          stats ← query (child_stats p);
          if all_children_done stats then
            exec_now (sql_update_status (Some p) done);;
            autoCompleteParent depth' (Some p)
          else mret ()
      end
  end.

Definition completeTask (depth : nat) (v : option string) : Eff unit :=
  exec_now (sql_update_status v done);;
  autoCompleteParent depth v.

Definition moveTask (v : option string) (newParentId : option string) : Eff unit :=
  pos ← query (next_position newParentId);
  exec_now (sql_update_parent v newParentId pos).

Inductive Direction : Type := up | down.

Definition reorderTask (x : string) (direction : Direction) : Eff bool :=
  found ← query (select_by_id (Some x));
  match found with
  | None => mret false
  | Some task =>
      siblings ← query (select_siblings (parent_id task));
      match list_find (λ s, id s = x) siblings with
      | None => mret false
      | Some (idx, _) =>
          let swapIdx : Z :=
            match direction with
            | up => (Z.of_nat idx - 1)%Z
            | down => (Z.of_nat idx + 1)%Z
            end in
          if decide (swapIdx < 0 ∨ Z.of_nat (length siblings) ≤ swapIdx)%Z then mret false
          else
            match siblings !! Z.to_nat swapIdx with
            | None => mret false
            | Some other =>
                transaction
                  (exec_now (sql_update_position (Some (id task)) (position other));;
                   exec_now (sql_update_position (Some (id other)) (position task)));;
                mret true
            end
      end
  end.

Inductive IndentDirection : Type := indent | outdent.

Definition indentTask (x : string) (direction : IndentDirection) : Eff bool :=
  found ← query (select_by_id (Some x));
  match found with
  | None => mret false
  | Some task =>
      match direction with
      | outdent =>
          match truthy (parent_id task) with
          | None => mret false
          | Some p =>
              parent ← query (select_by_id (Some p));
              match parent with
              | None => mret false
              | Some parent => moveTask (Some x) (parent_id parent);; mret true
              end
          end
      | indent =>
          siblings ← query (select_siblings (parent_id task));
          match list_find (λ s, id s = x) siblings with
          | None => mret false
          | Some (O, _) => mret false
          | Some (S idx, _) =>
              match siblings !! idx with
              | None => mret false
              | Some prevSibling => moveTask (Some x) (Some (id prevSibling));; mret true
              end
          end
      end
  end.

Definition clearAllTasks : Eff unit := exec sql_delete_all.

Definition getChildrenCount (p : string) : Eff (nat * nat) :=
  row ← query (child_stats p); mret (row.1, default 0 row.2).

(** ** The service: batch apply *)

(** [if (!id) return null; return idMap.get(id) ?? id] *)
Definition resolveId (idMap : gmap string string) (x : option string) : option string :=
  match truthy x with
  | None => None
  | Some s => Some (default s (idMap !! s))
  end.

(** One turn of the [for] loop: the operation runs and the map of
    temporary ids is returned as the operation leaves it. *)
Definition apply_operation (depth : nat) (idMap : gmap string string)
    (op : TaskOperation) : Eff (gmap string string) :=
  match op with
  | OpAdd op_id op_title op_parentId =>
      task ← addTask op_title (resolveId idMap op_parentId);
      mret (match truthy op_id with
            | Some temp => <[temp := task_id task]> idMap
            | None => idMap
            end)
  | OpDelete taskId =>
      deleteTask (resolveId idMap (Some taskId));; mret idMap
  | OpMove taskId newParentId =>
      moveTask (resolveId idMap (Some taskId)) (resolveId idMap newParentId);; mret idMap
  | OpUpdate taskId op_title =>
      updateTask (resolveId idMap (Some taskId)) (Some op_title) None;; mret idMap
  | OpDone taskId =>
      completeTask depth (resolveId idMap (Some taskId));; mret idMap
  end.

Fixpoint apply_loop (depth : nat) (idMap : gmap string string)
    (operations : list TaskOperation) : Eff (gmap string string) :=
  match operations with
  | [] => mret idMap
  | op :: rest =>
      idMap' ← apply_operation depth idMap op;
      apply_loop depth idMap' rest
  end.

Definition applyOperations (depth : nat) (operations : list TaskOperation) : Eff unit :=
  transaction (apply_loop depth ∅ operations);; mret ().

(** ** Notions used in the statements *)

(** What the service functions leave alone: the undo stack, the transaction
    flag, the two oracles and, inside a transaction, the committed states. *)
Definition frame (w w' : World) : Prop :=
  undoStack w' = undoStack w ∧
  in_transaction w' = in_transaction w ∧
  ulid_source w' = ulid_source w ∧
  datetime_now w' = datetime_now w ∧
  (in_transaction w = true → durable w' = durable w).

Definition framed {A : Type} (m : Eff A) : Prop := ∀ w, frame w (m w).2.

(** The parent relation of a table: [is_parent t p x] when a row with id
    [x] has [parent_id] [p]; [descendant t a x] when [x] is a descendant of
    [a], that is [a] is reached from [x] in one or more parent steps. *)
Definition is_parent (t : Table) (p x : string) : Prop :=
  ∃ r, r ∈ t ∧ id r = x ∧ parent_id r = Some p.

Inductive descendant (t : Table) (a : string) : string → Prop :=
| descendant_child x : is_parent t a x → descendant t a x
| descendant_step p x : is_parent t p x → descendant t a p → descendant t a x.

(** No task is its own descendant. *)
Definition acyclic (t : Table) : Prop := ∀ x, ¬ descendant t x x.

(** The parent the walk of [autoCompleteParent] moves to from [x]:
    [row?.parent_id] of the row selected by [x], when it is truthy. *)
Definition parent_of (t : Table) (x : string) : option string :=
  truthy (select_by_id (Some x) t ≫= parent_id).

(** [chain t x [p1; ...; pk]]: the walk as the code makes it, by its own
    lookup: [p1] is what it finds as the parent of [x], [p2] as the parent
    of [p1], and so on upward. *)
Inductive chain (t : Table) : string → list string → Prop :=
| chain_nil x : chain t x []
| chain_cons x p rest : parent_of t x = Some p → chain t p rest → chain t x (p :: rest).

(** [p] has at least one direct child and all its direct children are done. *)
Definition fully_done (t : Table) (p : string) : Prop :=
  (∃ r, r ∈ t ∧ parent_id r = Some p) ∧
  (∀ r, r ∈ t → parent_id r = Some p → status r = done).

(** [marked_only ms r r']: the row [r'] is the row [r], or [r] is one of the
    tasks [ms] and [r'] is [r] with status [done] and a new [updated_at]. *)
Definition marked_only (ms : list string) (r r' : TaskRow) : Prop :=
  r' = r ∨
  (id r ∈ ms ∧ status r' = done ∧
   id r' = id r ∧ title r' = title r ∧ parent_id r' = parent_id r ∧
   position r' = position r ∧ created_at r' = created_at r).

(** What the walk reads of a row besides its status. *)
Definition skeleton (r : TaskRow) : string * option string := (id r, parent_id r).

(** An executable test for [acyclic]: from every row, every upward walk
    ends within [length t] steps ([acyclicb_sound]). *)
Fixpoint climbs (n : nat) (t : Table) (x : string) : bool :=
  match n with
  | O => false
  | S n' =>
      forallb (λ r, if decide (id r = x)
                    then match parent_id r with
                         | None => true
                         | Some p => climbs n' t p
                         end
                    else true) t
  end.

Definition acyclicb (t : Table) : bool :=
  forallb (λ r, climbs (length t) t (id r)) t.

(** Worlds to run examples in: [world_of t] has the table [t], committed,
    an empty undo stack, and oracles that count; its [ulid()] continues after
    the ids 01A, 01B, ... of the rows of [t]. *)
Definition example_ulids (n : nat) : string :=
  nth n ["01A"; "01B"; "01C"; "01D"; "01E"; "01F"] "01Z".

Definition example_times (n : nat) : string :=
  nth n ["09:00"; "09:01"; "09:02"; "09:03"; "09:04"; "09:05"; "09:06"; "09:07"] "10:00".

Definition world_of (t : Table) : World :=
  {| tasks := t; durable := [t]; in_transaction := false; undoStack := [];
     ulid_source := example_ulids; ulid_calls := length t;
     datetime_now := example_times; sql_clock := 0 |}.

Definition example_row (x : string) (st : Status) (p : option string) (pos : Z) : TaskRow :=
  {| id := x; title := "task " +:+ x; status := st; parent_id := p;
     position := pos; created_at := "08:00"; updated_at := "08:00" |}.

Definition one_task : Table := [example_row "01A" todo None 0].

(** A chain 01A > 01B > 01C and a separate root 01D. *)
Definition chain_and_root : Table :=
  [example_row "01A" todo None 0; example_row "01B" todo (Some "01A") 0;
   example_row "01C" todo (Some "01B") 0; example_row "01D" todo None 1].

(** A parent with one done child and one child still to do. *)
Definition parent_of_two : Table :=
  [example_row "01A" todo None 0; example_row "01B" done (Some "01A") 0;
   example_row "01C" todo (Some "01A") 1].

(** A task whose parent was created after it (the result of moving 01A
    under 01B): the child's row comes first in rowid order. *)
Definition child_before_parent : Table :=
  [example_row "01A" todo (Some "01B") 0; example_row "01B" todo None 1].

(** A parent and its only child. *)
Definition parent_and_child : Table :=
  [example_row "01A" todo None 0; example_row "01B" todo (Some "01A") 0].

(** A call that reads: it leaves the table, the committed states and the
    transaction flag alone. *)
Definition silent {A : Type} (m : Eff A) : Prop :=
  ∀ w, tasks (m w).2 = tasks w ∧ durable (m w).2 = durable w ∧
       in_transaction (m w).2 = in_transaction w.

(** A call is atomic when, run outside a transaction, it commits nothing
    and leaves the table as it was, or returns having committed exactly one
    state, the table it leaves: no state in between is ever committed. *)
Definition atomic {A : Type} (m : Eff A) : Prop :=
  ∀ w, in_transaction w = false →
       (tasks (m w).2 = tasks w ∧ durable (m w).2 = durable w) ∨
       (∃ a, (m w).1 = Returned a ∧ durable (m w).2 = tasks (m w).2 :: durable w).

(** Rows that can be inserted one after the other into the table [t]: each
    has a new id and a parent that is NULL, already there, or itself. *)
Fixpoint insertable (t : Table) (rows : Table) : Prop :=
  match rows with
  | [] => True
  | r :: rest =>
      (id r ∉ ids t) ∧ (∀ p, parent_id r = Some p → p ∈ ids t ∨ p = id r) ∧
      insertable (t ++ [r]) rest
  end.

(** A task that is its own parent, as [moveTask(A, A)] leaves it. *)
Definition own_parent : Table := [example_row "01A" todo (Some "01A") 0].

(** The worlds a process can be in: it starts with an empty undo stack and
    then calls [saveSnapshot], [undo] and functions that leave the stack
    alone (all the others), in any order. *)
Inductive reachable : World → Prop :=
| reachable_start w : undoStack w = [] → reachable w
| reachable_saveSnapshot w : reachable w → reachable (saveSnapshot w).2
| reachable_undo w : reachable w → reachable (undo w).2
| reachable_call {A : Type} (m : Eff A) w : framed m → reachable w → reachable (m w).2.

(** The world after [n] calls of [undo], whatever they return. *)
Definition undo_times (n : nat) (w : World) : World :=
  Nat.iter n (λ w', (undo w').2) w.

(** ** Further notions: what a call changes, what it keeps *)

(** [advanced r r']: [r'] is [r] except perhaps for a status that has become
    [done] and for [updated_at]. *)
Definition advanced (r r' : TaskRow) : Prop :=
  id r' = id r ∧ title r' = title r ∧ parent_id r' = parent_id r ∧
  position r' = position r ∧ created_at r' = created_at r ∧
  (status r' = status r ∨ status r' = done).

(** [edited v new_title new_status r r']: what [updateTask] may do to the
    row [r]: nothing if [v] does not select it, else the fields given are
    set and [updated_at] is refreshed. *)
Definition edited (v : option string) (new_title : option string)
    (new_status : option Status) (r r' : TaskRow) : Prop :=
  id r' = id r ∧ parent_id r' = parent_id r ∧ position r' = position r ∧
  created_at r' = created_at r ∧
  (¬ where_id v r → r' = r) ∧
  (where_id v r →
   title r' = default (title r) new_title ∧ status r' = default (status r) new_status).

(** The two constraints of the schema on a table: [id] is a primary key,
    and every non-NULL [parent_id] is the id of a row. *)
Definition integrity (t : Table) : Prop :=
  NoDup (ids t) ∧ ∀ r p, r ∈ t → parent_id r = Some p → p ∈ ids t.

(** A call keeps a property of the table, however it ends. *)
Definition keeps (P : Table → Prop) {A : Type} (m : Eff A) : Prop :=
  ∀ w, P (tasks w) → P (tasks (m w).2).

Definition stmt_keeps (P : Table → Prop) (stmt : Table → Exception + Table) : Prop :=
  ∀ t t', P t → stmt t = inr t' → P t'.

(** [moved A B pos r r']: what [moveTask(A, B)] does to the row [r]. *)
Definition moved (A : string) (B : option string) (pos : Z) (r r' : TaskRow) : Prop :=
  if decide (id r = A)
  then id r' = A ∧ parent_id r' = B ∧ position r' = pos ∧
       title r' = title r ∧ status r' = status r ∧ created_at r' = created_at r
  else r' = r.

(** Rows in ascending order of [position]. *)
Fixpoint ascending (rows : Table) : Prop :=
  match rows with
  | [] => True
  | r :: rest => (∀ r', r' ∈ rest → (position r ≤ position r')%Z) ∧ ascending rest
  end.

(** [swapped task other r r']: what a successful [reorderTask] does to the
    row [r]: the rows of [task] and [other] exchange their positions. *)
Definition swapped (task other : TaskRow) (r r' : TaskRow) : Prop :=
  id r' = id r ∧ title r' = title r ∧ status r' = status r ∧
  parent_id r' = parent_id r ∧ created_at r' = created_at r ∧
  position r' = (if decide (id r = id task) then position other
                 else if decide (id r = id other) then position task
                 else position r) ∧
  (id r ≠ id task → id r ≠ id other → r' = r).

(** The tasks of a sibling group have distinct positions, so that their
    order is determined. *)
Definition distinct_positions (t : Table) : Prop :=
  ∀ r r', r ∈ t → r' ∈ t → parent_id r = parent_id r' → position r = position r' →
          id r = id r'.

(** What distinguishes siblings: id, parent and position. *)
Definition layout (r : TaskRow) : string * option string * Z :=
  (id r, parent_id r, position r).

(** The chain and a root, one snapshot taken. *)
Definition chain_saved : World := (saveSnapshot (world_of chain_and_root)).2.

(** ** The task tree (getTasks and its readers) *)

(** A [Task] object of the tree: its fields and its [children] array.  The
    array holds references to [Task] objects; an object is referred to by the
    key under which the [Map] of [getTasks] holds it. *)
Record TaskObject : Type := { fields : Task; children : list string }.

(** A JS [Map] from ids to objects, in insertion order: [set] on a key that is
    present replaces the value in place. *)
Definition JsMap : Type := list (string * TaskObject).

Fixpoint map_set (k : string) (v : TaskObject) (m : JsMap) : JsMap :=
  match m with
  | [] => [(k, v)]
  | (k', v') :: m' =>
      if decide (k' = k) then (k, v) :: m' else (k', v') :: map_set k v m'
  end.

Definition map_get (k : string) (m : JsMap) : option TaskObject :=
  snd <$> head (filter (λ kv, kv.1 = k) m).

Definition map_has (k : string) (m : JsMap) : bool := bool_decide (k ∈ m.*1).

(** [map.get(p).children.push(c)]: the object under [p] is mutated. *)
Definition push_child (p c : string) (m : JsMap) : JsMap :=
  (λ kv, if decide (kv.1 = p)
         then (kv.1, {| fields := fields kv.2; children := children kv.2 ++ [c] |})
         else kv) <$> m.

(** What [getTasks] returns: the array [roots] of references, and the objects
    they lead to. *)
Record Forest : Type := { heap : JsMap; roots : list string }.

(** First loop of [getTasks]. *)
Definition build_map (rows : Table) : JsMap :=
  fold_left (λ m row, map_set (id row) {| fields := row_to_task row; children := [] |} m)
            rows [].

(** Body of the second loop, for the object [task]. *)
Definition link (f : Forest) (task : Task) : Forest :=
  match truthy (parentId task) with
  | Some p =>
      if map_has p (heap f)
      then {| heap := push_child p (task_id task) (heap f); roots := roots f |}
      else {| heap := heap f; roots := roots f ++ [task_id task] |}
  | None => {| heap := heap f; roots := roots f ++ [task_id task] |}
  end.

Definition getTasks : Eff Forest :=
  rows ← query order_by_position;
  let map := build_map rows in
  mret (fold_left link (fields <$> map.*2) {| heap := map; roots := [] |}).

(** [numberTasks] of the command line (index.ts).  [fuel] bounds the depth
    of the recursion: [None] is an exhausted call stack (or, in the model
    only, a reference that leads nowhere). *)
Fixpoint number_loop (rec : list string → nat → option (list (Task * nat)))
    (m : JsMap) (depth : nat) (tasks : list string) (result : list (Task * nat))
  : option (list (Task * nat)) :=
  match tasks with
  | [] => Some result
  | ref :: rest =>
      match map_get ref m with
      | None => None
      | Some task =>
          let result := result ++ [(fields task, depth)] in
          if bool_decide (0 < length (children task))
          then match rec (children task) (S depth) with
               | None => None
               | Some below => number_loop rec m depth rest (result ++ below)
               end
          else number_loop rec m depth rest result
      end
  end.

Fixpoint numberTasks (fuel : nat) (m : JsMap) (tasks : list string) (depth : nat)
  : option (list (Task * nat)) :=
  match fuel with
  | O => None
  | S fuel => number_loop (numberTasks fuel m) m depth tasks []
  end.

(** [flattenTasks] of the interactive view (TaskTree.tsx). *)
Record FlatTask : Type := {
  flat_task : Task;
  flat_depth : nat;
  isLast : bool;
  hasChildren : bool;
  doneCount : nat;
  totalCount : nat;
  ancestors : list bool
}.

Definition count_done (m : JsMap) (kids : list string) : nat :=
  length (filter (λ c, task_status ∘ fields <$> map_get c m = Some done) kids).

Fixpoint flatten_loop (rec : list string → nat → list bool → option (list FlatTask))
    (m : JsMap) (collapsedIds : gset string) (depth : nat) (ancestors : list bool)
    (tasks : list string) (result : list FlatTask) : option (list FlatTask) :=
  match tasks with
  | [] => Some result
  | ref :: rest =>
      match map_get ref m with
      | None => None
      | Some task =>
          let last := bool_decide (rest = []) in
          let kids := children task in
          let hasChildren := bool_decide (0 < length kids) in
          let totalCount := if hasChildren then length kids else 0 in
          let doneCount := if hasChildren then count_done m kids else 0 in
          let currentAncestors := if decide (depth = 0) then [] else ancestors in
          let result :=
            result ++ [{| flat_task := fields task; flat_depth := depth; isLast := last;
                          hasChildren := hasChildren; doneCount := doneCount;
                          totalCount := totalCount; ancestors := currentAncestors |}] in
          if hasChildren && negb (bool_decide (task_id (fields task) ∈ collapsedIds))
          then match rec kids (S depth) (ancestors ++ [last]) with
               | None => None
               | Some below =>
                   flatten_loop rec m collapsedIds depth ancestors rest (result ++ below)
               end
          else flatten_loop rec m collapsedIds depth ancestors rest result
      end
  end.

Fixpoint flattenTasks (fuel : nat) (m : JsMap) (collapsedIds : gset string)
    (tasks : list string) (depth : nat) (ancestors : list bool) : option (list FlatTask) :=
  match fuel with
  | O => None
  | S fuel =>
      flatten_loop (flattenTasks fuel m collapsedIds) m collapsedIds depth ancestors tasks []
  end.

(** The tree as the table determines it: a row is a root when its parent is
    absent (null, the empty string, or an id that is not in the table), and
    a child of the row its parent id names otherwise. *)
Definition is_root (t : Table) (r : TaskRow) : Prop :=
  match truthy (parent_id r) with
  | Some p => p ∉ ids t
  | None => True
  end.

Global Instance is_root_dec (t : Table) (r : TaskRow) : Decision (is_root t r).
Proof. unfold is_root. destruct (truthy (parent_id r)); apply _. Defined.

Definition child_of (p : TaskRow) (r : TaskRow) : Prop :=
  truthy (parent_id r) = Some (id p).

Global Instance child_of_dec (p r : TaskRow) : Decision (child_of p r).
Proof. unfold child_of. apply _. Defined.

(** [level t r n]: [r] is [n] steps below a root. *)
Inductive level (t : Table) : TaskRow → nat → Prop :=
| level_root r : r ∈ t → is_root t r → level t r 0
| level_child p r n : level t p n → r ∈ t → child_of p r → level t r (S n).

(** [below t a k r]: [r] is [k] steps below [a]. *)
Inductive below (t : Table) : TaskRow → nat → TaskRow → Prop :=
| below_self a : a ∈ t → below t a 0 a
| below_step a c k r :
    a ∈ t → c ∈ t → child_of a c → below t c k r → below t a (S k) r.

(** The object that [getTasks] builds for a row, and the whole result. *)
Definition object_of (rows : Table) (r : TaskRow) : TaskObject :=
  {| fields := row_to_task r; children := id <$> filter (child_of r) rows |}.

Definition forest_of (rows seen : Table) : Forest :=
  {| heap := (λ r, (id r, object_of seen r)) <$> rows;
     roots := id <$> filter (is_root rows) seen |}.

(** What [numberTasks] lists below the rows [rs], [k] levels deep. *)
Fixpoint listing (k : nat) (rows rs : Table) (d : nat) : list (TaskRow * nat) :=
  match k with
  | O => []
  | S k => rs ≫= (λ r, (r, d) :: listing k rows (filter (child_of r) rows) (S d))
  end.

Definition numbered (e : TaskRow * nat) : Task * nat := (row_to_task e.1, e.2).

(** Two tasks on a cycle, a task below the cycle, and a root. *)
Definition cycle_and_tail : Table :=
  [example_row "01A" todo (Some "01B") 0; example_row "01B" todo (Some "01A") 0;
   example_row "01C" todo (Some "01A") 1; example_row "01D" todo None 0].

(** What [numberTasks] keeps of an entry of [flattenTasks]. *)
Definition flat_numbered (e : FlatTask) : Task * nat := (flat_task e, flat_depth e).

Definition numbered_view (o : option (list FlatTask)) : option (list (Task * nat)) :=
  match o with
  | Some l => Some (flat_numbered <$> l)
  | None => None
  end.

(** The tree that [getTasks] builds for the chain and a root. *)
Definition chain_forest : Forest :=
  match (getTasks (world_of chain_and_root)).1 with
  | Returned f => f
  | Thrown _ => {| heap := []; roots := [] |}
  end.

(** An entry of [flattenTasks] made from the object [obj]. *)
Definition entry_of (m : JsMap) (obj : TaskObject) (e : FlatTask) : Prop :=
  flat_task e = fields obj ∧
  totalCount e = length (children obj) ∧
  doneCount e = count_done m (children obj) ∧
  hasChildren e = bool_decide (0 < length (children obj)).

Definition is_move (op : TaskOperation) : bool :=
  match op with
  | OpMove _ _ => true
  | _ => false
  end.

(** [insertable], as a test. *)
Fixpoint insertableb (t : Table) (rows : Table) : bool :=
  match rows with
  | [] => true
  | r :: rest =>
      negb (bool_decide (id r ∈ ids t)) &&
      match parent_id r with
      | None => true
      | Some p => bool_decide (p ∈ ids t) || bool_decide (p = id r)
      end &&
      insertableb (t ++ [r]) rest
  end.

(** [steps t x n y]: [n] parent links lead from [x] down to [y]. *)
Inductive steps (t : Table) (x : string) : nat → string → Prop :=
| steps_here : steps t x 0 x
| steps_down n p y : steps t x n p → is_parent t p y → steps t x (S n) y.

(** A chain of [n] tasks, each the parent of the next, created top first. *)
Definition chain_name (k : nat) : string := "T" +:+ pretty k.

Definition chain_row (k : nat) : TaskRow :=
  example_row (chain_name k) todo
    (match k with O => None | S k' => Some (chain_name k') end) 0.

Definition chain_of (n : nat) : Table := chain_row <$> seq 0 n.

Definition deep_chain : Table := chain_of 1001.

(** Integers that a JS number holds exactly reach up to [2^53]. *)
Definition two53 : Z := (2 ^ 53)%Z.

(** A position that a JS number holds exactly, and whose successor it holds
    exactly too. *)
Definition safe_position (z : Z) : Prop := (- two53 ≤ z < two53)%Z.

(** [room k t]: the positions of [t] leave room for [k] steps of
    [MAX(position) + 1] within the integers that a JS number holds exactly. *)
Definition room (k : nat) (t : Table) : Prop :=
  (Z.of_nat k ≤ two53)%Z ∧
  ∀ r, r ∈ t → (- two53 ≤ position r ∧ position r + Z.of_nat k ≤ two53)%Z.

(** [ancestry t x [p1; ...; pk]]: in the parent relation of the table, [p1]
    is the parent of [x], [p2] the parent of [p1], and so on upward. *)
Inductive ancestry (t : Table) : string → list string → Prop :=
| ancestry_nil x : ancestry t x []
| ancestry_cons x p rest :
    is_parent t p x → ancestry t p rest → ancestry t x (p :: rest).

(** A task whose id is the empty string, and its only child. *)
Definition empty_id_parent : Table :=
  [example_row "" todo None 0; example_row "01B" todo (Some "") 0].

(** A full undo stack: a snapshot of the empty table, one task created, and
    49 more snapshots. *)
Definition full_stack : World :=
  Nat.iter 49 (λ w, (saveSnapshot w).2)
    (addTask "A" None (saveSnapshot (world_of [])).2).2.

(** * Properties *)

(** ** Runs of the monad *)

Lemma run_bind {A B : Type} (m : Eff A) (k : A → Eff B) (w : World) :
  (m ≫= k) w =
  match m w with
  | (Returned a, w') => k a w'
  | (Thrown e, w') => (Thrown e, w')
  end.
Proof. reflexivity. Qed.

Lemma run_bind_returned {A B : Type} (m : Eff A) (k : A → Eff B) (w w' : World) (a : A) :
  m w = (Returned a, w') → (m ≫= k) w = k a w'.
Proof. intros H. rewrite run_bind, H. reflexivity. Qed.

Lemma run_bind_thrown {A B : Type} (m : Eff A) (k : A → Eff B) (w w' : World) e :
  m w = (Thrown e, w') → (m ≫= k) w = (Thrown e, w').
Proof. intros H. rewrite run_bind, H. reflexivity. Qed.

Lemma tasks_store (t : Table) (w : World) : tasks (store t w) = t.
Proof. unfold store. destruct (in_transaction w); reflexivity. Qed.

Lemma run_exec_now (stmt : string → Table → Exception + Table) (w : World) :
  exec_now stmt w =
  match stmt (datetime_now w (sql_clock w)) (tasks w) with
  | inl e => (Thrown e, with_sql_clock (S (sql_clock w)) w)
  | inr t => (Returned (), store t (with_sql_clock (S (sql_clock w)) w))
  end.
Proof. reflexivity. Qed.

Lemma frame_refl (w : World) : frame w w.
Proof. unfold frame. tauto. Qed.

Lemma frame_trans (w1 w2 w3 : World) : frame w1 w2 → frame w2 w3 → frame w1 w3.
Proof.
  unfold frame. intros (H1 & H2 & H3 & H4 & H5) (G1 & G2 & G3 & G4 & G5).
  repeat split; try congruence.
  intros Ht. rewrite G5, H5; congruence.
Qed.

Lemma frame_store (t : Table) (w : World) : frame w (store t w).
Proof.
  unfold frame, store. destruct (in_transaction w) eqn:E; cbn;
    repeat split; try done; congruence.
Qed.

Create HintDb framed discriminated.

Lemma framed_ret {A : Type} (a : A) : framed (mret a : Eff A).
Proof. intros w. apply frame_refl. Qed.

Lemma framed_throw {A : Type} e : framed (throw e : Eff A).
Proof. intros w. apply frame_refl. Qed.

Lemma framed_bind {A B : Type} (m : Eff A) (k : A → Eff B) :
  framed m → (∀ a, framed (k a)) → framed (m ≫= k).
Proof.
  intros Hm Hk w. rewrite run_bind. specialize (Hm w).
  destruct (m w) as [[a|e] w']; cbn in *; [|done].
  eapply frame_trans; [exact Hm | apply Hk].
Qed.

Lemma framed_query {A : Type} (q : Table → A) : framed (query q).
Proof. intros w. apply frame_refl. Qed.

Lemma framed_exec stmt : framed (exec stmt).
Proof.
  intros w. unfold exec. destruct (stmt (tasks w)); cbn;
    [apply frame_refl | apply frame_store].
Qed.

Lemma framed_exec_now stmt : framed (exec_now stmt).
Proof.
  intros w. rewrite run_exec_now.
  destruct (stmt _ _); cbn.
  - unfold frame; cbn; tauto.
  - eapply frame_trans; [|apply frame_store]. unfold frame; cbn; tauto.
Qed.

Lemma framed_ulid : framed ulid.
Proof. intros w. unfold frame; cbn; tauto. Qed.

Lemma framed_transaction {A : Type} (body : Eff A) : framed body → framed (transaction body).
Proof.
  intros Hb w. unfold transaction.
  specialize (Hb (with_in_transaction true w)).
  destruct (body _) as [[a|e] w']; cbn in *;
    destruct Hb as (H1 & H2 & H3 & H4 & H5); cbn in *.
  - unfold frame, store; cbn. destruct (in_transaction w) eqn:E; cbn;
      repeat split; first [done | congruence | intros _; apply H5; reflexivity].
  - unfold frame; cbn.
    repeat split; first [done | congruence | intros _; apply H5; reflexivity].
Qed.

Global Hint Resolve framed_ret framed_throw framed_query framed_exec framed_exec_now
  framed_ulid framed_transaction : framed.
Global Hint Extern 2 (framed (_ ≫= _)) => apply framed_bind; [|intros ?] : framed.
Global Hint Extern 5 (framed (match ?x with _ => _ end)) => destruct x : framed.

Lemma framed_addTask new_title p : framed (addTask new_title p).
Proof. unfold addTask. auto 10 with framed. Qed.

Lemma framed_updateTask v a b : framed (updateTask v a b).
Proof. unfold updateTask. auto 10 with framed. Qed.

Lemma framed_deleteTask v : framed (deleteTask v).
Proof. unfold deleteTask. auto with framed. Qed.

Lemma framed_autoCompleteParent depth v : framed (autoCompleteParent depth v).
Proof.
  revert v. induction depth as [|depth IH]; intros v; cbn [autoCompleteParent];
    auto 10 with framed.
Qed.

Lemma framed_completeTask depth v : framed (completeTask depth v).
Proof. unfold completeTask. auto using framed_autoCompleteParent with framed. Qed.

Lemma framed_moveTask v p : framed (moveTask v p).
Proof. unfold moveTask. auto 10 with framed. Qed.

Global Hint Resolve framed_addTask framed_updateTask framed_deleteTask
  framed_completeTask framed_moveTask : framed.

Lemma framed_reorderTask x d : framed (reorderTask x d).
Proof. unfold reorderTask. auto 20 with framed. Qed.

Lemma framed_indentTask x d : framed (indentTask x d).
Proof. unfold indentTask. auto 20 with framed. Qed.

Lemma framed_clearAllTasks : framed clearAllTasks.
Proof. unfold clearAllTasks. auto with framed. Qed.

Lemma framed_apply_operation depth idMap op : framed (apply_operation depth idMap op).
Proof. destruct op; cbn [apply_operation]; auto 10 with framed. Qed.

Lemma framed_apply_loop depth idMap ops : framed (apply_loop depth idMap ops).
Proof.
  revert idMap. induction ops as [|op ops IH]; intros idMap; cbn [apply_loop];
    auto using framed_apply_operation with framed.
Qed.

Lemma framed_applyOperations depth ops : framed (applyOperations depth ops).
Proof. unfold applyOperations. auto using framed_apply_loop with framed. Qed.

(** ** Transactions *)

(** A transaction opened outside any other commits exactly once, its final
    table, or rolls the table back and commits nothing. *)
Lemma transaction_atomic {A : Type} (body : Eff A) (w : World) :
  framed body → in_transaction w = false →
  match transaction body w with
  | (Returned _, w') => durable w' = tasks w' :: durable w
  | (Thrown _, w') => tasks w' = tasks w ∧ durable w' = durable w
  end.
Proof.
  intros Hb Hw. unfold transaction.
  destruct (Hb (with_in_transaction true w)) as (_ & _ & _ & _ & Hd).
  destruct (body _) as [[a|e] w']; cbn in *.
  - unfold store; cbn. rewrite Hw; cbn. rewrite Hd; done.
  - split; [done | by apply Hd].
Qed.

(** ** Facts about the statements *)

Lemma elem_of_ids (x : string) (t : Table) : x ∈ ids t ↔ ∃ r, r ∈ t ∧ id r = x.
Proof.
  unfold ids. rewrite list_elem_of_fmap. split; intros (r & H1 & H2); eauto.
Qed.

Lemma cascade_sublist (rounds : nat) (deleted : list string) (t : Table) :
  cascade rounds deleted t `sublist_of` t.
Proof.
  revert deleted t. induction rounds as [|n IH]; intros deleted t; cbn; [done|].
  etrans; [apply IH | apply sublist_filter].
Qed.

Lemma length_filter_compl {A : Type} (P : A → Prop) `{!∀ x, Decision (P x)} (l : list A) :
  length (filter P l) + length (filter (λ x, ¬ P x) l) = length l.
Proof.
  induction l as [|a l IH]; [done|]. rewrite !filter_cons.
  destruct (decide (P a)).
  - rewrite decide_False by tauto. cbn. lia.
  - rewrite decide_True by done. cbn. lia.
Qed.

Lemma cascade_depth_le (rounds : nat) (deleted : list string) (t : Table) :
  cascade_depth rounds deleted t ≤ length t.
Proof.
  revert deleted t. induction rounds as [|n IH]; intros deleted t; cbn [cascade_depth];
    [lia|].
  destruct (filter (references deleted) t) as [|r gone] eqn:Hgone; [lia|].
  pose proof (IH (ids (r :: gone)) (filter (λ r, ¬ references deleted r) t)) as Hle.
  pose proof (length_filter_compl (references deleted) t) as Hlen.
  rewrite Hgone in Hlen. cbn in Hlen. lia.
Qed.

(** What [DELETE ... WHERE id = ?] can do: delete nothing when no row
    matches, delete the matching rows and what the cascade takes, or fail
    with the table as it was. *)
Lemma sql_delete_cases (v : option string) (t : Table) :
  (filter (where_id v) t = [] ∧ sql_delete v t = inr t) ∨
  (filter (where_id v) t ≠ [] ∧
   cascade_depth (length t) (ids (filter (where_id v) t))
     (filter (λ r, ¬ where_id v r) t) < MAX_TRIGGER_DEPTH ∧
   sql_delete v t = inr (cascade (length t) (ids (filter (where_id v) t))
                           (filter (λ r, ¬ where_id v r) t))) ∨
  (filter (where_id v) t ≠ [] ∧
   MAX_TRIGGER_DEPTH ≤ cascade_depth (length t) (ids (filter (where_id v) t))
                         (filter (λ r, ¬ where_id v r) t) ∧
   sql_delete v t = inl TriggerDepth).
Proof.
  unfold sql_delete. destruct (filter (where_id v) t) as [|r gone] eqn:Hgone; [by left|].
  right. destruct (decide _) as [Hlt|Hge]; [left | right]; split_and!; (done || lia).
Qed.

Lemma sql_delete_inl (v : option string) (t : Table) (e : Exception) :
  sql_delete v t = inl e → e = TriggerDepth ∧ MAX_TRIGGER_DEPTH < length t.
Proof.
  destruct (sql_delete_cases v t) as [[_ ->]|[(_ & _ & ->)|(Hne & Hd & ->)]]; [done..|].
  intros [= <-]. split; [done|].
  pose proof (cascade_depth_le (length t) (ids (filter (where_id v) t))
                (filter (λ r, ¬ where_id v r) t)) as Hle.
  pose proof (length_filter_compl (where_id v) t) as Hlen.
  destruct (filter (where_id v) t); [done|]. cbn in Hlen. lia.
Qed.

Lemma sql_delete_sublist (v : option string) (t t' : Table) :
  sql_delete v t = inr t' → t' `sublist_of` t.
Proof.
  destruct (sql_delete_cases v t) as [[_ ->]|[(_ & _ & ->)|(_ & _ & ->)]]; [| |done].
  - by intros [= <-].
  - intros [= <-]. etrans; [apply cascade_sublist | apply sublist_filter].
Qed.

Lemma sql_delete_no_match (v : option string) (t t' : Table) (r : TaskRow) :
  sql_delete v t = inr t' → r ∈ t' → ¬ where_id v r.
Proof.
  destruct (sql_delete_cases v t) as [[Hnone ->]|[(_ & _ & ->)|(_ & _ & ->)]]; [| |done].
  - intros [= <-] Hr Hv. by eapply (filter_nil_not_elem_of _ _ r Hnone).
  - intros [= <-] Hr.
    pose proof (cascade_sublist (length t) (ids (filter (where_id v) t))
                  (filter (λ r, ¬ where_id v r) t)) as Hsub.
    eapply elem_of_sublist in Hsub; [|done]. by apply list_elem_of_filter in Hsub as [? _].
Qed.

Lemma delete_rows_spec (xs : list string) (t t' : Table) :
  delete_rows xs t = inr t' → t' `sublist_of` t ∧ ∀ r, r ∈ t' → id r ∉ xs.
Proof.
  revert t. induction xs as [|x xs IH]; intros t; cbn [delete_rows].
  - intros [= <-]. split; [done|]. intros r _. apply not_elem_of_nil.
  - destruct (sql_delete (Some x) t) as [e|t1] eqn:E; [done|]. intros H.
    destruct (IH _ H) as [Hsub Hids]. split.
    + etrans; [exact Hsub | by eapply sql_delete_sublist].
    + intros r Hr [Hx|Hin]%elem_of_cons; [|by apply (Hids r)].
      apply (sql_delete_no_match _ _ _ r E); [by eapply elem_of_sublist|].
      unfold where_id. by rewrite Hx.
Qed.

Lemma delete_rows_inl (xs : list string) (t : Table) (e : Exception) :
  delete_rows xs t = inl e → e = TriggerDepth ∧ MAX_TRIGGER_DEPTH < length t.
Proof.
  revert t. induction xs as [|x xs IH]; intros t; cbn [delete_rows]; [done|].
  destruct (sql_delete (Some x) t) as [e'|t1] eqn:E.
  - intros [= <-]. by eapply sql_delete_inl.
  - intros H. destruct (IH _ H) as [-> Hlen]. split; [done|].
    apply sql_delete_sublist, sublist_length in E. lia.
Qed.

(** [DELETE FROM tasks] empties the table, or fails with the table as it
    was; it can only fail on a table of more than 1000 rows. *)
Lemma sql_delete_all_inr (t t' : Table) : sql_delete_all t = inr t' → t' = [].
Proof.
  unfold sql_delete_all. intros [Hsub Hids]%delete_rows_spec.
  destruct t' as [|r t']; [done|]. exfalso. apply (Hids r); [by left|].
  apply elem_of_ids. exists r. split; [|done]. eapply elem_of_sublist; [|done]. by left.
Qed.

Lemma sql_delete_all_inl (t : Table) (e : Exception) :
  sql_delete_all t = inl e → e = TriggerDepth ∧ MAX_TRIGGER_DEPTH < length t.
Proof. apply delete_rows_inl. Qed.

Lemma sql_delete_all_small (t : Table) :
  length t ≤ MAX_TRIGGER_DEPTH → sql_delete_all t = inr [].
Proof.
  intros Hlen. destruct (sql_delete_all t) as [e|t'] eqn:E.
  - apply sql_delete_all_inl in E. lia.
  - by apply sql_delete_all_inr in E as ->.
Qed.

Lemma sql_delete_small (v : option string) (t : Table) :
  length t ≤ MAX_TRIGGER_DEPTH → ∃ t', sql_delete v t = inr t'.
Proof.
  intros Hlen. destruct (sql_delete v t) as [e|t'] eqn:E; [|eauto].
  apply sql_delete_inl in E. lia.
Qed.

Lemma update_where_id_absent (x : string) f (t : Table) :
  x ∉ ids t → update_where_id (Some x) f t = t.
Proof.
  intros Hx. unfold update_where_id.
  induction t as [|r t IH]; [done|]. cbn.
  rewrite IH by (intros H; apply Hx; cbn; by right).
  destruct (decide (where_id (Some x) r)) as [[= ->]|]; [|done].
  exfalso. apply Hx. cbn. by left.
Qed.

Lemma update_where_id_null f (t : Table) : update_where_id None f t = t.
Proof.
  unfold update_where_id. induction t as [|r t IH]; [done|]. cbn. by rewrite IH.
Qed.

Lemma select_by_id_Some (v : option string) (t : Table) (r : TaskRow) :
  select_by_id v t = Some r → r ∈ t ∧ v = Some (id r).
Proof.
  unfold select_by_id. intros H.
  assert (r ∈ filter (where_id v) t) as Hin.
  { destruct (filter _ t); [done|]. cbn in H. injection H as ->. by left. }
  apply list_elem_of_filter in Hin. tauto.
Qed.

Lemma select_by_id_absent (x : string) (t : Table) :
  x ∉ ids t → select_by_id (Some x) t = None.
Proof.
  intros Hx. destruct (select_by_id (Some x) t) as [r|] eqn:E; [|done].
  apply select_by_id_Some in E as [Hin [= ->]].
  exfalso. apply Hx, elem_of_ids. eauto.
Qed.

Lemma ids_update_where_id v f (t : Table) :
  (∀ r, id (f r) = id r) → ids (update_where_id v f t) = ids t.
Proof.
  intros Hf. unfold ids, update_where_id. rewrite <- list_fmap_compose.
  apply list_fmap_ext. intros _ r _. cbn. destruct (decide _); [apply Hf | done].
Qed.

(** ** Completing, creating *)

(** C10: [completeTask(id)] for an [id] that matches no row returns and
    leaves the table as it was: the UPDATE touches no row and the walk, which
    finds no row for [id], stops at once. *)
Theorem completeTask_missing_id (depth : nat) (x : string) (w : World) :
  0 < depth → x ∉ ids (tasks w) →
  ∃ w', completeTask depth (Some x) w = (Returned (), w') ∧ tasks w' = tasks w.
Proof.
  intros Hd Hx. destruct depth as [|depth]; [lia|].
  unfold completeTask. rewrite run_bind, run_exec_now. cbn [sql_update_status].
  rewrite update_where_id_absent by done.
  cbn [autoCompleteParent]. rewrite run_bind. cbn [query].
  rewrite tasks_store. cbn [tasks with_sql_clock].
  rewrite select_by_id_absent by done. cbn.
  eexists. split; [reflexivity|]. apply tasks_store.
Qed.

Lemma completeTask_missing_id_witness :
  0 < 1 ∧ ("01B" ∉ ids (tasks (world_of one_task))) ∧
  ∃ w', completeTask 1 (Some "01B") (world_of one_task) = (Returned (), w') ∧
        tasks w' = tasks (world_of one_task).
Proof.
  assert ("01B" ∉ ids (tasks (world_of one_task))) as H
    by (apply (bool_decide_unpack _); vm_compute; reflexivity).
  split; [lia|]. split; [exact H|].
  apply completeTask_missing_id; [lia | exact H].
Defined.

Lemma run_addTask (new_title : string) (p : option string) (w : World) :
  let new_id := ulid_source w (ulid_calls w) in
  let pos := next_position p (tasks w) in
  let row := new_row new_id new_title p pos (datetime_now w (sql_clock w)) in
  let w1 := with_sql_clock (S (sql_clock w)) (with_ulid_calls (S (ulid_calls w)) w) in
  addTask new_title p w =
  match sql_insert row (tasks w) with
  | inl e => (Thrown e, w1)
  | inr t =>
      (Returned {| task_id := new_id; task_title := new_title; task_status := todo;
                   parentId := p; task_position := pos |},
       store t w1)
  end.
Proof.
  cbn. unfold addTask. rewrite run_bind. cbn [ulid]. rewrite run_bind. cbn [query].
  rewrite run_bind, run_exec_now. cbn [tasks with_ulid_calls datetime_now sql_clock].
  destruct (sql_insert _ _); reflexivity.
Qed.

Lemma sql_insert_inr (r : TaskRow) (t t' : Table) :
  sql_insert r t = inr t' → t' = t ++ [r].
Proof.
  unfold sql_insert. repeat case_match; congruence.
Qed.

Lemma sql_insert_ok (r : TaskRow) (t : Table) :
  id r ∉ ids t →
  (∀ p, parent_id r = Some p → p ∈ ids t ∨ p = id r) →
  sql_insert r t = inr (t ++ [r]).
Proof.
  intros Hid Hp. unfold sql_insert.
  rewrite bool_decide_eq_false_2 by done.
  destruct (fk_ok _ _) eqn:E; [done|]. exfalso.
  unfold fk_ok in E. destruct (parent_id r) as [p|]; [|done].
  apply bool_decide_eq_false_1 in E. apply E.
  unfold ids. rewrite fmap_app. apply elem_of_app.
  destruct (Hp p eq_refl) as [H| ->]; [by left | right; cbn; by left].
Qed.

(** C9: a task is never born done.  Whenever [addTask] returns, directly
    or as the [add] of a batch, it has appended one row whose status is
    [todo] and the task it returns says [todo]; and it does return for a NULL
    or existing parent, [ulid()] giving an id that is not in the table. *)
Theorem addTask_status_todo (new_title : string) (p : option string) (w : World) :
  (∀ task w', addTask new_title p w = (Returned task, w') →
     task_status task = todo ∧
     ∃ row, tasks w' = tasks w ++ [row] ∧ status row = todo ∧
            id row = task_id task ∧ title row = new_title ∧ parent_id row = p) ∧
  (∀ depth idMap op_id idMap' w',
     apply_operation depth idMap (OpAdd op_id new_title p) w = (Returned idMap', w') →
     ∃ row, tasks w' = tasks w ++ [row] ∧ status row = todo ∧ title row = new_title) ∧
  (ulid_source w (ulid_calls w) ∉ ids (tasks w) →
   (∀ x, p = Some x → x ∈ ids (tasks w)) →
   ∃ task w', addTask new_title p w = (Returned task, w') ∧ task_status task = todo).
Proof.
  split; [|split].
  - intros task w'. rewrite run_addTask.
    destruct (sql_insert _ _) as [e|t] eqn:E; [done|].
    intros [= <- <-]. split; [done|].
    apply sql_insert_inr in E. eexists. rewrite tasks_store. split; [exact E|]. done.
  - intros depth idMap op_id idMap' w'. cbn [apply_operation].
    rewrite run_bind, run_addTask.
    destruct (sql_insert _ _) as [e|t] eqn:E; [done|].
    intros [= <- <-]. apply sql_insert_inr in E.
    eexists. rewrite tasks_store. split; [exact E|]. done.
  - intros Hfresh Hp. rewrite run_addTask.
    rewrite sql_insert_ok; [eauto | done |].
    intros x Hx. left. cbn in Hx. by apply Hp.
Qed.

Lemma addTask_status_todo_witness :
  (example_ulids 1 ∉ ids one_task) ∧
  ∃ task w', addTask "child" (Some "01A") (world_of one_task) = (Returned task, w') ∧
             task_status task = todo.
Proof.
  assert (example_ulids 1 ∉ ids one_task) as H
    by (apply (bool_decide_unpack _); vm_compute; reflexivity).
  split; [exact H|].
  apply (addTask_status_todo "child" (Some "01A") (world_of one_task)); [exact H|].
  intros x [= <-]. apply (bool_decide_unpack _); vm_compute; reflexivity.
Defined.

(** ** The undo stack *)

Lemma run_saveSnapshot (w : World) :
  ∃ w', saveSnapshot w = (Returned (), w') ∧
        tasks w' = tasks w ∧ durable w' = durable w ∧
        in_transaction w' = in_transaction w ∧
        undoStack w' =
          (if decide (MAX_UNDO < length (undoStack w ++ [tasks w]))
           then tail (undoStack w ++ [tasks w]) else undoStack w ++ [tasks w]).
Proof.
  unfold saveSnapshot. rewrite run_bind. cbn [query].
  rewrite run_bind. cbn [get_undoStack]. rewrite run_bind. cbn [put_undoStack].
  rewrite run_bind. cbn [get_undoStack undoStack with_undoStack].
  destruct (decide _); eexists; (split; [reflexivity|]); done.
Qed.

Lemma framed_insert_rows (rows : Table) : framed (insert_rows rows).
Proof. induction rows; cbn [insert_rows]; auto with framed. Qed.

Lemma insert_rows_returned (rows : Table) (w w' : World) :
  insert_rows rows w = (Returned (), w') → tasks w' = tasks w ++ rows.
Proof.
  revert w. induction rows as [|r rows IH]; intros w; cbn [insert_rows].
  - intros [= <-]. by rewrite app_nil_r.
  - rewrite run_bind. unfold exec at 1.
    destruct (sql_insert r (tasks w)) as [e|t] eqn:E; [done|].
    intros H. apply IH in H. rewrite tasks_store in H.
    apply sql_insert_inr in E. subst t. by rewrite <- app_assoc in H.
Qed.

(** What a call of [undo] does: nothing on an empty stack; otherwise it pops
    the newest snapshot and either installs it or throws with the table
    rolled back. *)
Lemma run_undo (w : World) :
  match last (undoStack w) with
  | None => undo w = (Returned false, w)
  | Some snapshot =>
      ∃ w', undoStack w' = removelast (undoStack w) ∧
            in_transaction w' = in_transaction w ∧
            ((undo w = (Returned true, w') ∧ tasks w' = snapshot) ∨
             (∃ e, undo w = (Thrown e, w') ∧ tasks w' = tasks w))
  end.
Proof.
  unfold undo. rewrite run_bind. cbn [get_undoStack].
  destruct (last (undoStack w)) as [snapshot|]; [|done].
  rewrite run_bind. cbn [put_undoStack]. rewrite run_bind.
  set (w1 := with_undoStack _ w).
  set (body := exec sql_delete_all ≫= _).
  assert (framed body) as Hb
    by (apply framed_bind; [auto with framed | intros; apply framed_insert_rows]).
  pose proof (framed_transaction body Hb w1) as (H1 & H2 & _).
  unfold transaction in *.
  destruct (body (with_in_transaction true w1)) as [[[]|e] w2] eqn:E; cbn in *.
  - eexists. split; [|split; [|left; split; [reflexivity|]]].
    + unfold store; cbn. destruct (in_transaction w); cbn; exact H1.
    + unfold store; cbn. destruct (in_transaction w); done.
    + rewrite tasks_store. subst body. rewrite run_bind in E. unfold exec in E.
      destruct (sql_delete_all _) as [e|t0] eqn:Hdel; [done|].
      apply sql_delete_all_inr in Hdel as ->.
      apply insert_rows_returned in E. by rewrite tasks_store in E.
  - eexists. split; [|split; [|right; eexists; split; [reflexivity|]]]; done.
Qed.

Lemma undoStack_undo (w : World) : undoStack (undo w).2 = removelast (undoStack w).
Proof.
  pose proof (run_undo w) as H.
  destruct (last (undoStack w)) eqn:E.
  - destruct H as (w2 & H1 & _ & [[-> _]|(e & -> & _)]); done.
  - rewrite H. cbn. apply last_None in E. by rewrite E.
Qed.

Lemma undoStack_undo_times (n : nat) (w : World) :
  undoStack (undo_times n w) = take (length (undoStack w) - n) (undoStack w).
Proof.
  induction n as [|n IH].
  - cbn. rewrite Nat.sub_0_r. by rewrite firstn_all.
  - change (undo_times (S n) w) with (undo (undo_times n w)).2.
    rewrite undoStack_undo, IH. rewrite removelast_firstn_len.
    rewrite take_take. rewrite length_take. f_equal. lia.
Qed.

Lemma length_tail {A : Type} (l : list A) : length (tail l) = length l - 1.
Proof. destruct l; cbn; lia. Qed.

(** [saveSnapshot] keeps the bound; on a full stack it drops the oldest
    entry and appends the current table; and whatever number of [undo] calls
    follow, the snapshots they restore are the entries of that new stack,
    newest first. *)
Lemma saveSnapshot_bounded (w : World) :
  length (undoStack w) ≤ MAX_UNDO →
  ∃ w', saveSnapshot w = (Returned (), w') ∧
    length (undoStack w') ≤ MAX_UNDO ∧
    (length (undoStack w) < MAX_UNDO → undoStack w' = undoStack w ++ [tasks w]) ∧
    (length (undoStack w) = MAX_UNDO →
       undoStack w' = tail (undoStack w) ++ [tasks w] ∧
       ∀ n : nat,
         length (undoStack (undo_times n w')) ≤ MAX_UNDO ∧
         undoStack (undo_times n w') =
           take (MAX_UNDO - n) (tail (undoStack w) ++ [tasks w]) ∧
         ∀ w'', undo (undo_times n w') = (Returned true, w'') →
                Some (tasks w'') =
                  last (take (MAX_UNDO - n) (tail (undoStack w) ++ [tasks w]))).
Proof.
  intros Hlen. destruct (run_saveSnapshot w) as (w' & Hrun & _ & _ & _ & Hstack).
  exists w'. split; [exact Hrun|].
  rewrite length_app in Hstack. cbn [length] in Hstack.
  assert (tail (undoStack w ++ [tasks w]) = tail (undoStack w) ++ [tasks w] ∨
          undoStack w = []) as Htail.
  { destruct (undoStack w); [by right | by left]. }
  split; [|split].
  - rewrite Hstack. destruct (decide _).
    + rewrite length_tail, length_app. cbn. lia.
    + rewrite length_app. cbn. lia.
  - intros Hlt. rewrite Hstack. destruct (decide _); [lia | done].
  - intros Hfull.
    assert (undoStack w' = tail (undoStack w) ++ [tasks w]) as Hw'.
    { rewrite Hstack. destruct (decide _); [|lia].
      destruct Htail as [->|Hnil]; [done|]. rewrite Hnil in Hfull. done. }
    split; [exact Hw'|]. intros n.
    assert (length (undoStack w') = MAX_UNDO) as Hlen'.
    { rewrite Hw', length_app, length_tail. unfold MAX_UNDO in *. cbn. lia. }
    pose proof (undoStack_undo_times n w') as Hn. rewrite Hlen', Hw' in Hn.
    split; [|split; [exact Hn|]].
    + rewrite Hn, length_take. lia.
    + intros w'' Hundo. pose proof (run_undo (undo_times n w')) as H.
      rewrite <- Hn.
      destruct (last (undoStack (undo_times n w'))) as [snapshot|].
      * destruct H as (w2 & _ & _ & [[H1 H2]|(e & H1 & _)]); congruence.
      * congruence.
Qed.

Lemma reachable_bounded (w : World) : reachable w → length (undoStack w) ≤ MAX_UNDO.
Proof.
  induction 1 as [w Hw|w _ IH|w _ IH|A m w Hm _ IH].
  - rewrite Hw. cbn. lia.
  - destruct (saveSnapshot_bounded w IH) as (w' & -> & Hlen & _). exact Hlen.
  - rewrite undoStack_undo.
    destruct (undoStack w) as [|s stack] using rev_ind; [cbn; lia|].
    rewrite removelast_last. rewrite length_app in IH. cbn in IH. lia.
  - destruct (Hm w) as [-> _]. exact IH.
Qed.

(** C8: the undo stack never holds more than [MAX_UNDO] = 50 snapshots, in
    any world the process can reach.  There [saveSnapshot] on a full stack
    drops the oldest entry and appends the current table; and whatever number
    of [undo] calls follow, the stack stays within the bound and the
    snapshots they restore are the entries of that new stack, newest first,
    so the dropped entry is out of reach. *)
Theorem undo_stack_bounded (w : World) :
  reachable w →
  length (undoStack w) ≤ MAX_UNDO ∧
  ∃ w', saveSnapshot w = (Returned (), w') ∧
    length (undoStack w') ≤ MAX_UNDO ∧
    (length (undoStack w) < MAX_UNDO → undoStack w' = undoStack w ++ [tasks w]) ∧
    (length (undoStack w) = MAX_UNDO →
       undoStack w' = tail (undoStack w) ++ [tasks w] ∧
       ∀ n : nat,
         length (undoStack (undo_times n w')) ≤ MAX_UNDO ∧
         undoStack (undo_times n w') =
           take (MAX_UNDO - n) (tail (undoStack w) ++ [tasks w]) ∧
         ∀ w'', undo (undo_times n w') = (Returned true, w'') →
                Some (tasks w'') =
                  last (take (MAX_UNDO - n) (tail (undoStack w) ++ [tasks w]))).
Proof.
  intros Hw. pose proof (reachable_bounded w Hw) as Hlen.
  split; [exact Hlen | by apply saveSnapshot_bounded].
Qed.

Lemma undo_stack_bounded_witness :
  (reachable full_stack ∧ length (undoStack full_stack) = MAX_UNDO ∧
   head (undoStack full_stack) = Some []) ∧
  ∃ w', saveSnapshot full_stack = (Returned (), w') ∧
        length (undoStack w') ≤ MAX_UNDO ∧
        undoStack w' = tail (undoStack full_stack) ++ [tasks full_stack] ∧
        ([] ∉ undoStack w') ∧
        ∀ n w'', undo (undo_times n w') = (Returned true, w'') → tasks w'' ≠ [].
Proof.
  assert (reachable full_stack) as H.
  { unfold full_stack. generalize 49. intros n. induction n as [|n IH].
    - cbn [Nat.iter nat_rect]. apply reachable_call; [apply framed_addTask|].
      apply reachable_saveSnapshot. by apply reachable_start.
    - cbn [Nat.iter nat_rect]. by apply reachable_saveSnapshot. }
  assert (length (undoStack full_stack) = MAX_UNDO) as Hfull by (vm_compute; reflexivity).
  split; [split_and!; [exact H | exact Hfull | vm_compute; reflexivity]|].
  destruct (undo_stack_bounded full_stack H) as (_ & w' & Hrun & Hlen & _ & Hevict).
  destruct (Hevict Hfull) as (Hstack & Hundo).
  assert ([] ∉ tail (undoStack full_stack) ++ [tasks full_stack]) as Hgone
    by (apply (bool_decide_unpack _); vm_compute; reflexivity).
  exists w'. split_and!; [exact Hrun | exact Hlen | exact Hstack | by rewrite Hstack|].
  intros n w'' Hn Hempty. destruct (Hundo n) as (_ & _ & Hlast).
  specialize (Hlast w'' Hn). rewrite Hempty in Hlast. symmetry in Hlast.
  apply last_Some_elem_of in Hlast. apply Hgone.
  eapply elem_of_sublist; [exact Hlast|]. apply sublist_take.
Defined.

(** ** Deleting *)

Lemma run_deleteTask (v : option string) (w : World) :
  deleteTask v w = match sql_delete v (tasks w) with
                   | inl e => (Thrown e, w)
                   | inr t' => (Returned (), store t' w)
                   end.
Proof. done. Qed.

(** C5: [deleteTask] changes no field of any surviving row: the table it
    leaves is the old one with rows taken out, each remaining row being a row
    of the old table, status included.  No propagation runs.  The call
    returns, unless SQLite refuses the cascade as too deep, which leaves the
    world as it was and cannot happen in a table of at most 1000 rows. *)
Theorem deleteTask_changes_no_survivor (v : option string) (w : World) :
  ∃ o w', deleteTask v w = (o, w') ∧
          (o = Returned () ∨ (o = Thrown TriggerDepth ∧ w' = w)) ∧
          (length (tasks w) ≤ MAX_TRIGGER_DEPTH → o = Returned ()) ∧
          tasks w' `sublist_of` tasks w ∧
          ∀ r, r ∈ tasks w' → r ∈ tasks w.
Proof.
  rewrite run_deleteTask. destruct (sql_delete v (tasks w)) as [e|t'] eqn:E.
  - apply sql_delete_inl in E as [-> Hlen].
    exists (Thrown TriggerDepth), w. split_and!; [done|by right|lia|done|done].
  - pose proof (sql_delete_sublist _ _ _ E) as Hsub.
    exists (Returned ()), (store t' w). rewrite tasks_store.
    split_and!; [done|by left|done|done|]. intros r Hr. by eapply elem_of_sublist.
Qed.

Lemma deleteTask_changes_no_survivor_witness :
  length (tasks (world_of parent_of_two)) ≤ MAX_TRIGGER_DEPTH ∧
  ∃ w', deleteTask (Some "01C") (world_of parent_of_two) = (Returned (), w') ∧
        tasks w' `sublist_of` tasks (world_of parent_of_two).
Proof.
  assert (length (tasks (world_of parent_of_two)) ≤ MAX_TRIGGER_DEPTH) as H
    by (vm_compute; lia).
  split; [exact H|].
  destruct (deleteTask_changes_no_survivor (Some "01C") (world_of parent_of_two))
    as (o & w' & Hrun & _ & Hret & Hsub & _).
  exists w'. rewrite (Hret H) in Hrun. split; [exact Hrun | exact Hsub].
Defined.

Lemma cascade_nil (rounds : nat) (t : Table) : cascade rounds [] t = t.
Proof.
  assert (∀ t : Table, filter (λ r, ¬ references [] r) t = t) as Hkeep.
  { intros t0. induction t0 as [|r t0 IH]; [done|].
    rewrite filter_cons_True, IH; [done|].
    intros (p & _ & Hp). by apply not_elem_of_nil in Hp. }
  assert (∀ t : Table, filter (references []) t = []) as Hnone.
  { intros t0. induction t0 as [|r t0 IH]; [done|].
    rewrite filter_cons_False, IH; [done|].
    intros (p & _ & Hp). by apply not_elem_of_nil in Hp. }
  revert t. induction rounds as [|rounds IH]; intros t; cbn; [done|].
  rewrite Hnone, Hkeep. cbn. apply IH.
Qed.

Lemma same_id_same_row (t : Table) (r r' : TaskRow) :
  NoDup (ids t) → r ∈ t → r' ∈ t → id r = id r' → r = r'.
Proof.
  unfold ids. induction t as [|r0 t IH]; cbn; intros Hnd Hr Hr' Hid.
  - by apply not_elem_of_nil in Hr.
  - apply NoDup_cons in Hnd as [Hnotin Hnd].
    apply elem_of_cons in Hr as [->|Hr]; apply elem_of_cons in Hr' as [->|Hr']; auto.
    + exfalso. apply Hnotin. rewrite Hid. by apply list_elem_of_fmap_2.
    + exfalso. apply Hnotin. rewrite <- Hid. by apply list_elem_of_fmap_2.
Qed.

Lemma descendant_has_row (t : Table) (a x : string) :
  descendant t a x → ∃ r, r ∈ t ∧ id r = x.
Proof. intros [? (r & ? & ? & ?)|? ? (r & ? & ? & ?) _]; eauto. Qed.

Section cascade.
(** Deleting the rows with id [x] from the table [t]. *)
Variables (t : Table) (x : string).
Hypothesis unique_ids : NoDup (ids t).
Hypothesis x_exists : x ∈ ids t.

Let doomed (r : TaskRow) : Prop := id r = x ∨ descendant t x (id r).

(** A table from which only doomed rows are missing and in which no row
    references a missing one holds exactly the rows that are not doomed. *)
Lemma closed_table_spec (res : Table) :
  (∀ r, r ∈ res → r ∈ t) →
  (∀ r, r ∈ t → r ∉ res → doomed r) →
  (∀ r, r ∈ t → id r = x → r ∉ res) →
  (∀ r p r', r ∈ res → parent_id r = Some p → r' ∈ t → r' ∉ res → id r' ≠ p) →
  ∀ r, r ∈ res ↔ r ∈ t ∧ id r ≠ x ∧ ¬ descendant t x (id r).
Proof using unique_ids x_exists.
  intros Hsub Hgone Hx Hclosed.
  assert (∀ y, descendant t x y → ∀ r, r ∈ res → id r ≠ y) as Hdesc.
  { intros y Hy. induction Hy as [y (r0 & Hr0 & Hid0 & Hp0)
                                |p y (r0 & Hr0 & Hid0 & Hp0) Hp IH];
      intros r Hr Hid.
    - assert (r0 = r) as -> by (eapply same_id_same_row; eauto; congruence).
      apply elem_of_ids in x_exists as (rx & Hrx & Hidx).
      eapply (Hclosed r x rx); eauto.
    - assert (r0 = r) as -> by (eapply same_id_same_row; eauto; congruence).
      destruct (descendant_has_row _ _ _ Hp) as (r1 & Hr1 & Hid1).
      destruct (decide (r1 ∈ res)) as [Hin|Hout].
      + by apply (IH r1).
      + eapply (Hclosed r p r1); eauto. }
  intros r. split.
  - intros Hr. split; [auto|]. split.
    + intros Hid. by apply (Hx r); auto.
    + intros Hd. by apply (Hdesc _ Hd r).
  - intros (Hr & Hid & Hd). destruct (decide (r ∈ res)) as [|Hout]; [done|].
    destruct (Hgone r Hr Hout); done.
Qed.

(** The invariant of the rounds: the rows [cur] still there, the ids
    [deleted] of the rows the last round took out. *)
Lemma cascade_settles (rounds : nat) (deleted : list string) (cur : Table) :
  length cur ≤ rounds →
  (∀ r, r ∈ cur → r ∈ t) →
  (∀ r, r ∈ t → r ∉ cur → doomed r) →
  (∀ r, r ∈ t → id r = x → r ∉ cur) →
  (∀ d, d ∈ deleted → d = x ∨ descendant t x d) →
  (∀ r p r', r ∈ cur → parent_id r = Some p → r' ∈ t → r' ∉ cur → id r' = p →
             p ∈ deleted) →
  ∀ r, r ∈ cascade rounds deleted cur ↔ r ∈ t ∧ id r ≠ x ∧ ¬ descendant t x (id r).
Proof using unique_ids x_exists.
  revert deleted cur. induction rounds as [|rounds IH];
    intros deleted cur Hlen Hsub Hgone Hx Hdel Hpending.
  - destruct cur; [|cbn in Hlen; lia]. cbn.
    apply closed_table_spec; auto. intros r p r' Hr. by apply not_elem_of_nil in Hr.
  - cbn [cascade].
    destruct (filter (references deleted) cur) as [|r0 orphans] eqn:Horph.
    + assert (filter (λ r, ¬ references deleted r) cur = cur) as ->.
      { clear -Horph. induction cur as [|r cur IH]; [done|].
        destruct (decide (references deleted r)) as [Hr|Hr].
        - rewrite filter_cons_True in Horph by done. done.
        - rewrite filter_cons_False in Horph by done.
          rewrite filter_cons_True by done. by rewrite IH. }
      cbn. rewrite cascade_nil.
      apply closed_table_spec; auto.
      intros r p r' Hr Hp Hr' Hout Hid.
      eapply (filter_nil_not_elem_of _ _ r Horph); [|done].
      exists p. split; [done|]. eapply Hpending; eauto.
    + rewrite <- Horph. apply IH.
      * assert (r0 ∈ filter (references deleted) cur) as Hr0
          by (rewrite Horph; by left).
        apply list_elem_of_filter in Hr0 as [Href Hin].
        pose proof (length_filter_lt (λ r, ¬ references deleted r) cur r0 Hin
                      (λ H, H Href)) as Hlt.
        lia.
      * intros r Hr. apply list_elem_of_filter in Hr as [_ Hr]. auto.
      * intros r Hr Hout. destruct (decide (r ∈ cur)) as [Hin|]; [|auto].
        right. destruct (decide (references deleted r)) as [(p & Hp & Hd)|Hno].
        -- destruct (Hdel p Hd) as [->|Hdp].
           ++ apply descendant_child. by exists r.
           ++ eapply descendant_step; [|exact Hdp]. by exists r.
        -- exfalso. apply Hout. by apply list_elem_of_filter.
      * intros r Hr Hid Hin. apply list_elem_of_filter in Hin as [_ Hin].
        by apply (Hx r).
      * intros d Hd. apply elem_of_ids in Hd as (r & Hr & <-).
        apply list_elem_of_filter in Hr as [(p & Hp & Hpd) Hin].
        right. destruct (Hdel p Hpd) as [->|Hdp].
        -- apply descendant_child. exists r. auto.
        -- eapply descendant_step; [|exact Hdp]. exists r. auto.
      * intros r p r' Hr Hp Hr' Hout Hid.
        apply list_elem_of_filter in Hr as [Hnoref Hr].
        destruct (decide (r' ∈ cur)) as [Hin|Hnotin].
        -- apply elem_of_ids. exists r'. split; [|done].
           apply list_elem_of_filter. split; [|done].
           destruct (decide (references deleted r')) as [|Hno]; [done|].
           exfalso. apply Hout. by apply list_elem_of_filter.
        -- exfalso. apply Hnoref. exists p. split; [done|].
           eapply Hpending; eauto.
Qed.

Lemma sql_delete_spec (t' : Table) :
  sql_delete (Some x) t = inr t' →
  ∀ r, r ∈ t' ↔ r ∈ t ∧ id r ≠ x ∧ ¬ descendant t x (id r).
Proof using unique_ids x_exists.
  destruct (sql_delete_cases (Some x) t) as [[Hnone _]|[(_ & _ & ->)|(_ & _ & ->)]];
    [| |done].
  { exfalso. apply elem_of_ids in x_exists as (r & Hr & Hid).
    eapply (filter_nil_not_elem_of _ _ r Hnone); [|done].
    unfold where_id. by rewrite Hid. }
  intros [= <-].
  apply cascade_settles.
  - etrans; [apply length_filter | done].
  - intros r Hr. by apply list_elem_of_filter in Hr as [_ ?].
  - intros r Hr Hout. left. destruct (decide (id r = x)) as [|Hne]; [done|].
    exfalso. apply Hout. apply list_elem_of_filter. split; [|done].
    unfold where_id. congruence.
  - intros r Hr Hid Hin. apply list_elem_of_filter in Hin as [Hne _].
    apply Hne. unfold where_id. by rewrite Hid.
  - intros d Hd. apply elem_of_ids in Hd as (r & Hr & <-).
    apply list_elem_of_filter in Hr as [[= ->] _]. by left.
  - intros r p r' Hr Hp Hr' Hout Hid. subst p.
    apply elem_of_ids. exists r'. split; [|done].
    apply list_elem_of_filter. split; [|done].
    destruct (decide (where_id (Some x) r')) as [|Hno]; [done|].
    exfalso. apply Hout. by apply list_elem_of_filter.
Qed.
End cascade.

Lemma descendant_sub (t t' : Table) (a x : string) :
  (∀ r, r ∈ t' → r ∈ t) → descendant t' a x → descendant t a x.
Proof.
  intros Hsub H. induction H as [x (r & ? & ? & ?)|p x (r & ? & ? & ?) _ IH].
  - apply descendant_child. exists r. auto.
  - eapply descendant_step; [|exact IH]. exists r. auto.
Qed.

(** Every level of the cascade is one parent link further below [x]. *)
Lemma cascade_depth_steps (t : Table) (x : string) (rounds k : nat)
    (deleted : list string) (cur : Table) (m : nat) :
  (∀ r, r ∈ cur → r ∈ t) →
  (∀ d, d ∈ deleted → steps t x k d) →
  m < cascade_depth rounds deleted cur →
  ∃ y, steps t x (k + S m) y.
Proof.
  revert k deleted cur m. induction rounds as [|rounds IH];
    intros k deleted cur m Hsub Hdel; cbn [cascade_depth]; [lia|].
  destruct (filter (references deleted) cur) as [|r0 gone] eqn:Hgone; [lia|].
  assert (∀ d, d ∈ ids (r0 :: gone) → steps t x (S k) d) as Hnext.
  { intros d (r & Hr & <-)%elem_of_ids. rewrite <- Hgone in Hr.
    apply list_elem_of_filter in Hr as [(p & Hp & Hin) Hr].
    eapply steps_down; [by apply Hdel|]. exists r. split_and!; [by apply Hsub|done..]. }
  intros Hm. destruct m as [|m].
  - exists (id r0). replace (k + 1) with (S k) by lia. apply Hnext. cbn. by left.
  - destruct (IH (S k) (ids (r0 :: gone)) (filter (λ r, ¬ references deleted r) cur) m)
      as [y Hy]; [|done|lia|].
    + intros r [_ Hr]%list_elem_of_filter. by apply Hsub.
    + exists y. by replace (k + S (S m)) with (S k + S m) by lia.
Qed.

(** [DELETE ... WHERE id = x] succeeds when no chain of 1000 parent links
    leads down from [x]. *)
Lemma sql_delete_shallow (t : Table) (x : string) :
  (∀ n y, steps t x n y → n < MAX_TRIGGER_DEPTH) →
  ∃ t', sql_delete (Some x) t = inr t'.
Proof.
  intros Hshallow.
  destruct (sql_delete_cases (Some x) t) as [[_ ->]|[(_ & _ & ->)|(_ & Hdeep & _)]];
    [eauto..|].
  exfalso.
  destruct (cascade_depth_steps t x (length t) 0 (ids (filter (where_id (Some x)) t))
              (filter (λ r, ¬ where_id (Some x) r) t) (MAX_TRIGGER_DEPTH - 1))
    as [y Hy].
  - by intros r [_ Hr]%list_elem_of_filter.
  - intros d (r & [[= ->] _]%list_elem_of_filter & <-)%elem_of_ids. apply steps_here.
  - unfold MAX_TRIGGER_DEPTH in *. lia.
  - apply Hshallow in Hy. unfold MAX_TRIGGER_DEPTH in *. lia.
Qed.

(** X26: the cascade, where SQLite carries it out.  In a table with unique
    ids, for a task [T] of the table below which no chain of 1000 parent
    links leads down, [deleteTask(T.id)] returns; the rows that remain are
    exactly the rows that are neither [T] nor a descendant of [T], in their
    former order and unchanged, and none of them has [T] among its
    ancestors. *)
Theorem deleteTask_cascade_shallow (w : World) (T : TaskRow) :
  NoDup (ids (tasks w)) → T ∈ tasks w →
  (∀ n y, steps (tasks w) (id T) n y → n < MAX_TRIGGER_DEPTH) →
  ∃ w', deleteTask (Some (id T)) w = (Returned (), w') ∧
    (∀ r, r ∈ tasks w' ↔
          r ∈ tasks w ∧ id r ≠ id T ∧ ¬ descendant (tasks w) (id T) (id r)) ∧
    (∀ r, r ∈ tasks w' → id r ≠ id T ∧ ¬ descendant (tasks w') (id T) (id r)) ∧
    tasks w' `sublist_of` tasks w.
Proof.
  intros Hnd HT Hshallow. rewrite run_deleteTask.
  destruct (sql_delete_shallow _ _ Hshallow) as [t' Ht']. rewrite Ht'.
  eexists. split; [reflexivity|]. rewrite tasks_store.
  assert (id T ∈ ids (tasks w)) as Hx by (apply elem_of_ids; eauto).
  pose proof (sql_delete_spec (tasks w) (id T) Hnd Hx t' Ht') as Hspec.
  split; [exact Hspec|]. split; [|by eapply sql_delete_sublist].
  intros r Hr. apply Hspec in Hr as (Hr & Hid & Hd). split; [done|].
  intros Hd'. apply Hd. eapply descendant_sub; [|exact Hd'].
  intros r' Hr'. apply Hspec in Hr' as [? _]. done.
Qed.

Lemma deleteTask_cascade_shallow_witness :
  (NoDup (ids (tasks (world_of chain_and_root))) ∧
   example_row "01B" todo (Some "01A") 0 ∈ tasks (world_of chain_and_root) ∧
   (∀ n y, steps (tasks (world_of chain_and_root)) "01B" n y → n < MAX_TRIGGER_DEPTH)) ∧
  ∃ w', deleteTask (Some "01B") (world_of chain_and_root) = (Returned (), w') ∧
        (∀ r, r ∈ tasks w' ↔
              r ∈ tasks (world_of chain_and_root) ∧ id r ≠ "01B" ∧
              ¬ descendant (tasks (world_of chain_and_root)) "01B" (id r)) ∧
        tasks w' = [example_row "01A" todo None 0; example_row "01D" todo None 1].
Proof.
  assert (NoDup (ids (tasks (world_of chain_and_root)))) as H1
    by (apply (bool_decide_unpack _); vm_compute; reflexivity).
  assert (example_row "01B" todo (Some "01A") 0 ∈ tasks (world_of chain_and_root)) as H2
    by (apply (bool_decide_unpack _); vm_compute; reflexivity).
  assert (∀ n y, steps (tasks (world_of chain_and_root)) "01B" n y →
                 n < MAX_TRIGGER_DEPTH) as H3.
  { assert (∀ n y, steps (tasks (world_of chain_and_root)) "01B" n y →
                   (n = 0 ∧ y = "01B") ∨ (n = 1 ∧ y = "01C")) as Hsteps.
    { intros n y H. induction H as [|n p y _ IH (r & Hr & Hid & Hp)]; [by left|]. right.
      cbn in Hr. repeat (apply elem_of_cons in Hr as [->|Hr]);
        [..|by apply not_elem_of_nil in Hr]; cbn in Hid, Hp; subst y;
        destruct IH as [[-> ->]|[-> ->]]; done. }
    intros n y [[-> _]|[-> _]]%Hsteps; unfold MAX_TRIGGER_DEPTH; lia. }
  split; [done|].
  destruct (deleteTask_cascade_shallow (world_of chain_and_root)
              (example_row "01B" todo (Some "01A") 0) H1 H2 H3)
    as (w' & Hrun & Hrows & _ & _).
  exists w'. split_and!; [exact Hrun | exact Hrows|].
  change (id (example_row "01B" todo (Some "01A") 0)) with "01B" in Hrun.
  replace w' with (deleteTask (Some "01B") (world_of chain_and_root)).2
    by (by rewrite Hrun).
  vm_compute. reflexivity.
Defined.

(** The asymmetry of C5 on an example: deleting the only child still to do
    leaves the parent [todo] although its remaining child is done. *)
Example delete_does_not_propagate :
  tasks (deleteTask (Some "01C") (world_of parent_of_two)).2 =
  [example_row "01A" todo None 0; example_row "01B" done (Some "01A") 0].
Proof. vm_compute. reflexivity. Qed.

(** ** The parent relation *)

Lemma is_parent_has_row (t : Table) (p x : string) : is_parent t p x → x ∈ ids t.
Proof. intros (r & ? & ? & ?). apply elem_of_ids. eauto. Qed.

Lemma descendant_up (t : Table) (p x v : string) :
  descendant t x v → is_parent t p x → descendant t p v.
Proof.
  intros H Hp. induction H as [v Hv|q v Hq _ IH].
  - eapply descendant_step; [exact Hv|]. by apply descendant_child.
  - eapply descendant_step; [exact Hq | exact IH].
Qed.

Lemma Acc_descendant (t : Table) (x : string) :
  Acc (is_parent t) x → Acc (descendant t) x.
Proof.
  induction 1 as [x _ IH]. constructor. intros a Ha.
  inversion Ha as [? Hx|p ? Hp Hd]; subst.
  - by apply IH.
  - eapply Acc_inv; [apply (IH p Hp) | exact Hd].
Qed.

Lemma Acc_not_descendant (t : Table) (x : string) :
  Acc (is_parent t) x → ¬ descendant t x x.
Proof.
  intros H%Acc_descendant. induction H as [x _ IH]. intros Hx. by apply (IH x).
Qed.

(** A table all of whose upward walks end is acyclic ... *)
Lemma grounded_acyclic (t : Table) : (∀ x, Acc (is_parent t) x) → acyclic t.
Proof. intros H x. apply Acc_not_descendant, H. Qed.

(** ... and conversely: a walk that never ends would visit more tasks than
    there are rows, so it would visit one twice. *)
Lemma acyclic_climb (t : Table) (k : nat) (visited : list string) (x : string) :
  acyclic t →
  NoDup visited →
  (∀ v, v ∈ visited → v ∈ ids t) →
  (∀ v, v ∈ visited → descendant t x v) →
  length (ids t) ≤ k + length visited →
  Acc (is_parent t) x.
Proof.
  intros Hacyclic. revert visited x.
  induction k as [|k IH]; intros visited x Hnd Hin Hbelow Hlen;
    constructor; intros p Hp.
  all: assert (x ∉ visited) as Hfresh by (intros Hx; by apply (Hacyclic x), Hbelow).
  all: assert (NoDup (x :: visited)) as Hnd' by (by apply NoDup_cons).
  all: assert (∀ v, v ∈ x :: visited → v ∈ ids t) as Hin'
    by (intros v [->|Hv]%elem_of_cons; eauto using is_parent_has_row).
  all: pose proof (submseteq_length _ _ (NoDup_submseteq _ _ Hnd' Hin')) as Hle;
    cbn in Hle.
  - lia.
  - apply (IH (x :: visited)); auto.
    + intros v [->|Hv]%elem_of_cons.
      * by apply descendant_child.
      * eapply descendant_up; eauto.
    + cbn. lia.
Qed.

Lemma acyclic_grounded (t : Table) : acyclic t → ∀ x, Acc (is_parent t) x.
Proof.
  intros H x. apply (acyclic_climb t (length (ids t)) [] x H).
  - constructor.
  - intros v Hv. by apply not_elem_of_nil in Hv.
  - intros v Hv. by apply not_elem_of_nil in Hv.
  - cbn. lia.
Qed.

Lemma climbs_Acc (n : nat) (t : Table) (x : string) :
  climbs n t x = true → Acc (is_parent t) x.
Proof.
  revert x. induction n as [|n IH]; intros x; cbn [climbs]; [done|].
  intros H. constructor. intros p (r & Hr & Hid & Hp).
  rewrite forallb_forall in H. apply list_elem_of_In in Hr.
  specialize (H r Hr). cbn in H. rewrite decide_True in H by done.
  rewrite Hp in H. by apply IH.
Qed.

Lemma acyclicb_sound (t : Table) : acyclicb t = true → acyclic t.
Proof.
  unfold acyclicb. rewrite forallb_forall. intros H.
  apply grounded_acyclic. intros x. constructor. intros p Hp.
  pose proof Hp as (r & Hr & Hid & _). apply list_elem_of_In in Hr.
  pose proof (climbs_Acc _ _ _ (H r Hr)) as Hacc. rewrite Hid in Hacc.
  by apply (Acc_inv Hacc).
Qed.


Lemma chain_name_inj (j k : nat) : chain_name j = chain_name k → j = k.
Proof. unfold chain_name. cbn. intros [= H]. by apply (inj pretty). Qed.

Lemma chain_of_parent (n : nat) (p x : string) :
  is_parent (chain_of n) p x → ∃ k, p = chain_name k ∧ x = chain_name (S k).
Proof.
  intros (r & Hr & Hid & Hp). unfold chain_of in Hr.
  apply list_elem_of_fmap in Hr as (k & -> & _).
  destruct k as [|k]; [done|]. cbn in Hid, Hp. exists k. split; congruence.
Qed.

Lemma chain_of_acyclic (n : nat) : acyclic (chain_of n).
Proof.
  assert (∀ a x, descendant (chain_of n) a x →
                 ∃ j k, a = chain_name j ∧ x = chain_name k ∧ j < k) as Hdown.
  { intros a x H. induction H as [x (k & -> & ->)%chain_of_parent
                                 |p x (k & -> & ->)%chain_of_parent _ (j & k' & -> & Hk & Hlt)].
    - exists k, (S k). split_and!; [done..|lia].
    - apply chain_name_inj in Hk as ->. exists j, (S k'). split_and!; [done..|lia]. }
  intros x (j & k & Hj & Hk & Hlt)%Hdown. rewrite Hj in Hk.
  apply chain_name_inj in Hk. lia.
Qed.

(** C4: [deleteTask] leaves the removal of the descendants to [ON DELETE
    CASCADE], and SQLite gives up a cascade that is 1000 levels deep.  In the
    chain of 1001 tasks, a table with unique ids, no dangling parent and no
    cycle, [deleteTask] of the top task throws and removes nothing: the top
    task and its 1000 descendants are all still there. *)
Theorem deleteTask_refuses_deep_cascade :
  NoDup (ids deep_chain) ∧
  acyclic deep_chain ∧
  chain_row 0 ∈ deep_chain ∧
  (∀ k, 0 < k ≤ 1000 → chain_row k ∈ deep_chain ∧
                       descendant deep_chain (chain_name 0) (chain_name k)) ∧
  deleteTask (Some (chain_name 0)) (world_of deep_chain)
  = (Thrown TriggerDepth, world_of deep_chain).
Proof.
  assert (∀ k, k ≤ 1000 → chain_row k ∈ deep_chain) as Hrow.
  { intros k Hk. unfold deep_chain, chain_of. apply list_elem_of_fmap_2.
    apply elem_of_seq. lia. }
  split_and!.
  - apply (bool_decide_unpack _). vm_compute. reflexivity.
  - apply chain_of_acyclic.
  - apply Hrow. lia.
  - intros k [Hpos Hk]. split; [by apply Hrow|].
    destruct k as [|k]; [lia|]. clear Hpos. induction k as [|k IH].
    + apply descendant_child. exists (chain_row 1). split_and!; [apply Hrow; lia|done..].
    + eapply descendant_step; [|apply IH; lia].
      exists (chain_row (S (S k))). split_and!; [by apply Hrow|done..].
  - rewrite run_deleteTask.
    assert (sql_delete (Some (chain_name 0)) (tasks (world_of deep_chain))
            = inl TriggerDepth) as -> by (vm_compute; reflexivity).
    done.
Qed.

(** A chain of 1000 tasks is within the limit: the top task and its 999
    descendants go. *)
Example deleteTask_chain_of_1000 :
  ∃ w', deleteTask (Some (chain_name 0)) (world_of (chain_of 1000)) = (Returned (), w') ∧
        tasks w' = [].
Proof. eexists. split; vm_compute; reflexivity. Qed.

(** ** Moving *)

Lemma run_moveTask (v B : option string) (w : World) :
  moveTask v B w =
  match sql_update_parent v B (next_position B (tasks w))
                          (datetime_now w (sql_clock w)) (tasks w) with
  | inl e => (Thrown e, with_sql_clock (S (sql_clock w)) w)
  | inr t => (Returned (), store t (with_sql_clock (S (sql_clock w)) w))
  end.
Proof. unfold moveTask. rewrite run_bind. cbn [query]. by rewrite run_exec_now. Qed.

Lemma sql_update_parent_ok (A : string) (B : option string) pos now (t : Table) :
  (∀ b, B = Some b → b ∈ ids t) →
  sql_update_parent (Some A) B pos now t
  = inr (update_where_id (Some A) (set_parent B pos now) t).
Proof.
  intros HB. unfold sql_update_parent.
  assert (fk_ok B t = true) as ->; [|by rewrite andb_false_r].
  destruct B as [b|]; [|done]. cbn. apply bool_decide_eq_true_2. by apply HB.
Qed.

(** The parent relation after [UPDATE tasks SET parent_id = B ... WHERE id = A]. *)
Lemma is_parent_moved (A : string) (B : option string) pos now (t : Table) (p y : string) :
  is_parent (update_where_id (Some A) (set_parent B pos now) t) p y ↔
  (y ≠ A ∧ is_parent t p y) ∨ (y = A ∧ A ∈ ids t ∧ B = Some p).
Proof.
  unfold is_parent, update_where_id. split.
  - intros (r' & Hr' & Hid & Hp). apply list_elem_of_fmap in Hr' as (r & -> & Hr).
    destruct (decide (where_id (Some A) r)) as [[= ->]|Hne]; cbn in *.
    + right. subst y. split; [done|]. split; [|done]. apply elem_of_ids. eauto.
    + left. split; [|eauto]. intros ->. apply Hne. unfold where_id. by rewrite Hid.
  - intros [[Hne (r & Hr & Hid & Hp)]|(-> & HA & ->)].
    + exists r. split; [|done]. apply list_elem_of_fmap. exists r. split; [|done].
      rewrite decide_False; [done|]. unfold where_id. intros [= ->]. done.
    + apply elem_of_ids in HA as (r & Hr & Hid).
      exists (set_parent (Some p) pos now r). split; [|done].
      apply list_elem_of_fmap. exists r. split; [|done].
      rewrite decide_True; [done|]. unfold where_id. by rewrite Hid.
Qed.

(** What [UPDATE tasks SET parent_id = B, position = pos ... WHERE id = A]
    does to each row. *)
Lemma update_parent_moved (A : string) (B : option string) pos now (t : Table) :
  Forall2 (moved A B pos) t (update_where_id (Some A) (set_parent B pos now) t).
Proof.
  unfold update_where_id. apply Forall2_fmap_r, Forall_Forall2_diag, Forall_forall.
  intros r _. cbn. unfold moved, where_id.
  destruct (decide (Some A = Some (id r))) as [[= ->]|Hne].
  - rewrite decide_True by done. done.
  - rewrite decide_False by congruence. done.
Qed.

Section move.
(** Making [B] the parent of the existing task [A] in an acyclic table. *)
Variables (t : Table) (A : string) (B : option string) (pos : Z) (now : string).
Hypothesis t_acyclic : acyclic t.
Hypothesis A_exists : A ∈ ids t.

Let t' : Table := update_where_id (Some A) (set_parent B pos now) t.

Lemma move_under_descendant_cycles (b : string) :
  B = Some b → b = A ∨ descendant t A b → descendant t' A A.
Proof using t_acyclic A_exists.
  intros -> Hb.
  assert (is_parent t' b A) as Hedge by (apply is_parent_moved; right; done).
  destruct Hb as [->|Hb]; [by apply descendant_child|].
  eapply descendant_step; [exact Hedge|].
  assert (b ≠ A) as Hne by (intros ->; by apply (t_acyclic A)).
  assert (∀ y, descendant t A y → y ≠ A → descendant t' A y) as Hpath; [|by apply Hpath].
  clear Hb Hne Hedge. intros y Hy. induction Hy as [y Hy|p y Hy Hp IH]; intros Hne.
  - apply descendant_child, is_parent_moved. by left.
  - eapply descendant_step; [apply is_parent_moved; left; done|].
    apply IH. intros ->. by apply (t_acyclic A).
Qed.

Lemma move_elsewhere_grounded :
  (∀ b, B = Some b → b ≠ A ∧ ¬ descendant t A b) → ∀ x, Acc (is_parent t') x.
Proof using t_acyclic A_exists.
  intros HB.
  assert (∀ y, Acc (is_parent t) y → y ≠ A → ¬ descendant t A y →
               Acc (is_parent t') y) as Houtside.
  { induction 1 as [y _ IH]. intros Hne Hnd. constructor. intros p Hp.
    apply is_parent_moved in Hp as [[_ Hp]|[-> _]]; [|done].
    apply IH; [done| |].
    - intros ->. apply Hnd. by apply descendant_child.
    - intros Hd. apply Hnd. by eapply descendant_step. }
  assert (Acc (is_parent t') A) as HA.
  { constructor. intros p Hp.
    apply is_parent_moved in Hp as [[Hne _]|(_ & _ & HBp)]; [done|].
    destruct (HB p HBp). apply Houtside; [by apply acyclic_grounded|done|done]. }
  intros x. induction (acyclic_grounded t t_acyclic x) as [x _ IH].
  destruct (decide (x = A)) as [->|Hne]; [done|].
  constructor. intros p Hp.
  apply is_parent_moved in Hp as [[_ Hp]|[-> _]]; [|done]. by apply IH.
Qed.

Lemma move_acyclic_iff :
  acyclic t' ↔ ∀ b, B = Some b → b ≠ A ∧ ¬ descendant t A b.
Proof using t_acyclic A_exists.
  split.
  - intros H' b Hb. split.
    + intros ->. apply (H' A). eapply move_under_descendant_cycles; eauto.
    + intros Hd. apply (H' A). eapply move_under_descendant_cycles; eauto.
  - intros HB. apply grounded_acyclic. by apply move_elsewhere_grounded.
Qed.
End move.

(** A new parent that is not in the table is the one request [moveTask]
    rejects: the foreign key fails and the table is unchanged. *)
Lemma moveTask_unknown_parent (w : World) (A b : string) :
  A ∈ ids (tasks w) → b ∉ ids (tasks w) →
  ∃ w', moveTask (Some A) (Some b) w = (Thrown ConstraintForeignKey, w') ∧
        tasks w' = tasks w.
Proof.
  intros HA Hb. rewrite run_moveTask. unfold sql_update_parent.
  rewrite bool_decide_eq_true_2.
  - cbn. rewrite bool_decide_eq_false_2 by done. cbn. eauto.
  - apply elem_of_ids in HA as (r & Hr & Hid). apply Exists_exists.
    exists r. split; [done|]. unfold where_id. by rewrite Hid.
Qed.

(** C2, as the code has it: [moveTask] has no cycle check.  In an acyclic
    table, for an existing task [A] and a new parent [B] that is NULL or an
    existing task, [moveTask(A, B)] returns and makes [B] the parent of [A],
    every other row being left as it was (the row of [A] keeps its id,
    title, status and creation time); the table it leaves is acyclic
    exactly when [B] is neither [A] nor a descendant of [A].  The one move
    it rejects is to a [B] that is not in the table: the foreign key fails
    and the table is unchanged. *)
Theorem moveTask_acyclic_iff (w : World) (A : string) (B : option string) :
  acyclic (tasks w) → A ∈ ids (tasks w) →
  ((∀ b, B = Some b → b ∈ ids (tasks w)) →
   ∃ w' pos, moveTask (Some A) B w = (Returned (), w') ∧
     Forall2 (moved A B pos) (tasks w) (tasks w') ∧
     (acyclic (tasks w') ↔ ∀ b, B = Some b → b ≠ A ∧ ¬ descendant (tasks w) A b)) ∧
  (∀ b, B = Some b → b ∉ ids (tasks w) →
   ∃ w', moveTask (Some A) B w = (Thrown ConstraintForeignKey, w') ∧
         tasks w' = tasks w).
Proof.
  intros Hacyclic HA. split.
  - intros HB. rewrite run_moveTask, sql_update_parent_ok by done.
    eexists _, _. split; [reflexivity|]. rewrite tasks_store.
    split; [apply update_parent_moved|]. by apply move_acyclic_iff.
  - intros b -> Hb. by apply moveTask_unknown_parent.
Qed.

Lemma moveTask_acyclic_iff_witness :
  acyclic (tasks (world_of chain_and_root)) ∧
  ("01D" ∈ ids (tasks (world_of chain_and_root))) ∧
  ∃ w' pos,
    moveTask (Some "01D") (Some "01C") (world_of chain_and_root) = (Returned (), w') ∧
    Forall2 (moved "01D" (Some "01C") pos) (tasks (world_of chain_and_root)) (tasks w') ∧
    acyclic (tasks w').
Proof.
  assert (acyclic (tasks (world_of chain_and_root))) as H1
    by (apply acyclicb_sound; vm_compute; reflexivity).
  assert ("01D" ∈ ids (tasks (world_of chain_and_root))) as H2
    by (apply (bool_decide_unpack _); vm_compute; reflexivity).
  assert (∀ b, Some "01C" = Some b → b ∈ ids (tasks (world_of chain_and_root))) as H3
    by (intros b [= <-]; apply (bool_decide_unpack _); vm_compute; reflexivity).
  split; [exact H1|]. split; [exact H2|].
  destruct (moveTask_acyclic_iff _ "01D" (Some "01C") H1 H2) as [Hmove _].
  destruct (Hmove H3) as (w' & pos & Hrun & Hrows & _).
  exists w', pos. split; [exact Hrun|]. split; [exact Hrows|].
  replace w' with (moveTask (Some "01D") (Some "01C") (world_of chain_and_root)).2
    by (by rewrite Hrun).
  apply acyclicb_sound. vm_compute. reflexivity.
Defined.

(** C2 as stated fails: moving the only task of a table under itself, and
    moving the top of a chain under its grandchild, both return, change the
    table and leave a cycle. *)
Lemma moveTask_makes_cycles :
  (acyclic (tasks (world_of one_task)) ∧
   ∃ w', moveTask (Some "01A") (Some "01A") (world_of one_task) = (Returned (), w') ∧
         tasks w' ≠ tasks (world_of one_task) ∧ ¬ acyclic (tasks w')) ∧
  (acyclic (tasks (world_of chain_and_root)) ∧
   descendant (tasks (world_of chain_and_root)) "01A" "01C" ∧
   ∃ w', moveTask (Some "01A") (Some "01C") (world_of chain_and_root) = (Returned (), w') ∧
         tasks w' ≠ tasks (world_of chain_and_root) ∧ ¬ acyclic (tasks w')).
Proof.
  split.
  - split; [apply acyclicb_sound; vm_compute; reflexivity|].
    eexists. split; [vm_compute; reflexivity|]. split; [done|].
    intros H. apply (H "01A"). apply descendant_child.
    eexists. split; [apply list_elem_of_here|]. done.
  - split; [apply acyclicb_sound; vm_compute; reflexivity|]. split.
    + eapply descendant_step; [|apply descendant_child].
      * exists (example_row "01C" todo (Some "01B") 0). split; [|done].
        apply (bool_decide_unpack _). vm_compute. reflexivity.
      * exists (example_row "01B" todo (Some "01A") 0). split; [|done].
        apply (bool_decide_unpack _). vm_compute. reflexivity.
    + eexists. split; [vm_compute; reflexivity|]. split; [done|].
      intros H. apply (H "01A").
      eapply descendant_step; [|eapply descendant_step; [|apply descendant_child]].
      * eexists. split; [apply list_elem_of_here|]. split; reflexivity.
      * exists (example_row "01C" todo (Some "01B") 0). split; [|done].
        apply (bool_decide_unpack _). vm_compute. reflexivity.
      * exists (example_row "01B" todo (Some "01A") 0). split; [|done].
        apply (bool_decide_unpack _). vm_compute. reflexivity.
Qed.

(** ** Completing: the upward walk *)

Lemma parent_of_skeleton (t t' : Table) (x : string) :
  skeleton <$> t = skeleton <$> t' → parent_of t x = parent_of t' x.
Proof.
  unfold parent_of, select_by_id. intros H. f_equal.
  revert t' H. induction t as [|r t IH]; intros [|r' t'] H; try done.
  inversion H as [[Hid Hp Ht]].
  destruct (decide (where_id (Some x) r)) as [Hx|Hx].
  - rewrite !filter_cons_True; [cbn; done|unfold where_id in *; congruence|done].
  - rewrite !filter_cons_False; [by apply IH|unfold where_id in *; congruence|done].
Qed.

Lemma is_parent_skeleton (t t' : Table) (p x : string) :
  skeleton <$> t = skeleton <$> t' → is_parent t p x → is_parent t' p x.
Proof.
  intros H (r & Hr & Hid & Hp).
  assert (skeleton r ∈ skeleton <$> t') as Hin
    by (rewrite <- H; by apply list_elem_of_fmap_2).
  apply list_elem_of_fmap in Hin as (r' & Hs & Hr'). injection Hs as Hid' Hp'.
  exists r'. split; [done|]. split; congruence.
Qed.

Lemma chain_skeleton (t t' : Table) (x : string) (ps : list string) :
  skeleton <$> t = skeleton <$> t' → chain t x ps → chain t' x ps.
Proof.
  intros H Hc. induction Hc as [x|x p rest Hp _ IH]; constructor; [|done].
  by rewrite <- (parent_of_skeleton t t').
Qed.

Lemma skeleton_update_status (v : option string) st now (t : Table) :
  skeleton <$> update_where_id v (set_status st now) t = skeleton <$> t.
Proof.
  unfold update_where_id. rewrite <- list_fmap_compose.
  apply list_fmap_ext. intros _ r _. cbn. by destruct (decide _).
Qed.

Lemma marked_only_skeleton (ms : list string) (t t' : Table) :
  Forall2 (marked_only ms) t t' → skeleton <$> t = skeleton <$> t'.
Proof.
  induction 1 as [|r r' t t' Hr _ IH]; [done|]. cbn. f_equal; [|done].
  unfold skeleton. destruct Hr as [->|(_ & _ & -> & _ & -> & _)]; done.
Qed.

Lemma marked_only_refl (ms : list string) (t : Table) : Forall2 (marked_only ms) t t.
Proof. apply Forall2_same_length_lookup_2; [done|]. intros i r r' H1 H2. left. congruence. Qed.

Lemma marked_only_mono (ms ms' : list string) (r r' : TaskRow) :
  (∀ m, m ∈ ms → m ∈ ms') → marked_only ms r r' → marked_only ms' r r'.
Proof. intros Hsub [->|(Hm & H)]; [by left | right; auto]. Qed.

Lemma marked_only_trans (ms : list string) (t1 t2 t3 : Table) :
  Forall2 (marked_only ms) t1 t2 → Forall2 (marked_only ms) t2 t3 →
  Forall2 (marked_only ms) t1 t3.
Proof.
  intros H12. revert t3. induction H12 as [|r1 r2 t1 t2 Hr _ IH]; intros t3 H23.
  - by inversion H23.
  - inversion H23 as [|? r3 ? t3' Hr' H23']; subst. constructor; [|by apply IH].
    destruct Hr' as [->|(Hm & Hst & Hid & Hti & Hp & Hpos & Hc)]; [done|].
    destruct Hr as [->|(Hm1 & Hst1 & Hid1 & Hti1 & Hp1 & Hpos1 & Hc1)]; right.
    + done.
    + repeat split; congruence.
Qed.

Lemma marked_only_update (ms : list string) (p : string) now (t : Table) :
  p ∈ ms → Forall2 (marked_only ms) t (update_where_id (Some p) (set_status done now) t).
Proof.
  intros Hp. unfold update_where_id. apply Forall2_fmap_r, Forall_Forall2_diag.
  apply Forall_forall. intros r _. cbn.
  destruct (decide (where_id (Some p) r)) as [[= ->]|]; [right|left; reflexivity].
  split_and!; done.
Qed.

Lemma marked_only_done (ms : list string) (t t' : Table) (r' : TaskRow) :
  Forall2 (marked_only ms) t t' → r' ∈ t' →
  ∃ r, r ∈ t ∧ marked_only ms r r'.
Proof.
  intros H Hr'. apply list_elem_of_lookup in Hr' as [i Hi].
  destruct (Forall2_lookup_r _ _ _ _ _ H Hi) as (r & Hr & Hrr').
  exists r. split; [by eapply list_elem_of_lookup_2 | done].
Qed.

Lemma fully_done_marked (ms : list string) (t t' : Table) (p : string) :
  Forall2 (marked_only ms) t t' → fully_done t p → fully_done t' p.
Proof.
  intros H [(r & Hr & Hp) Hall]. split.
  - apply list_elem_of_lookup in Hr as [i Hi].
    destruct (Forall2_lookup_l _ _ _ _ _ H Hi) as (r' & Hr' & Hrr').
    exists r'. split; [by eapply list_elem_of_lookup_2|].
    destruct Hrr' as [->|(_ & _ & _ & _ & -> & _)]; done.
  - intros r' Hr' Hp'. destruct (marked_only_done _ _ _ _ H Hr') as (r0 & Hr0 & Hrr').
    destruct Hrr' as [->|(_ & Hst & _)]; [by apply Hall | done].
Qed.

Lemma length_filter_all {A : Type} (P : A → Prop) `{!∀ x, Decision (P x)} (l : list A) :
  length (filter P l) = length l ↔ Forall P l.
Proof.
  induction l as [|a l IH]; [by split|].
  destruct (decide (P a)) as [Ha|Ha].
  - rewrite filter_cons_True by done. cbn. rewrite Forall_cons.
    split; [intros [= Hl]; split; [done | by apply IH]
           | intros [_ Hl]; f_equal; by apply IH].
  - rewrite filter_cons_False by done. cbn. rewrite Forall_cons. split; [|tauto].
    intros Hl. pose proof (length_filter P l). lia.
Qed.

(** [stats.total > 0 && stats.total === stats.done] says what it should. *)
Lemma all_children_done_spec (t : Table) (p : string) :
  all_children_done (child_stats p t) = true ↔ fully_done t p.
Proof.
  unfold all_children_done, child_stats, fully_done. cbn [fst snd].
  set (kids := filter (where_parent (Some p)) t).
  assert (∀ r, r ∈ kids ↔ r ∈ t ∧ parent_id r = Some p) as Hkids
    by (intros r; unfold kids; rewrite list_elem_of_filter; unfold where_parent; tauto).
  rewrite andb_true_iff, !bool_decide_eq_true. split.
  - intros [Hpos Hall]. destruct kids as [|k kids'] eqn:E; [cbn in Hpos; lia|].
    rewrite <- E in *. clear E. injection Hall as Hall.
    apply length_filter_all in Hall. rewrite Forall_forall in Hall. split.
    + destruct kids as [|r ?]; [cbn in Hpos; lia|].
      exists r. apply Hkids. by left.
    + intros r Hr Hp. apply Hall, Hkids. done.
  - intros [(r & Hr & Hp) Hall].
    assert (r ∈ kids) as Hin by (by apply Hkids).
    destruct kids as [|k kids'] eqn:E; [by apply not_elem_of_nil in Hin|].
    rewrite <- E in *. clear E. split.
    + destruct kids; [by apply not_elem_of_nil in Hin | cbn; lia].
    + f_equal. apply length_filter_all, Forall_forall.
      intros r' Hr'. apply Hkids in Hr' as [? ?]. by apply Hall.
Qed.

Lemma truthy_Some (x : option string) (s : string) : truthy x = Some s → x = Some s.
Proof. destruct x as [[|]|]; cbn; congruence. Qed.

Lemma parent_of_is_parent (t : Table) (x p : string) :
  parent_of t x = Some p → is_parent t p x.
Proof.
  unfold parent_of. intros H%truthy_Some.
  destruct (select_by_id (Some x) t) as [r|] eqn:E; [|done].
  apply select_by_id_Some in E as [Hr [= ->]]. by exists r.
Qed.

(** On a table with unique, non-empty parent references the parent the walk
    moves to is the parent of the relation. *)
Lemma parent_of_spec (t : Table) (x p : string) :
  NoDup (ids t) → (∀ r, r ∈ t → parent_id r ≠ Some "") →
  parent_of t x = Some p ↔ is_parent t p x.
Proof.
  intros Hnd Hne. split; [apply parent_of_is_parent|].
  intros (r & Hr & Hid & Hp). unfold parent_of.
  destruct (select_by_id (Some x) t) as [r'|] eqn:E.
  - apply select_by_id_Some in E as [Hr' [= Hid']].
    assert (r' = r) as -> by (eapply same_id_same_row; eauto; congruence).
    cbn. rewrite Hp. destruct p as [|]; [|done]. by destruct (Hne r Hr).
  - exfalso. unfold select_by_id in E. apply head_None in E.
    eapply (filter_nil_not_elem_of _ _ r E); [|done]. unfold where_id. by rewrite Hid.
Qed.

Lemma integrity_check (t : Table) :
  NoDup (ids t) → forallb (λ r, fk_ok (parent_id r) t) t = true → integrity t.
Proof.
  intros Hnd Hfk. split; [done|]. intros r p Hr Hp.
  rewrite forallb_forall in Hfk. apply list_elem_of_In in Hr.
  specialize (Hfk r Hr). rewrite Hp in Hfk. by apply bool_decide_eq_true_1 in Hfk.
Qed.

Lemma integrity_chain_and_root : integrity chain_and_root.
Proof.
  apply integrity_check; [apply (bool_decide_unpack _)|]; vm_compute; reflexivity.
Qed.

Lemma chain_ancestry (t : Table) (x : string) (ps : list string) :
  chain t x ps → ancestry t x ps.
Proof.
  induction 1 as [x|x p rest Hp _ IH]; constructor; [|done]. by apply parent_of_is_parent.
Qed.

Lemma chain_descendant (t : Table) (x : string) (ps : list string) :
  chain t x ps → ∀ p, p ∈ ps → descendant t p x.
Proof.
  induction 1 as [x|x q rest Hq _ IH]; intros p Hp.
  - by apply not_elem_of_nil in Hp.
  - apply parent_of_is_parent in Hq. apply elem_of_cons in Hp as [->|Hp].
    + by apply descendant_child.
    + eapply descendant_step; [exact Hq | by apply IH].
Qed.

Lemma run_autoCompleteParent (depth : nat) (c : string) (w : World) :
  autoCompleteParent (S depth) (Some c) w =
  match parent_of (tasks w) c with
  | None => (Returned (), w)
  | Some p =>
      if all_children_done (child_stats p (tasks w)) then
        autoCompleteParent depth (Some p)
          (store (update_where_id (Some p)
                    (set_status done (datetime_now w (sql_clock w))) (tasks w))
                 (with_sql_clock (S (sql_clock w)) w))
      else (Returned (), w)
  end.
Proof.
  cbn [autoCompleteParent]. rewrite run_bind. cbn [query]. unfold parent_of.
  destruct (truthy _) as [p|]; [|done].
  rewrite run_bind. cbn [query]. destruct (all_children_done _); [|done].
  rewrite run_bind, run_exec_now. done.
Qed.

(** The walk from [c], in any world whose table has the ids and parents of
    an acyclic table [t0]: it returns as soon as the depth allowed exceeds
    the number of ancestors it marks. *)
Lemma autoCompleteParent_walk (t0 : Table) (c : string) :
  Acc (is_parent t0) c →
  ∀ w, skeleton <$> tasks w = skeleton <$> t0 →
  ∃ (n : nat) (marked : list string) (w' : World),
    (∀ depth, n ≤ depth → autoCompleteParent depth (Some c) w = (Returned (), w')) ∧
    chain (tasks w) c marked ∧
    (∀ p, p ∈ marked → fully_done (tasks w') p) ∧
    (parent_of (tasks w) (default c (last marked)) = None ∨
     ∃ q, parent_of (tasks w) (default c (last marked)) = Some q ∧
          ¬ fully_done (tasks w') q) ∧
    Forall2 (marked_only marked) (tasks w) (tasks w') ∧
    (∀ r', r' ∈ tasks w' → id r' ∈ marked → status r' = done).
Proof.
  induction 1 as [c _ IH]. intros w Hsk.
  destruct (parent_of (tasks w) c) as [p|] eqn:Hp.
  2: { exists 1, [], w. split_and!.
       - intros [|depth] Hd; [lia|]. by rewrite run_autoCompleteParent, Hp.
       - constructor.
       - intros p Hin. by apply not_elem_of_nil in Hin.
       - by left.
       - apply marked_only_refl.
       - intros r' _ Hin. by apply not_elem_of_nil in Hin. }
  destruct (all_children_done (child_stats p (tasks w))) eqn:Hall.
  2: { exists 1, [], w. split_and!.
       - intros [|depth] Hd; [lia|]. by rewrite run_autoCompleteParent, Hp, Hall.
       - constructor.
       - intros p' Hin. by apply not_elem_of_nil in Hin.
       - right. exists p. split; [done|]. rewrite <- all_children_done_spec. congruence.
       - apply marked_only_refl.
       - intros r' _ Hin. by apply not_elem_of_nil in Hin. }
  set (t1 := update_where_id (Some p) (set_status done (datetime_now w (sql_clock w)))
               (tasks w)).
  set (w1 := store t1 (with_sql_clock (S (sql_clock w)) w)).
  assert (tasks w1 = t1) as Hw1 by apply tasks_store.
  assert (skeleton <$> t1 = skeleton <$> tasks w) as Hsk1
    by apply skeleton_update_status.
  assert (is_parent t0 p c) as Hedge.
  { eapply is_parent_skeleton; [exact Hsk|]. by apply parent_of_is_parent. }
  destruct (IH p Hedge w1) as (n & marked & w' & Hrun & Hchain & Hfull & Hstop & Hrows & Hdone).
  { rewrite Hw1. congruence. }
  rewrite Hw1 in *.
  assert (Forall2 (marked_only (p :: marked)) (tasks w) (tasks w')) as Hrows'.
  { eapply marked_only_trans; [apply marked_only_update; by left|].
    eapply Forall2_impl; [exact Hrows|]. intros r r'.
    apply marked_only_mono. intros m Hm. by right. }
  exists (S n), (p :: marked), w'. split_and!.
  - intros [|depth] Hd; [lia|]. rewrite run_autoCompleteParent, Hp, Hall.
    apply Hrun. lia.
  - constructor; [done|]. by eapply chain_skeleton.
  - intros q [->|Hq]%elem_of_cons; [|by apply Hfull].
    eapply fully_done_marked; [exact Hrows'|]. by apply all_children_done_spec.
  - assert (default c (last (p :: marked)) = default p (last marked)) as ->.
    { destruct marked as [|m ms]; [done|]. rewrite last_cons_cons.
      destruct (last (m :: ms)) eqn:E; [done|]. by apply last_None in E. }
    rewrite (parent_of_skeleton (tasks w) t1) by done. exact Hstop.
  - exact Hrows'.
  - intros r' Hr' [Hid|Hin]%elem_of_cons; [|by apply Hdone].
    destruct (marked_only_done _ _ _ _ Hrows Hr') as (r1 & Hr1 & [->|(_ & Hst & _)]);
      [|done].
    unfold t1, update_where_id in Hr1. apply list_elem_of_fmap in Hr1 as (r & -> & Hr).
    rewrite decide_True; [done|]. unfold where_id. cbn.
    destruct (decide (where_id (Some p) r)) as [|Hne]; [by rewrite <- Hid|].
    exfalso. apply Hne. unfold where_id. by rewrite <- Hid.
Qed.

Lemma run_completeTask (depth : nat) (x : string) (w : World) :
  completeTask depth (Some x) w =
  autoCompleteParent depth (Some x)
    (store (update_where_id (Some x)
              (set_status done (datetime_now w (sql_clock w))) (tasks w))
           (with_sql_clock (S (sql_clock w)) w)).
Proof. unfold completeTask. by rewrite run_bind, run_exec_now. Qed.




(** The scenario of the specification: completing the first of two
    children leaves the parent to do, completing the second marks it. *)
Example ship_release :
  let after :=
    (ship ← addTask "Ship release" None;
     tests ← addTask "Write tests" (Some (task_id ship));
     bug ← addTask "Fix bug" (Some (task_id ship));
     completeTask 8 (Some (task_id tests));;
     first ← query (λ t, status <$> t);
     completeTask 8 (Some (task_id bug));;
     second ← query (λ t, status <$> t);
     mret (first, second)) (world_of []) in
  after.1 = Returned ([todo; done; todo], [done; done; done]).
Proof. vm_compute. reflexivity. Qed.

(** ** Batch apply *)

Lemma resolveId_spec (idMap : gmap string string) (x : option string) :
  resolveId idMap x =
  match x with
  | None => None
  | Some s => if decide (s = "") then None else Some (default s (idMap !! s))
  end.
Proof. unfold resolveId. destruct x as [[|a s]|]; done. Qed.

Lemma run_transaction_returned {A : Type} (body : Eff A) (w w' : World) (a : A) :
  body (with_in_transaction true w) = (Returned a, w') →
  transaction body w
  = (Returned a, store (tasks w') (with_in_transaction (in_transaction w) w')).
Proof. intros H. unfold transaction. by rewrite H. Qed.

Lemma run_apply_loop_cons depth idMap op rest (w : World) :
  apply_loop depth idMap (op :: rest) w =
  match apply_operation depth idMap op w with
  | (Returned idMap', w') => apply_loop depth idMap' rest w'
  | (Thrown e, w') => (Thrown e, w')
  end.
Proof. reflexivity. Qed.

Lemma run_apply_add depth idMap op_id op_title op_parentId (w : World) :
  apply_operation depth idMap (OpAdd op_id op_title op_parentId) w =
  match addTask op_title (resolveId idMap op_parentId) w with
  | (Returned task, w') =>
      (Returned match truthy op_id with
                | Some temp => <[temp := task_id task]> idMap
                | None => idMap
                end, w')
  | (Thrown e, w') => (Thrown e, w')
  end.
Proof.
  cbn [apply_operation]. rewrite run_bind. by destruct (addTask _ _ w) as [[?|?] ?].
Qed.

Lemma addTask_returned (new_title : string) (p : option string) (w : World) :
  ulid_source w (ulid_calls w) ∉ ids (tasks w) →
  (∀ x, p = Some x → x ∈ ids (tasks w)) →
  addTask new_title p w =
  (Returned {| task_id := ulid_source w (ulid_calls w); task_title := new_title;
               task_status := todo; parentId := p;
               task_position := next_position p (tasks w) |},
   store (tasks w ++ [new_row (ulid_source w (ulid_calls w)) new_title p
                        (next_position p (tasks w)) (datetime_now w (sql_clock w))])
         (with_sql_clock (S (sql_clock w)) (with_ulid_calls (S (ulid_calls w)) w))).
Proof.
  intros Hfresh Hp. rewrite run_addTask, sql_insert_ok; [done|done|].
  intros x Hx. left. by apply Hp.
Qed.

(** The batch of the specification, in a world where the next two ids of
    [ulid()] are new and distinct. *)
Lemma apply_temp_id_batch (depth : nat) (w : World) :
  let a := ulid_source w (ulid_calls w) in
  let b := ulid_source w (S (ulid_calls w)) in
  let rowA := new_row a "A" None (next_position None (tasks w))
                (datetime_now w (sql_clock w)) in
  let rowB := new_row b "B" (Some a) (next_position (Some a) (tasks w ++ [rowA]))
                (datetime_now w (S (sql_clock w))) in
  a ∉ ids (tasks w) → b ∉ ids (tasks w) → a ≠ b →
  ∃ w', applyOperations depth
          [OpAdd (Some "temp_1") "A" None; OpAdd None "B" (Some "temp_1")] w
        = (Returned (), w') ∧
        tasks w' = tasks w ++ [rowA; rowB].
Proof.
  intros a b rowA rowB Ha Hb Hab.
  assert (b ∉ ids (tasks w ++ [rowA])) as Hb'.
  { unfold ids. rewrite fmap_app. intros [H|H]%elem_of_app; [done|].
    apply list_elem_of_singleton in H. cbn in H. done. }
  assert (a ∈ ids (tasks w ++ [rowA])) as Ha'.
  { unfold ids. rewrite fmap_app. apply elem_of_app. right. cbn. by left. }
  destruct (apply_loop depth ∅
              [OpAdd (Some "temp_1") "A" None; OpAdd None "B" (Some "temp_1")]
              (with_in_transaction true w)) as [o w1] eqn:Hbody.
  assert (o = Returned (<["temp_1" := a]> ∅) ∧ tasks w1 = tasks w ++ [rowA; rowB])
    as [-> Htasks].
  { rewrite run_apply_loop_cons, run_apply_add, addTask_returned in Hbody; [|done|done].
    cbn [truthy task_id resolveId] in Hbody.
    rewrite run_apply_loop_cons, run_apply_add in Hbody.
    rewrite resolveId_spec, decide_False, lookup_insert_eq in Hbody by done.
    cbn [default] in Hbody.
    rewrite addTask_returned in Hbody.
    - cbn [apply_loop] in Hbody. injection Hbody as <- <-. split; [done|].
      rewrite !tasks_store. by rewrite <- app_assoc.
    - by rewrite tasks_store.
    - intros x [= <-]. by rewrite tasks_store. }
  unfold applyOperations. rewrite run_bind.
  rewrite (run_transaction_returned _ _ _ _ Hbody).
  eexists. split; [reflexivity|]. by rewrite tasks_store.
Qed.

Lemma apply_operation_add_returned depth idMap op_id op_title op_parentId
    (w w' : World) (idMap' : gmap string string) :
  apply_operation depth idMap (OpAdd op_id op_title op_parentId) w = (Returned idMap', w') →
  idMap' = match truthy op_id with
           | Some temp => <[temp := ulid_source w (ulid_calls w)]> idMap
           | None => idMap
           end ∧
  ∃ row, tasks w' = tasks w ++ [row] ∧ id row = ulid_source w (ulid_calls w) ∧
         parent_id row = resolveId idMap op_parentId.
Proof.
  rewrite run_apply_add, run_addTask.
  destruct (sql_insert _ _) as [e|t] eqn:E; [done|].
  intros [= <- <-]. split; [done|]. apply sql_insert_inr in E.
  eexists. rewrite tasks_store. split; [exact E|]. done.
Qed.

Lemma apply_operation_other_returned depth idMap op (w w' : World)
    (idMap' : gmap string string) :
  (∀ op_id op_title op_parentId, op ≠ OpAdd op_id op_title op_parentId) →
  apply_operation depth idMap op w = (Returned idMap', w') → idMap' = idMap.
Proof.
  intros Hop. destruct op as [i ti p|x|x p|x ti|x]; [by destruct (Hop i ti p)|..];
    cbn [apply_operation]; rewrite run_bind;
    match goal with |- context [match ?m w with _ => _ end] =>
      destruct (m w) as [[[]|?] ?] end; unfold mret, Eff_ret; congruence.
Qed.

(** C7, as the code has it.  [applyOperations] keeps a map from temporary
    to real ids: an [add] that supplies a non-empty id records the id of the
    task it created, no other operation changes the map.  Every [taskId],
    [parentId] and [newParentId] goes through [resolveId]: a mapped id becomes
    the real one, a non-empty id without mapping is used as it is, and an
    empty or missing id becomes null.  The batch of the specification, in a
    world where [ulid()] next gives two new distinct ids, appends task A and
    then task B whose parent is A's real id. *)
Theorem applyOperations_resolves_temp_ids (depth : nat) (w : World) :
  ulid_source w (ulid_calls w) ∉ ids (tasks w) →
  ulid_source w (S (ulid_calls w)) ∉ ids (tasks w) →
  ulid_source w (ulid_calls w) ≠ ulid_source w (S (ulid_calls w)) →
  (∀ (idMap : gmap string string) temp real,
     temp ≠ "" → idMap !! temp = Some real → resolveId idMap (Some temp) = Some real) ∧
  (∀ (idMap : gmap string string) x,
     x ≠ "" → idMap !! x = None → resolveId idMap (Some x) = Some x) ∧
  (∀ idMap, resolveId idMap (Some "") = None ∧ resolveId idMap None = None) ∧
  (∀ idMap x, apply_operation depth idMap (OpDelete x)
              = (deleteTask (resolveId idMap (Some x));; mret idMap)) ∧
  (∀ idMap x p, apply_operation depth idMap (OpMove x p)
                = (moveTask (resolveId idMap (Some x)) (resolveId idMap p);; mret idMap)) ∧
  (∀ idMap x ti, apply_operation depth idMap (OpUpdate x ti)
                 = (updateTask (resolveId idMap (Some x)) (Some ti) None;; mret idMap)) ∧
  (∀ idMap x, apply_operation depth idMap (OpDone x)
              = (completeTask depth (resolveId idMap (Some x));; mret idMap)) ∧
  (∀ idMap op_id ti p w0 idMap' w',
     apply_operation depth idMap (OpAdd op_id ti p) w0 = (Returned idMap', w') →
     idMap' = match truthy op_id with
              | Some temp => <[temp := ulid_source w0 (ulid_calls w0)]> idMap
              | None => idMap
              end ∧
     ∃ row, tasks w' = tasks w0 ++ [row] ∧ id row = ulid_source w0 (ulid_calls w0) ∧
            parent_id row = resolveId idMap p) ∧
  (∀ idMap op w0 idMap' w',
     (∀ op_id ti p, op ≠ OpAdd op_id ti p) →
     apply_operation depth idMap op w0 = (Returned idMap', w') → idMap' = idMap) ∧
  ∃ w' rowA rowB,
    applyOperations depth
      [OpAdd (Some "temp_1") "A" None; OpAdd None "B" (Some "temp_1")] w
    = (Returned (), w') ∧
    tasks w' = tasks w ++ [rowA; rowB] ∧
    title rowA = "A" ∧ id rowA = ulid_source w (ulid_calls w) ∧ parent_id rowA = None ∧
    title rowB = "B" ∧ id rowB = ulid_source w (S (ulid_calls w)) ∧
    parent_id rowB = Some (id rowA).
Proof.
  intros Ha Hb Hab. split_and!.
  - intros idMap temp real Hne Hm. by rewrite resolveId_spec, decide_False, Hm.
  - intros idMap x Hne Hm. by rewrite resolveId_spec, decide_False, Hm.
  - done.
  - done.
  - done.
  - done.
  - done.
  - intros *. apply apply_operation_add_returned.
  - intros *. apply apply_operation_other_returned.
  - destruct (apply_temp_id_batch depth w Ha Hb Hab) as (w' & Hrun & Htasks).
    do 3 eexists. split; [exact Hrun|]. split; [exact Htasks|]. done.
Qed.

Lemma applyOperations_resolves_temp_ids_witness :
  (example_ulids 1 ∉ ids one_task) ∧ (example_ulids 2 ∉ ids one_task) ∧
  example_ulids 1 ≠ example_ulids 2 ∧
  ∃ w' rowA rowB,
    applyOperations 8
      [OpAdd (Some "temp_1") "A" None; OpAdd None "B" (Some "temp_1")] (world_of one_task)
    = (Returned (), w') ∧
    tasks w' = one_task ++ [rowA; rowB] ∧ parent_id rowB = Some (id rowA).
Proof.
  assert (example_ulids 1 ∉ ids one_task) as H1
    by (apply (bool_decide_unpack _); vm_compute; reflexivity).
  assert (example_ulids 2 ∉ ids one_task) as H2
    by (apply (bool_decide_unpack _); vm_compute; reflexivity).
  assert (example_ulids 1 ≠ example_ulids 2) as H3 by (vm_compute; congruence).
  split_and!; [exact H1 | exact H2 | exact H3 |].
  destruct (applyOperations_resolves_temp_ids 8 (world_of one_task) H1 H2 H3)
    as (_ & _ & _ & _ & _ & _ & _ & _ & _ & w' & rowA & rowB & Hrun & Ht & HB).
  exists w', rowA, rowB. split; [exact Hrun|]. split; [exact Ht|]. apply HB.
Defined.

(** C7 as stated fails for the empty string: it has no mapping and yet is
    not used as it is.  [resolveId] turns it into null, so an [add] whose
    [parentId] is the empty string creates a root task, where [addTask] with
    that very parent fails on the foreign key. *)
Lemma empty_id_is_not_verbatim :
  (∅ : gmap string string) !! "" = None ∧
  resolveId ∅ (Some "") ≠ Some "" ∧
  (∃ w', applyOperations 8 [OpAdd None "X" (Some "")] (world_of one_task)
         = (Returned (), w') ∧
         parent_id <$> tasks w' = [None; None]) ∧
  (∃ w', addTask "X" (Some "") (world_of one_task) = (Thrown ConstraintForeignKey, w')).
Proof.
  split; [done|]. split; [done|]. split.
  - eexists. split; [vm_compute; reflexivity | reflexivity].
  - eexists. vm_compute. reflexivity.
Qed.

(** ** Atomicity *)

Lemma silent_query {A : Type} (q : Table → A) : silent (query q).
Proof. intros w. done. Qed.

Lemma silent_get_undoStack : silent get_undoStack.
Proof. intros w. done. Qed.

Lemma silent_put_undoStack u : silent (put_undoStack u).
Proof. intros w. done. Qed.

Lemma atomic_ret {A : Type} (a : A) : atomic (mret a : Eff A).
Proof. intros w _. by left. Qed.

Lemma atomic_bind_silent {A B : Type} (m : Eff A) (k : A → Eff B) :
  silent m → (∀ a, atomic (k a)) → atomic (m ≫= k).
Proof.
  intros Hm Hk w Hw. rewrite run_bind. destruct (Hm w) as (Ht & Hd & Hi).
  destruct (m w) as [[a|e] w']; cbn in *; [|by left].
  rewrite <- Ht, <- Hd. apply Hk. congruence.
Qed.

Lemma atomic_transaction {A B : Type} (body : Eff A) (b : B) :
  framed body → atomic (transaction body;; mret b).
Proof.
  intros Hb w Hw. rewrite run_bind.
  pose proof (transaction_atomic body w Hb Hw) as H.
  destruct (transaction body w) as [[a|e] w']; cbn; [right; eauto | by left].
Qed.

Create HintDb atomic discriminated.

Global Hint Resolve silent_query silent_get_undoStack silent_put_undoStack
  atomic_ret atomic_transaction : atomic.
Global Hint Extern 2 (atomic (_ ≫= _)) =>
  apply atomic_bind_silent; [solve [auto with atomic] | intros ?] : atomic.
Global Hint Extern 5 (atomic (match ?x with _ => _ end)) => destruct x : atomic.
Global Hint Extern 5 (atomic (if ?x then _ else _)) => destruct x : atomic.

Lemma atomic_reorderTask x d : atomic (reorderTask x d).
Proof. unfold reorderTask. auto 20 with atomic framed. Qed.

Lemma atomic_undo : atomic undo.
Proof.
  unfold undo. apply atomic_bind_silent; [auto with atomic|]. intros stack.
  destruct (last stack); [|auto with atomic].
  apply atomic_bind_silent; [auto with atomic|]. intros _.
  apply atomic_transaction, framed_bind; [auto with framed|].
  intros _. apply framed_insert_rows.
Qed.

Lemma atomic_applyOperations depth ops : atomic (applyOperations depth ops).
Proof. unfold applyOperations. apply atomic_transaction, framed_apply_loop. Qed.

(** A batch that throws leaves the table and the committed states as they
    were, whatever it had done before the failing operation. *)
Lemma applyOperations_all_or_nothing depth ops (w w' : World) e :
  in_transaction w = false →
  applyOperations depth ops w = (Thrown e, w') →
  tasks w' = tasks w ∧ durable w' = durable w.
Proof.
  intros Hw Hrun. destruct (atomic_applyOperations depth ops w Hw) as [H|(a & H & _)];
    rewrite Hrun in H; cbn in H; done.
Qed.

(** C1 fails for [completeTask] called on its own: it runs no transaction,
    so each UPDATE commits by itself.  Completing the only child of a parent
    commits the state in which the child is done and the parent is not,
    before it commits the final one.  (The reorder swap, the undo restore and
    the batch are atomic: [atomic_reorderTask], [atomic_undo],
    [atomic_applyOperations].) *)
Theorem completeTask_commits_partial_state :
  ∃ w' partial,
    completeTask 8 (Some "01B") (world_of parent_and_child) = (Returned (), w') ∧
    durable w' = [tasks w'; partial; parent_and_child] ∧
    status <$> parent_and_child = [todo; todo] ∧
    status <$> partial = [todo; done] ∧
    status <$> tasks w' = [done; done] ∧
    ¬ atomic (completeTask 8 (Some "01B")).
Proof.
  do 2 eexists. split; [vm_compute; reflexivity|].
  split; [reflexivity|]. split; [reflexivity|]. split; [reflexivity|].
  split; [reflexivity|].
  intros H. specialize (H (world_of parent_and_child) eq_refl).
  vm_compute in H. destruct H as [[H _]|(a & _ & H)]; discriminate H.
Qed.

(** ** Undo *)

Lemma undo_empty_stack (w : World) : undoStack w = [] → undo w = (Returned false, w).
Proof. intros H. pose proof (run_undo w) as Hrun. by rewrite H in Hrun. Qed.

Lemma insert_rows_insertable (rows : Table) (w : World) :
  insertable (tasks w) rows →
  ∃ w', insert_rows rows w = (Returned (), w') ∧ tasks w' = tasks w ++ rows ∧
        undoStack w' = undoStack w.
Proof.
  revert w. induction rows as [|r rows IH]; intros w; cbn [insertable insert_rows].
  - intros _. exists w. by rewrite app_nil_r.
  - intros (Hid & Hp & Hrest). rewrite run_bind. unfold exec at 1.
    rewrite sql_insert_ok by done.
    destruct (IH (store (tasks w ++ [r]) w)) as (w' & Hrun & Ht & Hu).
    { by rewrite tasks_store. }
    exists w'. split; [exact Hrun|]. rewrite Ht, tasks_store, <- app_assoc.
    split; [done|]. rewrite Hu. apply frame_store.
Qed.

(** [undo] installs the newest snapshot when the table it has to delete
    holds at most 1000 rows and the rows of the snapshot can be inserted in
    the order they are listed. *)
Lemma undo_returns (w : World) (snapshot : Table) :
  length (tasks w) ≤ MAX_TRIGGER_DEPTH →
  last (undoStack w) = Some snapshot → insertable [] snapshot →
  ∃ w', undo w = (Returned true, w') ∧ tasks w' = snapshot.
Proof.
  intros Hsmall Hlast Hins. unfold undo. rewrite run_bind. cbn [get_undoStack].
  rewrite Hlast. rewrite run_bind. cbn [put_undoStack]. rewrite run_bind.
  set (w1 := with_undoStack _ w).
  destruct (insert_rows_insertable snapshot (store [] (with_in_transaction true w1)))
    as (w2 & Hrun & Ht & _).
  { by rewrite tasks_store. }
  erewrite run_transaction_returned.
  - eexists. split; [reflexivity|]. rewrite tasks_store, Ht, tasks_store. done.
  - rewrite run_bind. unfold exec at 1.
    change (tasks (with_in_transaction true w1)) with (tasks w).
    rewrite sql_delete_all_small by done. exact Hrun.
Qed.

(** The round trip C6 asks for holds under those conditions: after
    [saveSnapshot] and any call [M] that leaves the undo stack alone (every
    function of the service does) and at most 1000 rows, [undo] returns true
    and the table is the one [saveSnapshot] saw. *)
Lemma undo_round_trip {A : Type} (M : Eff A) (w : World) :
  framed M → insertable [] (tasks w) →
  length (tasks (M (saveSnapshot w).2).2) ≤ MAX_TRIGGER_DEPTH →
  ∃ w', undo (M (saveSnapshot w).2).2 = (Returned true, w') ∧ tasks w' = tasks w.
Proof.
  intros HM Hins. destruct (run_saveSnapshot w) as (w1 & Hsave & _ & _ & _ & Hstack).
  rewrite Hsave. cbn [snd]. intros Hsmall.
  destruct (HM w1) as (Hu & _). apply undo_returns; [done| |done].
  rewrite Hu, Hstack. destruct (decide _) as [Hlen|]; [|apply last_snoc].
  destruct (undoStack w) as [|s stack]; [cbn in Hlen; unfold MAX_UNDO in Hlen; lia|].
  cbn. apply last_snoc.
Qed.

(** C6 fails on a table in which a child's row precedes its parent's, as
    after A and B are created in this order and A is then moved under B.
    [undo] deletes all rows and re-inserts the snapshot in order; the row of
    A refers to B, which is not there yet, the foreign key fails, the
    transaction is rolled back and [undo] throws: the pre-mutation table is
    not restored, and the snapshot is gone from the stack. *)
Theorem undo_throws_child_before_parent :
  ∃ w0 w1 w2 w3,
    (addTask "A" None;; addTask "B" None;;
     reorderTask "01A" down;; indentTask "01A" indent) (world_of [])
      = (Returned true, w0) ∧
    (id <$> tasks w0 = ["01A"; "01B"] ∧ parent_id <$> tasks w0 = [Some "01B"; None]) ∧
    saveSnapshot w0 = (Returned (), w1) ∧
    completeTask 8 (Some "01A") w1 = (Returned (), w2) ∧
    undo w2 = (Thrown ConstraintForeignKey, w3) ∧
    tasks w3 = tasks w2 ∧ tasks w3 ≠ tasks w0 ∧ undoStack w3 = [].
Proof.
  do 4 eexists. split; [vm_compute; reflexivity|].
  split; [split; reflexivity|].
  split; [vm_compute; reflexivity|].
  split; [vm_compute; reflexivity|].
  split; [vm_compute; reflexivity|].
  split; [reflexivity|]. split; [|reflexivity]. discriminate.
Qed.

Lemma child_before_parent_not_insertable : ¬ insertable [] child_before_parent.
Proof.
  intros (_ & Hp & _). destruct (Hp "01B" eq_refl) as [H|H]; [|discriminate H].
  by apply not_elem_of_nil in H.
Qed.

(** ** Indenting and outdenting *)

Lemma elem_of_insert_by_position (r y : TaskRow) (sorted : Table) :
  y ∈ insert_by_position r sorted ↔ y = r ∨ y ∈ sorted.
Proof.
  induction sorted as [|r' rest IH]; cbn.
  - rewrite list_elem_of_singleton, elem_of_nil. tauto.
  - destruct (position r <=? position r')%Z.
    + by rewrite elem_of_cons.
    + rewrite !elem_of_cons, IH. tauto.
Qed.

Lemma elem_of_order_by_position (y : TaskRow) (rows : Table) :
  y ∈ order_by_position rows ↔ y ∈ rows.
Proof.
  unfold order_by_position. induction rows as [|r rows IH]; cbn; [done|].
  rewrite elem_of_insert_by_position, elem_of_cons, IH. done.
Qed.

Lemma descendant_inv (t : Table) (a x : string) :
  descendant t a x → ∃ q, is_parent t q x ∧ (q = a ∨ descendant t a q).
Proof. intros [x' H|q x' H Hq]; eauto. Qed.

Lemma moveTask_keeps_acyclic (w : World) (x : string) (B : option string) :
  acyclic (tasks w) → x ∈ ids (tasks w) →
  (∀ b, B = Some b → b ≠ x ∧ ¬ descendant (tasks w) x b) →
  acyclic (tasks (moveTask (Some x) B w).2).
Proof.
  intros Hacyclic Hx HB. rewrite run_moveTask. unfold sql_update_parent.
  destruct (_ && _); cbn; [done|]. rewrite tasks_store. by apply move_acyclic_iff.
Qed.

(** The callers of [moveTask] in the interface never ask for a move that
    closes a cycle: [indentTask] moves a task under its preceding sibling or
    under its grandparent, neither of which is the task or one of its
    descendants. *)
Lemma indentTask_keeps_acyclic (w : World) (x : string) (d : IndentDirection) :
  NoDup (ids (tasks w)) → acyclic (tasks w) →
  acyclic (tasks (indentTask x d w).2).
Proof.
  intros Hnd Hacyclic. unfold indentTask. rewrite run_bind. cbn [query].
  destruct (select_by_id (Some x) (tasks w)) as [task|] eqn:Htask; [|done].
  apply select_by_id_Some in Htask as [Htask Hsel].
  assert (id task = x) as Hid by congruence. clear Hsel.
  assert (x ∈ ids (tasks w)) as Hx by (apply elem_of_ids; eauto).
  assert (∀ B, (∀ b, B = Some b → b ≠ x ∧ ¬ descendant (tasks w) x b) →
               acyclic (tasks ((moveTask (Some x) B;; mret true) w).2)) as Hmove.
  { intros B HB. pose proof (moveTask_keeps_acyclic w x B Hacyclic Hx HB) as H.
    rewrite run_bind. by destruct (moveTask (Some x) B w) as [[[]|?] ?]. }
  destruct d.
  - rewrite run_bind. cbn [query].
    destruct (list_find _ _) as [[[|idx] me]|] eqn:Hfind; [done| |done].
    destruct (select_siblings (parent_id task) (tasks w) !! idx) as [prev|] eqn:Hprev;
      [|done].
    apply Hmove. intros b [= <-].
    apply list_find_Some in Hfind as (_ & _ & Hbefore).
    assert (id prev ≠ x) as Hne by (apply (Hbefore idx prev); [done | lia]).
    assert (prev ∈ tasks w ∧ parent_id prev = parent_id task) as [Hin Hp].
    { apply list_elem_of_lookup_2 in Hprev. unfold select_siblings in Hprev.
      apply elem_of_order_by_position, list_elem_of_filter in Hprev. tauto. }
    split; [done|]. intros Hd.
    assert (∃ q, parent_id task = Some q ∧ (q = x ∨ descendant (tasks w) x q))
      as (q & Hq & Hxq).
    { apply descendant_inv in Hd as (q & (r & Hr & Hidr & Hpr) & Hq).
      assert (r = prev) as -> by (by eapply same_id_same_row).
      exists q. split; [congruence | done]. }
    assert (is_parent (tasks w) q x) as Hedge by (by exists task).
    apply (Hacyclic x). destruct Hxq as [->|Hxq].
    + by apply descendant_child.
    + by eapply descendant_step.
  - destruct (truthy (parent_id task)) as [p|] eqn:Hp; [|done].
    apply truthy_Some in Hp. rewrite run_bind. cbn [query].
    destruct (select_by_id (Some p) (tasks w)) as [parent|] eqn:Hparent; [|done].
    apply select_by_id_Some in Hparent as [Hparent Hsel].
    assert (p = id parent) as -> by congruence. clear Hsel.
    assert (is_parent (tasks w) (id parent) x) as Hedge by (by exists task).
    apply Hmove. intros g Hg.
    assert (is_parent (tasks w) g (id parent)) as Hedge' by (by exists parent).
    split.
    + intros ->. apply (Hacyclic x).
      eapply descendant_step; [exact Hedge | by apply descendant_child].
    + intros Hd. apply (Hacyclic x).
      eapply descendant_step; [exact Hedge|]. by eapply descendant_step.
Qed.

(** ** Completing inside a cycle *)

Lemma autoCompleteParent_loops (depth : nat) (w : World) (r : TaskRow) :
  tasks w = [r] → id r = "01A" → parent_id r = Some "01A" → status r = done →
  ∃ w' r', autoCompleteParent depth (Some "01A") w = (Thrown StackExhausted, w') ∧
           tasks w' = [r'] ∧ status r' = done.
Proof.
  revert w r. induction depth as [|depth IH]; intros w r Ht Hid Hp Hst.
  - exists w, r. done.
  - destruct r as [i ti st p pos c u]. cbn in Hid, Hp, Hst. subst i p st.
    rewrite run_autoCompleteParent, Ht.
    replace (parent_of _ "01A") with (Some "01A") by (vm_compute; reflexivity).
    replace (all_children_done _) with true by (vm_compute; reflexivity).
    eapply IH; [rewrite tasks_store; vm_compute; reflexivity|done..].
Qed.

(** On a task that is its own parent the walk never ends.  Called on its
    own, [completeTask] throws once the call stack is exhausted, whatever its
    depth, and the task stays marked: the call has failed and has changed
    the table.  The same completion run as a batch throws as well, and
    leaves the table as it was. *)
Lemma completeTask_own_parent (depth : nat) :
  (∃ w', completeTask depth (Some "01A") (world_of own_parent)
         = (Thrown StackExhausted, w') ∧
         status <$> tasks w' = [done]) ∧
  (∃ w', applyOperations depth [OpDone "01A"] (world_of own_parent)
         = (Thrown StackExhausted, w') ∧
         tasks w' = own_parent).
Proof.
  assert (∀ w, tasks w = own_parent →
               ∃ w' r', completeTask depth (Some "01A") w = (Thrown StackExhausted, w') ∧
                        tasks w' = [r'] ∧ status r' = done) as Hloop.
  { intros w Hw. rewrite run_completeTask, Hw.
    eapply autoCompleteParent_loops; [rewrite tasks_store; vm_compute; reflexivity|done..]. }
  split.
  - destruct (Hloop (world_of own_parent) eq_refl) as (w' & r' & Hrun & Ht & Hst).
    exists w'. split; [exact Hrun|]. by rewrite Ht; cbn; rewrite Hst.
  - destruct (Hloop (with_in_transaction true (world_of own_parent)) eq_refl)
      as (w' & r' & Hrun & _).
    unfold applyOperations, transaction. rewrite run_bind.
    cbn [apply_loop]. rewrite (run_bind (A:=gmap string string)).
    replace (apply_operation depth ∅ (OpDone "01A") _) with
      (Thrown (A:=gmap string string) StackExhausted, w').
    + eexists. split; reflexivity.
    + cbn [apply_operation]. rewrite run_bind.
      replace (resolveId ∅ (Some "01A")) with (Some "01A") by reflexivity.
      by rewrite Hrun.
Qed.

(** * Further properties of the service *)

(** ** Completing never reopens, renames or moves a task *)

Lemma advanced_refl (t : Table) : Forall2 advanced t t.
Proof.
  apply Forall_Forall2_diag, Forall_forall. intros r _. unfold advanced. tauto.
Qed.

Lemma advanced_trans (t1 t2 t3 : Table) :
  Forall2 advanced t1 t2 → Forall2 advanced t2 t3 → Forall2 advanced t1 t3.
Proof.
  intros H12 H23. eapply Forall2_trans; [|exact H12|exact H23].
  intros r1 r2 r3 (? & ? & ? & ? & ? & Hs) (? & ? & ? & ? & ? & Hs').
  unfold advanced. repeat split; try congruence.
  destruct Hs, Hs'; [left|right|right|right]; congruence.
Qed.

Lemma advanced_update_done (v : option string) (now : string) (t : Table) :
  Forall2 advanced t (update_where_id v (set_status done now) t).
Proof.
  unfold update_where_id. apply Forall2_fmap_r, Forall_Forall2_diag, Forall_forall.
  intros r _. cbn. unfold advanced. destruct (decide _); cbn; tauto.
Qed.

Lemma autoCompleteParent_advanced (depth : nat) (v : option string) (w : World) :
  Forall2 advanced (tasks w) (tasks (autoCompleteParent depth v w).2).
Proof.
  revert v w. induction depth as [|depth IH]; intros v w; [apply advanced_refl|].
  cbn [autoCompleteParent]. rewrite run_bind. cbn [query].
  destruct (truthy _) as [p|]; [|apply advanced_refl].
  rewrite run_bind. cbn [query]. destruct (all_children_done _); [|apply advanced_refl].
  rewrite run_bind, run_exec_now. cbn [sql_update_status].
  eapply advanced_trans; [|apply IH]. rewrite tasks_store. apply advanced_update_done.
Qed.

(** X1: whatever the table (cyclic or not) and whether it returns or runs
    out of stack, [completeTask] leaves every row with its id, title, parent,
    position and creation time, and a status that is the old one or [done]:
    it never reopens, renames, moves, creates or deletes a task. *)
Theorem completeTask_only_marks_done (depth : nat) (v : option string) (w : World) :
  Forall2 advanced (tasks w) (tasks (completeTask depth v w).2).
Proof.
  unfold completeTask. rewrite run_bind, run_exec_now. cbn [sql_update_status].
  eapply advanced_trans; [|apply autoCompleteParent_advanced].
  rewrite tasks_store. apply advanced_update_done.
Qed.

Lemma elem_of_update_where_id_other (v : option string) f (t : Table) (r : TaskRow) :
  r ∈ t → ¬ where_id v r → r ∈ update_where_id v f t.
Proof.
  intros Hr Hv. unfold update_where_id. apply list_elem_of_fmap.
  exists r. split; [|done]. by rewrite decide_False.
Qed.

(** X2: completing a task stops right there when the task has no parent,
    or when its parent has another child that is still to do: the call
    returns and the only change is that the task itself is marked done. *)
Theorem completeTask_stops_at_open_sibling (depth : nat) (x : string) (w : World) :
  0 < depth →
  (parent_of (tasks w) x = None ∨
   ∃ p sib, parent_of (tasks w) x = Some p ∧ sib ∈ tasks w ∧
            parent_id sib = Some p ∧ id sib ≠ x ∧ status sib = todo) →
  ∃ w', completeTask depth (Some x) w = (Returned (), w') ∧
        tasks w' = update_where_id (Some x)
                     (set_status done (datetime_now w (sql_clock w))) (tasks w).
Proof.
  intros Hd Hstop. destruct depth as [|depth]; [lia|].
  rewrite run_completeTask, run_autoCompleteParent, tasks_store.
  set (t1 := update_where_id _ _ _).
  assert (parent_of t1 x = parent_of (tasks w) x) as ->
    by (apply parent_of_skeleton, skeleton_update_status).
  destruct Hstop as [->|(p & sib & -> & Hsib & Hp & Hne & Hst)].
  - eexists. split; [reflexivity | apply tasks_store].
  - destruct (all_children_done _) eqn:Hall.
    + exfalso. apply all_children_done_spec in Hall as [_ Hall].
      assert (sib ∈ t1) as Hin.
      { apply elem_of_update_where_id_other; [done|]. unfold where_id. congruence. }
      specialize (Hall sib Hin Hp). congruence.
    + eexists. split; [reflexivity | apply tasks_store].
Qed.

Lemma completeTask_stops_at_open_sibling_witness :
  0 < 1 ∧
  (∃ p sib, parent_of (tasks (world_of parent_of_two)) "01B" = Some p ∧
            sib ∈ tasks (world_of parent_of_two) ∧
            parent_id sib = Some p ∧ id sib ≠ "01B" ∧ status sib = todo) ∧
  ∃ w', completeTask 1 (Some "01B") (world_of parent_of_two) = (Returned (), w') ∧
        status <$> tasks w' = [todo; done; todo].
Proof.
  assert (∃ p sib, parent_of (tasks (world_of parent_of_two)) "01B" = Some p ∧
            sib ∈ tasks (world_of parent_of_two) ∧
            parent_id sib = Some p ∧ id sib ≠ "01B" ∧ status sib = todo) as H.
  { exists "01A", (example_row "01C" todo (Some "01A") 1).
    split; [vm_compute; reflexivity|].
    split; [apply (bool_decide_unpack _); vm_compute; reflexivity|]. done. }
  split; [lia|]. split; [exact H|].
  destruct (completeTask_stops_at_open_sibling 1 "01B" (world_of parent_of_two))
    as (w' & Hrun & Ht); [lia | right; exact H |].
  exists w'. split; [exact Hrun|]. rewrite Ht. vm_compute. reflexivity.
Defined.

(** ** Renaming and setting a status *)

Lemma store_oracles (t : Table) (w : World) :
  datetime_now (store t w) = datetime_now w ∧ sql_clock (store t w) = sql_clock w ∧
  ulid_source (store t w) = ulid_source w ∧ ulid_calls (store t w) = ulid_calls w ∧
  undoStack (store t w) = undoStack w ∧ in_transaction (store t w) = in_transaction w.
Proof. unfold store. destruct (in_transaction w) eqn:E; cbn; rewrite ?E; done. Qed.

Lemma run_updateTask (v : option string) (new_title : option string)
    (new_status : option Status) (w : World) :
  ∃ w', updateTask v new_title new_status w = (Returned (), w') ∧
        tasks w' =
          (match new_status with
           | Some st => update_where_id v (set_status st (datetime_now w
                          (sql_clock w + match new_title with Some _ => 1 | None => 0 end)))
           | None => λ t, t
           end)
          ((match new_title with
            | Some x => update_where_id v (set_title x (datetime_now w (sql_clock w)))
            | None => λ t, t
            end) (tasks w)).
Proof.
  unfold updateTask. rewrite run_bind.
  destruct new_title as [x|], new_status as [st|]; cbn;
    rewrite ?run_exec_now; cbn; rewrite ?tasks_store; cbn;
    rewrite ?Nat.add_1_r, ?Nat.add_0_r;
    eexists; (split; [reflexivity|]); rewrite ?tasks_store; try done.
  destruct (store_oracles (update_where_id v (set_title x (datetime_now w (sql_clock w)))
                             (tasks w))
                          (with_sql_clock (S (sql_clock w)) w)) as (Hd & Hc & _).
  unfold update_where_id in *. by rewrite Hd, Hc.
Qed.

(** X3: [updateTask] returns for every id, touches only the row the id
    selects and in it only the fields given (and [updated_at]): ids, parents,
    positions and creation times stay, every other row is untouched, and a
    status set this way is not propagated to any parent. *)
Theorem updateTask_edits_one_row (v : option string) (new_title : option string)
    (new_status : option Status) (w : World) :
  ∃ w', updateTask v new_title new_status w = (Returned (), w') ∧
        Forall2 (edited v new_title new_status) (tasks w) (tasks w').
Proof.
  destruct (run_updateTask v new_title new_status w) as (w' & Hrun & Ht).
  exists w'. split; [exact Hrun|]. rewrite Ht. unfold update_where_id, edited.
  destruct new_title as [x|], new_status as [st|];
    rewrite <- ?list_fmap_compose;
    try apply Forall2_fmap_r; apply Forall_Forall2_diag, Forall_forall;
    intros r _; cbn; repeat (destruct (decide _); cbn); tauto.
Qed.

(** ** Ids that match no row *)

Lemma filter_where_id_absent (x : string) (t : Table) :
  x ∉ ids t → filter (where_id (Some x)) t = [].
Proof.
  intros Hx. destruct (filter _ t) as [|r rest] eqn:E; [done|]. exfalso.
  assert (r ∈ filter (where_id (Some x)) t) as Hr by (rewrite E; by left).
  apply list_elem_of_filter in Hr as [[= ->] Hr]. apply Hx, elem_of_ids. eauto.
Qed.

Lemma not_Exists_where_id_absent (x : string) (t : Table) :
  x ∉ ids t → ¬ Exists (where_id (Some x)) t.
Proof.
  intros Hx (r & Hr & [= ->])%Exists_exists. apply Hx, elem_of_ids. eauto.
Qed.

(** X4: an id that matches no row is not an error anywhere.  [updateTask],
    [deleteTask] and [moveTask] return and leave the table as it is, the
    latter even when the new parent does not exist either (the foreign key
    is checked only on rows updated); [reorderTask] and [indentTask] return
    false having done nothing at all. *)
Theorem missing_id_is_noop (x : string) (w : World) :
  x ∉ ids (tasks w) →
  (∀ a b, ∃ w', updateTask (Some x) a b w = (Returned (), w') ∧ tasks w' = tasks w) ∧
  (∃ w', deleteTask (Some x) w = (Returned (), w') ∧ tasks w' = tasks w) ∧
  (∀ B, ∃ w', moveTask (Some x) B w = (Returned (), w') ∧ tasks w' = tasks w) ∧
  (∀ d, reorderTask x d w = (Returned false, w)) ∧
  (∀ d, indentTask x d w = (Returned false, w)).
Proof.
  intros Hx. split_and!.
  - intros a b. destruct (run_updateTask (Some x) a b w) as (w' & Hrun & Ht).
    exists w'. split; [exact Hrun|]. rewrite Ht.
    destruct a, b; rewrite ?(update_where_id_absent x _ (tasks w)) by done; done.
  - rewrite run_deleteTask. unfold sql_delete.
    rewrite filter_where_id_absent by done.
    eexists. split; [reflexivity|]. by rewrite tasks_store.
  - intros B. rewrite run_moveTask. unfold sql_update_parent.
    rewrite bool_decide_eq_false_2 by (by apply not_Exists_where_id_absent). cbn.
    eexists. split; [reflexivity|]. by rewrite tasks_store, update_where_id_absent.
  - intros d. unfold reorderTask. rewrite run_bind. cbn [query].
    by rewrite select_by_id_absent.
  - intros d. unfold indentTask. rewrite run_bind. cbn [query].
    by rewrite select_by_id_absent.
Qed.

Lemma missing_id_is_noop_witness :
  ("01B" ∉ ids (tasks (world_of one_task))) ∧
  ∃ w', moveTask (Some "01B") (Some "01C") (world_of one_task) = (Returned (), w') ∧
        tasks w' = tasks (world_of one_task).
Proof.
  assert ("01B" ∉ ids (tasks (world_of one_task))) as H
    by (apply (bool_decide_unpack _); vm_compute; reflexivity).
  split; [exact H|].
  destruct (missing_id_is_noop "01B" (world_of one_task) H) as (_ & _ & Hmove & _).
  apply Hmove.
Defined.

(** ** Creating *)

Lemma fold_left_max_ge (zs : list Z) (z : Z) :
  (z ≤ fold_left Z.max zs z)%Z ∧ ∀ y, y ∈ zs → (y ≤ fold_left Z.max zs z)%Z.
Proof.
  revert z. induction zs as [|a zs IH]; intros z; cbn.
  - split; [lia|]. intros y Hy. by apply not_elem_of_nil in Hy.
  - destruct (IH (Z.max z a)) as [H1 H2]. split; [lia|].
    intros y [->|Hy]%elem_of_cons; [lia | by apply H2].
Qed.

Lemma max_position_ge (rows : Table) (m : Z) (r : TaskRow) :
  max_position rows = Some m → r ∈ rows → (position r ≤ m)%Z.
Proof.
  destruct rows as [|r0 rest]; [done|]. cbn. intros [= <-] Hr.
  destruct (fold_left_max_ge (position <$> rest) (position r0)) as [H1 H2].
  apply elem_of_cons in Hr as [->|Hr]; [done|].
  apply H2. by apply list_elem_of_fmap_2.
Qed.

Lemma to_double_exact (z : Z) : (Z.abs z ≤ two53)%Z → to_double z = z.
Proof.
  intros Hz. unfold to_double. fold two53.
  by rewrite (proj2 (Z.leb_le _ _) Hz).
Qed.

(** [COALESCE(MAX(position), -1) + 1] read as a JS number: when the positions
    of the group are safe it is exact, hence past every sibling and within
    one of the largest; it is 0 when the group is empty. *)
Lemma next_position_exact (p : option string) (t : Table) :
  (∀ r, r ∈ t → parent_id r = p → safe_position (position r)) →
  next_position p t = (default (-1) (max_position (filter (where_parent p) t)) + 1)%Z ∧
  (- two53 < next_position p t ≤ two53)%Z.
Proof.
  intros Hsafe. unfold next_position.
  assert (- two53 ≤ default (-1) (max_position (filter (where_parent p) t)) < two53)%Z
    as Hmax.
  { destruct (filter (where_parent p) t) as [|r0 rest] eqn:E;
      [cbn; unfold two53; lia|].
    assert (r0 ∈ filter (where_parent p) t) as Hr0 by (rewrite E; by left).
    apply list_elem_of_filter in Hr0 as [Hp0 Hr0].
    cbn [max_position default].
    assert (∀ zs z, (- two53 ≤ z < two53)%Z → (∀ y, y ∈ zs → (- two53 ≤ y < two53)%Z) →
                    (- two53 ≤ fold_left Z.max zs z < two53)%Z) as Hfold.
    { induction zs as [|a zs IH]; intros z Hz Hzs; [done|]. cbn. apply IH.
      - pose proof (Hzs a ltac:(by left)). lia.
      - intros y Hy. apply Hzs. by right. }
    apply Hfold; [by apply Hsafe|].
    intros y (r & -> & Hr)%list_elem_of_fmap.
    assert (r ∈ filter (where_parent p) t) as Hin by (rewrite E; by right).
    apply list_elem_of_filter in Hin as [Hp Hin]. by apply Hsafe. }
  rewrite to_double_exact by lia. split; [done | lia].
Qed.

Lemma next_position_after (p : option string) (t : Table) (r : TaskRow) :
  (∀ r, r ∈ t → parent_id r = p → safe_position (position r)) →
  r ∈ t → parent_id r = p → (position r < next_position p t)%Z.
Proof.
  intros Hsafe Hr Hp. destruct (next_position_exact p t Hsafe) as [-> _].
  assert (r ∈ filter (where_parent p) t) as Hin by (by apply list_elem_of_filter).
  destruct (max_position _) as [m|] eqn:E.
  - pose proof (max_position_ge _ _ _ E Hin). cbn. lia.
  - destruct (filter _ t); [by apply not_elem_of_nil in Hin | done].
Qed.

Lemma next_position_first (p : option string) (t : Table) :
  (∀ r, r ∈ t → parent_id r ≠ p) → next_position p t = 0%Z.
Proof.
  intros Hnone. unfold next_position.
  destruct (filter (where_parent p) t) as [|r rest] eqn:E; [done|]. exfalso.
  assert (r ∈ filter (where_parent p) t) as Hr by (rewrite E; by left).
  apply list_elem_of_filter in Hr as [Hp Hr]. by apply (Hnone r).
Qed.

(** At [2^53] the next position is not past the last: the successor of
    [2^53] is not a JS number and is read as [2^53] again. *)
Lemma next_position_ties (p : option string) (r : TaskRow) :
  parent_id r = p → position r = two53 → next_position p [r] = two53.
Proof.
  intros Hp Hpos. unfold next_position. rewrite filter_cons, filter_nil.
  rewrite decide_True by done. cbn [max_position fmap list_fmap fold_left default].
  rewrite Hpos. vm_compute. reflexivity.
Qed.

(** X5: for a parent that is NULL or exists, [ulid()] giving a new id,
    [addTask] appends exactly one row and returns the task that mirrors it
    (same id, title, status, parent and position), no other row changing;
    it gets position 0 when the group was empty; and when the positions of
    the sibling group are safe (at least [-2^53] and below [2^53], so that
    JS holds [MAX + 1] exactly), the new task comes after every task that
    was in the group. *)
Theorem addTask_appends_last (new_title : string) (p : option string) (w : World) :
  ulid_source w (ulid_calls w) ∉ ids (tasks w) →
  (∀ x, p = Some x → x ∈ ids (tasks w)) →
  ∃ task row w',
    addTask new_title p w = (Returned task, w') ∧
    tasks w' = tasks w ++ [row] ∧
    row_to_task row = task ∧
    id row = ulid_source w (ulid_calls w) ∧ title row = new_title ∧ parent_id row = p ∧
    ((∀ r, r ∈ tasks w → parent_id r = p → safe_position (position r)) →
     ∀ r, r ∈ tasks w → parent_id r = p → (position r < position row)%Z) ∧
    ((∀ r, r ∈ tasks w → parent_id r ≠ p) → position row = 0%Z).
Proof.
  intros Hfresh Hp. rewrite addTask_returned by done.
  do 3 eexists. split; [reflexivity|]. rewrite tasks_store. split; [reflexivity|].
  split; [reflexivity|]. cbn. split_and!; try done.
  - intros Hsafe r Hr Hpr. by apply next_position_after.
  - apply next_position_first.
Qed.

Lemma addTask_appends_last_witness :
  ((ulid_source (world_of parent_of_two) (ulid_calls (world_of parent_of_two))
      ∉ ids (tasks (world_of parent_of_two))) ∧
   (∀ r, r ∈ tasks (world_of parent_of_two) → parent_id r = Some "01A" →
         safe_position (position r))) ∧
  ∃ task row w',
    addTask "third" (Some "01A") (world_of parent_of_two) = (Returned task, w') ∧
    tasks w' = parent_of_two ++ [row] ∧
    (example_row "01C" todo (Some "01A") 1 ∈ tasks (world_of parent_of_two) ∧
     position (example_row "01C" todo (Some "01A") 1) < position row)%Z.
Proof.
  assert (ulid_source (world_of parent_of_two) (ulid_calls (world_of parent_of_two))
            ∉ ids (tasks (world_of parent_of_two))) as H1
    by (apply (bool_decide_unpack _); vm_compute; reflexivity).
  assert (Forall (λ r, safe_position (position r)) (tasks (world_of parent_of_two))) as Hall
    by (apply (bool_decide_unpack _); vm_compute; reflexivity).
  assert (∀ r, r ∈ tasks (world_of parent_of_two) → parent_id r = Some "01A" →
               safe_position (position r)) as H2
    by (intros r Hr _; by eapply Forall_forall in Hall).
  assert (example_row "01C" todo (Some "01A") 1 ∈ tasks (world_of parent_of_two)) as H3
    by (apply (bool_decide_unpack _); vm_compute; reflexivity).
  split; [done|].
  destruct (addTask_appends_last "third" (Some "01A") (world_of parent_of_two) H1)
    as (task & row & w' & Hrun & Ht & _ & _ & _ & _ & Hlast & _).
  { intros x [= <-]. apply (bool_decide_unpack _); vm_compute; reflexivity. }
  exists task, row, w'. split; [exact Hrun|]. split; [exact Ht|].
  split; [exact H3|]. by apply (Hlast H2).
Defined.

(** X6: a parent id that is not in the table.  [addTask] throws, on the
    primary key when [ulid()] collides with an id of the table and on the
    foreign key otherwise, with the table as before and nothing committed;
    unless [ulid()] returns that very parent id, in which case the new row
    satisfies its own foreign key and [addTask] returns, having created a task
    that is its own parent. *)
Theorem addTask_rejects (new_title : string) (p : string) (w : World) :
  p ∉ ids (tasks w) →
  (ulid_source w (ulid_calls w) ≠ p →
   ∃ e w', addTask new_title (Some p) w = (Thrown e, w') ∧
           tasks w' = tasks w ∧ durable w' = durable w ∧
           e = (if decide (ulid_source w (ulid_calls w) ∈ ids (tasks w))
                then ConstraintPrimaryKey else ConstraintForeignKey)) ∧
  (ulid_source w (ulid_calls w) = p →
   ∃ task row w', addTask new_title (Some p) w = (Returned task, w') ∧
                  tasks w' = tasks w ++ [row] ∧
                  task_id task = p ∧ id row = p ∧ parent_id row = Some p).
Proof.
  intros Hp. rewrite run_addTask. unfold sql_insert. cbn [id parent_id new_row]. split.
  - intros Hne. destruct (decide (_ ∈ ids (tasks w))) as [Hin|Hout].
    + rewrite bool_decide_eq_true_2 by done. eauto 10.
    + rewrite bool_decide_eq_false_2 by done. cbn.
      rewrite bool_decide_eq_false_2; [eauto 10|].
      unfold ids. rewrite fmap_app. intros [H|H]%elem_of_app; [done|].
      apply list_elem_of_singleton in H. cbn in H. congruence.
  - intros ->. rewrite bool_decide_eq_false_2 by done. cbn.
    rewrite bool_decide_eq_true_2.
    + do 3 eexists. split; [reflexivity|]. rewrite tasks_store. done.
    + unfold ids. rewrite fmap_app. apply elem_of_app. right. cbn. by left.
Qed.

Lemma addTask_rejects_witness :
  (("01X" ∉ ids (tasks (world_of one_task))) ∧
   ulid_source (world_of one_task) (ulid_calls (world_of one_task)) ≠ "01X") ∧
  ∃ w', addTask "orphan" (Some "01X") (world_of one_task)
        = (Thrown ConstraintForeignKey, w') ∧
        tasks w' = one_task.
Proof.
  assert ("01X" ∉ ids (tasks (world_of one_task))) as H1
    by (apply (bool_decide_unpack _); vm_compute; reflexivity).
  assert (ulid_source (world_of one_task) (ulid_calls (world_of one_task)) ≠ "01X") as H2
    by (vm_compute; congruence).
  split; [done|].
  destruct (addTask_rejects "orphan" "01X" (world_of one_task) H1) as [Hthrow _].
  destruct (Hthrow H2) as (e & w' & Hrun & Ht & _ & He).
  exists w'. rewrite Hrun, He. split; [|exact Ht].
  rewrite decide_False; [reflexivity|].
  apply (bool_decide_unpack _). vm_compute. reflexivity.
Defined.

(** ** Moving: where the task lands *)

(** X7: for a new parent [B] that is NULL or exists, [moveTask(A, B)]
    returns, changes no row but that of [A], and in it only the parent, the
    position and [updated_at], keeping its title and status, and its children
    stay its children; when the positions of [B]'s sibling group are safe (at
    least [-2^53] and below [2^53]), [A] lands after every task that was in
    that group. *)
Theorem moveTask_appends_last (A : string) (B : option string) (w : World) :
  (∀ b, B = Some b → b ∈ ids (tasks w)) →
  ∃ w' pos, moveTask (Some A) B w = (Returned (), w') ∧
    Forall2 (moved A B pos) (tasks w) (tasks w') ∧
    ((∀ r, r ∈ tasks w → parent_id r = B → safe_position (position r)) →
     ∀ r, r ∈ tasks w → parent_id r = B → (position r < pos)%Z).
Proof.
  intros HB. rewrite run_moveTask, sql_update_parent_ok by done.
  eexists _, (next_position B (tasks w)). split; [reflexivity|]. rewrite tasks_store.
  split; [apply update_parent_moved|].
  intros Hsafe r Hr Hp. by apply next_position_after.
Qed.

Lemma moveTask_appends_last_witness :
  ((∀ b, Some "01A" = Some b → b ∈ ids (tasks (world_of chain_and_root))) ∧
   (∀ r, r ∈ tasks (world_of chain_and_root) → parent_id r = Some "01A" →
         safe_position (position r))) ∧
  ∃ w' pos, moveTask (Some "01D") (Some "01A") (world_of chain_and_root)
            = (Returned (), w') ∧
            Forall2 (moved "01D" (Some "01A") pos) chain_and_root (tasks w') ∧
            (position (example_row "01B" todo (Some "01A") 0) < pos)%Z.
Proof.
  assert (∀ b, Some "01A" = Some b → b ∈ ids (tasks (world_of chain_and_root))) as H
    by (intros b [= <-]; apply (bool_decide_unpack _); vm_compute; reflexivity).
  assert (Forall (λ r, safe_position (position r)) (tasks (world_of chain_and_root)))
    as Hall by (apply (bool_decide_unpack _); vm_compute; reflexivity).
  assert (∀ r, r ∈ tasks (world_of chain_and_root) → parent_id r = Some "01A" →
               safe_position (position r)) as H2
    by (intros r Hr _; by eapply Forall_forall in Hall).
  assert (example_row "01B" todo (Some "01A") 0 ∈ tasks (world_of chain_and_root)) as H3
    by (apply (bool_decide_unpack _); vm_compute; reflexivity).
  split; [done|].
  destruct (moveTask_appends_last "01D" (Some "01A") (world_of chain_and_root) H)
    as (w' & pos & Hrun & Hrows & Hlast).
  exists w', pos. split; [exact Hrun|]. split; [exact Hrows|]. by apply (Hlast H2).
Defined.

(** ** The constraints of the schema are kept *)

Lemma keeps_ret P {A : Type} (a : A) : keeps P (mret a : Eff A).
Proof. intros w H. exact H. Qed.

Lemma keeps_throw P {A : Type} e : keeps P (throw e : Eff A).
Proof. intros w H. exact H. Qed.

Lemma keeps_bind P {A B : Type} (m : Eff A) (k : A → Eff B) :
  keeps P m → (∀ a, keeps P (k a)) → keeps P (m ≫= k).
Proof.
  intros Hm Hk w Hw. rewrite run_bind. specialize (Hm w Hw).
  destruct (m w) as [[a|e] w']; cbn in *; [by apply Hk | done].
Qed.

Lemma keeps_query P {A : Type} (q : Table → A) : keeps P (query q).
Proof. intros w H. exact H. Qed.

Lemma keeps_ulid P : keeps P ulid.
Proof. intros w H. exact H. Qed.

Lemma keeps_get_undoStack P : keeps P get_undoStack.
Proof. intros w H. exact H. Qed.

Lemma keeps_put_undoStack P u : keeps P (put_undoStack u).
Proof. intros w H. exact H. Qed.

Lemma keeps_exec P stmt : stmt_keeps P stmt → keeps P (exec stmt).
Proof.
  intros Hs w Hw. unfold exec. destruct (stmt (tasks w)) as [e|t] eqn:E; cbn; [done|].
  rewrite tasks_store. by eapply Hs.
Qed.

Lemma keeps_exec_now P stmt : (∀ now, stmt_keeps P (stmt now)) → keeps P (exec_now stmt).
Proof. intros Hs w Hw. unfold exec_now. by apply (keeps_exec P _ (Hs _)). Qed.

Lemma keeps_transaction P {A : Type} (body : Eff A) :
  keeps P body → keeps P (transaction body).
Proof.
  intros Hb w Hw. unfold transaction. specialize (Hb (with_in_transaction true w) Hw).
  destruct (body _) as [[a|e] w']; cbn in *; [by rewrite tasks_store | done].
Qed.

Lemma integrity_skeleton (t t' : Table) :
  skeleton <$> t = skeleton <$> t' → integrity t → integrity t'.
Proof.
  intros Hsk [Hnd Hfk].
  assert (ids t' = ids t) as Hids.
  { unfold ids. change id with (fst ∘ skeleton).
    by rewrite !list_fmap_compose, Hsk. }
  split; [by rewrite Hids|]. intros r' p Hr' Hp. rewrite Hids.
  assert (skeleton r' ∈ skeleton <$> t) as Hin
    by (rewrite Hsk; by apply list_elem_of_fmap_2).
  apply list_elem_of_fmap in Hin as (r & Hs & Hr). injection Hs as Hid Hpar.
  apply (Hfk r p Hr). congruence.
Qed.

Lemma skeleton_update_where_id (v : option string) f (t : Table) :
  (∀ r, skeleton (f r) = skeleton r) →
  skeleton <$> update_where_id v f t = skeleton <$> t.
Proof.
  intros Hf. unfold update_where_id. rewrite <- list_fmap_compose.
  apply list_fmap_ext. intros _ r _. cbn. by destruct (decide _).
Qed.

Lemma integrity_nil : integrity [].
Proof. split; [constructor|]. intros r p Hr. by apply not_elem_of_nil in Hr. Qed.

Lemma stmt_keeps_insert (r : TaskRow) : stmt_keeps integrity (sql_insert r).
Proof.
  intros t t' [Hnd Hfk]. unfold sql_insert.
  destruct (bool_decide (id r ∈ ids t)) eqn:Hpk; [done|].
  destruct (fk_ok _ _) eqn:Hfkr; [|done]. intros [= <-].
  apply bool_decide_eq_false_1 in Hpk.
  assert (ids (t ++ [r]) = ids t ++ [id r]) as Hids by (unfold ids; by rewrite fmap_app).
  split.
  - rewrite Hids. apply NoDup_app. split; [done|]. split; [|apply NoDup_singleton].
    intros x Hx ->%list_elem_of_singleton. done.
  - intros r' p [Hr'| ->%list_elem_of_singleton]%elem_of_app Hp.
    + rewrite Hids. apply elem_of_app. left. by eapply Hfk.
    + rewrite Hp in Hfkr. cbn in Hfkr. by apply bool_decide_eq_true_1 in Hfkr.
Qed.

Lemma stmt_keeps_update_title v x now : stmt_keeps integrity (sql_update_title v x now).
Proof.
  intros t t' H [= <-]. eapply integrity_skeleton; [|exact H].
  symmetry. by apply skeleton_update_where_id.
Qed.

Lemma stmt_keeps_update_status v st now :
  stmt_keeps integrity (sql_update_status v st now).
Proof.
  intros t t' H [= <-]. eapply integrity_skeleton; [|exact H].
  symmetry. by apply skeleton_update_where_id.
Qed.

Lemma stmt_keeps_update_position v pos now :
  stmt_keeps integrity (sql_update_position v pos now).
Proof.
  intros t t' H [= <-]. eapply integrity_skeleton; [|exact H].
  symmetry. by apply skeleton_update_where_id.
Qed.

Lemma stmt_keeps_update_parent v p pos now :
  stmt_keeps integrity (sql_update_parent v p pos now).
Proof.
  intros t t' [Hnd Hfk]. unfold sql_update_parent.
  destruct (bool_decide (Exists (where_id v) t)) eqn:Hex; cbn.
  - destruct (fk_ok p t) eqn:Hp; [|done]. cbn. intros [= <-].
    rewrite <- (ids_update_where_id v (set_parent p pos now) t) in Hnd, Hfk by done.
    split; [done|]. unfold update_where_id at 1. intros r' q Hr' Hq.
    rewrite ids_update_where_id by done.
    apply list_elem_of_fmap in Hr' as (r & -> & Hr).
    destruct (decide (where_id v r)).
    + cbn in Hq. subst p. cbn in Hp. by apply bool_decide_eq_true_1 in Hp.
    + rewrite ids_update_where_id in Hfk by done. by eapply Hfk.
  - intros [= <-]. apply bool_decide_eq_false_1 in Hex.
    assert (update_where_id v (set_parent p pos now) t = t) as ->; [|done].
    unfold update_where_id. rewrite <- (list_fmap_id t) at 2.
    apply list_fmap_ext. intros i r Hi. cbn.
    destruct (decide (where_id v r)) as [Hv|]; [|done].
    exfalso. apply Hex, Exists_exists. exists r. split; [|done].
    by eapply list_elem_of_lookup_2.
Qed.

Lemma ids_sublist (t' t : Table) : t' `sublist_of` t → ids t' `sublist_of` ids t.
Proof. induction 1; cbn; by constructor. Qed.

Lemma stmt_keeps_delete v : stmt_keeps integrity (sql_delete v).
Proof.
  intros t t' [Hnd Hfk] Hdel.
  destruct (filter (where_id v) t) as [|r0 gone] eqn:Hgone.
  { unfold sql_delete in Hdel. rewrite Hgone in Hdel. injection Hdel as <-. done. }
  assert (r0 ∈ filter (where_id v) t) as Hr0 by (rewrite Hgone; by left).
  apply list_elem_of_filter in Hr0 as [-> Hr0].
  assert (id r0 ∈ ids t) as Hx by (apply elem_of_ids; eauto).
  pose proof (sql_delete_spec t (id r0) Hnd Hx t' Hdel) as Hspec.
  pose proof (sql_delete_sublist _ _ _ Hdel) as Hsub.
  split.
  - apply (sublist_NoDup (ids t') (ids t)); [exact Hnd | by apply ids_sublist].
  - intros r p Hr Hp. apply Hspec in Hr as (Hr & Hid & Hd).
    pose proof (Hfk r p Hr Hp) as Hpin. apply elem_of_ids in Hpin as (rp & Hrp & Hidp).
    apply elem_of_ids. exists rp. split; [|done]. apply Hspec.
    split; [done|]. rewrite Hidp. split.
    + intros ->. apply Hd. apply descendant_child. by exists r.
    + intros Hdp. apply Hd. eapply descendant_step; [|exact Hdp]. by exists r.
Qed.

Lemma stmt_keeps_delete_all : stmt_keeps integrity sql_delete_all.
Proof. intros t t' _ ->%sql_delete_all_inr. apply integrity_nil. Qed.

Create HintDb keeps discriminated.

Global Hint Resolve keeps_ret keeps_throw keeps_query keeps_ulid keeps_get_undoStack
  keeps_put_undoStack keeps_transaction keeps_exec keeps_exec_now
  stmt_keeps_insert stmt_keeps_update_title stmt_keeps_update_status
  stmt_keeps_update_position stmt_keeps_update_parent stmt_keeps_delete
  stmt_keeps_delete_all : keeps.
Global Hint Extern 2 (keeps _ (_ ≫= _)) => apply keeps_bind; [|intros ?] : keeps.
Global Hint Extern 5 (keeps _ (match ?x with _ => _ end)) => destruct x : keeps.
Global Hint Extern 5 (keeps _ (if ?x then _ else _)) => destruct x : keeps.
Global Hint Extern 3 (∀ _ : string, stmt_keeps _ _) => intros ? : keeps.

Lemma keeps_integrity_addTask ti p : keeps integrity (addTask ti p).
Proof. unfold addTask. auto 10 with keeps. Qed.

Lemma keeps_integrity_updateTask v a b : keeps integrity (updateTask v a b).
Proof. unfold updateTask. auto 10 with keeps. Qed.

Lemma keeps_integrity_deleteTask v : keeps integrity (deleteTask v).
Proof. unfold deleteTask. auto with keeps. Qed.

Lemma keeps_integrity_autoCompleteParent depth v :
  keeps integrity (autoCompleteParent depth v).
Proof.
  revert v. induction depth as [|depth IH]; intros v; cbn [autoCompleteParent];
    auto 10 with keeps.
Qed.

Lemma keeps_integrity_completeTask depth v : keeps integrity (completeTask depth v).
Proof. unfold completeTask. auto using keeps_integrity_autoCompleteParent with keeps. Qed.

Lemma keeps_integrity_moveTask v p : keeps integrity (moveTask v p).
Proof. unfold moveTask. auto 10 with keeps. Qed.

Global Hint Resolve keeps_integrity_addTask keeps_integrity_updateTask
  keeps_integrity_deleteTask keeps_integrity_completeTask keeps_integrity_moveTask : keeps.

Lemma keeps_integrity_reorderTask x d : keeps integrity (reorderTask x d).
Proof. unfold reorderTask. auto 20 with keeps. Qed.

Lemma keeps_integrity_indentTask x d : keeps integrity (indentTask x d).
Proof. unfold indentTask. auto 20 with keeps. Qed.

Lemma keeps_integrity_insert_rows rows : keeps integrity (insert_rows rows).
Proof. induction rows; cbn [insert_rows]; auto with keeps. Qed.

Lemma keeps_integrity_saveSnapshot : keeps integrity saveSnapshot.
Proof. unfold saveSnapshot. auto 20 with keeps. Qed.

Lemma keeps_integrity_undo : keeps integrity undo.
Proof. unfold undo. auto 20 using keeps_integrity_insert_rows with keeps. Qed.

Lemma keeps_integrity_apply_loop depth idMap ops :
  keeps integrity (apply_loop depth idMap ops).
Proof.
  revert idMap. induction ops as [|op ops IH]; intros idMap; cbn [apply_loop];
    [auto with keeps|].
  apply keeps_bind; [|done]. destruct op; cbn [apply_operation]; auto 10 with keeps.
Qed.

Lemma keeps_integrity_applyOperations depth ops :
  keeps integrity (applyOperations depth ops).
Proof. unfold applyOperations. auto using keeps_integrity_apply_loop with keeps. Qed.

(** X8: every function of the service keeps the two constraints of the
    schema: from a table with unique ids and no dangling parent reference,
    each call, returning or throwing, leaves such a table.  In particular a
    cascading delete leaves no orphan, a move never points at a missing task,
    and [undo] and a batch can only install such a table. *)
Theorem service_keeps_integrity (w : World) :
  integrity (tasks w) →
  (∀ ti p, integrity (tasks (addTask ti p w).2)) ∧
  (∀ v a b, integrity (tasks (updateTask v a b w).2)) ∧
  (∀ v, integrity (tasks (deleteTask v w).2)) ∧
  (∀ depth v, integrity (tasks (completeTask depth v w).2)) ∧
  (∀ v p, integrity (tasks (moveTask v p w).2)) ∧
  (∀ x d, integrity (tasks (reorderTask x d w).2)) ∧
  (∀ x d, integrity (tasks (indentTask x d w).2)) ∧
  integrity (tasks (clearAllTasks w).2) ∧
  integrity (tasks (saveSnapshot w).2) ∧
  integrity (tasks (undo w).2) ∧
  (∀ depth ops, integrity (tasks (applyOperations depth ops w).2)).
Proof.
  intros H. split_and!; intros.
  - by apply keeps_integrity_addTask.
  - by apply keeps_integrity_updateTask.
  - by apply keeps_integrity_deleteTask.
  - by apply keeps_integrity_completeTask.
  - by apply keeps_integrity_moveTask.
  - by apply keeps_integrity_reorderTask.
  - by apply keeps_integrity_indentTask.
  - exact (keeps_exec integrity _ stmt_keeps_delete_all w H).
  - by apply keeps_integrity_saveSnapshot.
  - by apply keeps_integrity_undo.
  - by apply keeps_integrity_applyOperations.
Qed.

Lemma service_keeps_integrity_witness :
  integrity (tasks (world_of chain_and_root)) ∧
  integrity (tasks (deleteTask (Some "01B") (world_of chain_and_root)).2).
Proof.
  split; [apply integrity_chain_and_root|].
  apply (service_keeps_integrity (world_of chain_and_root) integrity_chain_and_root).
Defined.

(** ** ORDER BY position *)

Lemma insert_by_position_perm (r : TaskRow) (sorted : Table) :
  insert_by_position r sorted ≡ₚ r :: sorted.
Proof.
  induction sorted as [|r' rest IH]; cbn; [done|].
  destruct (position r <=? position r')%Z; [done|]. rewrite IH. apply Permutation_swap.
Qed.

Lemma order_by_position_perm (rows : Table) : order_by_position rows ≡ₚ rows.
Proof.
  unfold order_by_position. induction rows as [|r rows IH]; cbn; [done|].
  by rewrite insert_by_position_perm, IH.
Qed.

Lemma insert_by_position_ascending (r : TaskRow) (sorted : Table) :
  ascending sorted → ascending (insert_by_position r sorted).
Proof.
  induction sorted as [|r' rest IH]; cbn.
  - intros _. split; [|done]. intros r0 Hr0. by apply not_elem_of_nil in Hr0.
  - intros [Hle Hrest]. destruct (position r <=? position r')%Z eqn:E; cbn.
    + apply Z.leb_le in E. split; [|done].
      intros r0 [->|Hr0]%elem_of_cons; [lia|]. specialize (Hle r0 Hr0). lia.
    + apply Z.leb_gt in E. split; [|by apply IH].
      intros r0 Hr0. apply elem_of_insert_by_position in Hr0 as [->|Hr0]; [lia|].
      by apply Hle.
Qed.

Lemma order_by_position_ascending (rows : Table) : ascending (order_by_position rows).
Proof.
  unfold order_by_position. induction rows as [|r rows IH]; cbn; [done|].
  by apply insert_by_position_ascending.
Qed.

Lemma ascending_lookup (rows : Table) (i j : nat) (a b : TaskRow) :
  ascending rows → i < j → rows !! i = Some a → rows !! j = Some b →
  (position a ≤ position b)%Z.
Proof.
  revert i j. induction rows as [|r rest IH]; intros i j Hasc Hij Hi Hj; [done|].
  destruct Hasc as [Hle Hrest]. destruct j as [|j]; [lia|]. cbn in Hj.
  destruct i as [|i]; cbn in Hi.
  - injection Hi as ->. apply Hle. by eapply list_elem_of_lookup_2.
  - eapply (IH i j); eauto. lia.
Qed.

(** X9: [getAllTasksFlat] changes nothing and returns every task of the
    table exactly once (the returned list is a rearrangement of the rows), in
    ascending order of position. *)
Theorem getAllTasksFlat_sorted (w : World) :
  ∃ rows, getAllTasksFlat w = (Returned (row_to_task <$> rows), w) ∧
          rows ≡ₚ tasks w ∧ ascending rows.
Proof.
  exists (order_by_position (tasks w)). split; [reflexivity|].
  split; [apply order_by_position_perm | apply order_by_position_ascending].
Qed.

(** ** Reordering among siblings *)

Lemma run_swap (v1 v2 : option string) (p1 p2 : Z) (w : World) :
  ∃ w', transaction (exec_now (sql_update_position v1 p1);;
                     exec_now (sql_update_position v2 p2)) w = (Returned (), w') ∧
        tasks w' = update_where_id v2 (set_position p2 (datetime_now w (S (sql_clock w))))
                     (update_where_id v1 (set_position p1 (datetime_now w (sql_clock w)))
                        (tasks w)).
Proof.
  unfold transaction. rewrite run_bind, run_exec_now. cbn [sql_update_position].
  rewrite run_exec_now. cbn [sql_update_position].
  eexists. split; [reflexivity|]. rewrite !tasks_store.
  set (t1 := update_where_id v1 _ _).
  destruct (store_oracles t1 (with_sql_clock (S (sql_clock (with_in_transaction true w)))
                                (with_in_transaction true w))) as (-> & -> & _).
  reflexivity.
Qed.

(** The ways [reorderTask] can end: it has changed nothing and returns
    false, or it has found the task at index [idx] among its siblings in
    position order, and [other] next to it, and has swapped them. *)
Lemma reorderTask_cases (x : string) (d : Direction) (w : World) :
  reorderTask x d w = (Returned false, w) ∨
  ∃ task me other idx j w',
    select_by_id (Some x) (tasks w) = Some task ∧
    list_find (λ s, id s = x) (select_siblings (parent_id task) (tasks w))
      = Some (idx, me) ∧
    select_siblings (parent_id task) (tasks w) !! j = Some other ∧
    match d with up => S j = idx | down => j = S idx end ∧
    reorderTask x d w = (Returned true, w') ∧
    tasks w' = update_where_id (Some (id other))
                 (set_position (position task) (datetime_now w (S (sql_clock w))))
                 (update_where_id (Some (id task))
                    (set_position (position other) (datetime_now w (sql_clock w)))
                    (tasks w)).
Proof.
  unfold reorderTask. rewrite run_bind. cbn [query].
  destruct (select_by_id (Some x) (tasks w)) as [task|] eqn:Htask; [|by left].
  rewrite run_bind. cbn [query].
  destruct (list_find _ _) as [[idx me]|] eqn:Hfind; [|by left].
  destruct (decide _) as [|Hrange]; [by left|].
  destruct (_ !! Z.to_nat _) as [other|] eqn:Hother; [|by left].
  right. rewrite run_bind.
  destruct (run_swap (Some (id task)) (Some (id other)) (position other) (position task) w)
    as (w' & -> & Ht).
  exists task, me, other, idx, (Z.to_nat (match d with
                                          | up => Z.of_nat idx - 1
                                          | down => Z.of_nat idx + 1
                                          end)%Z), w'.
  split; [done|]. split; [done|]. split; [done|]. split; [|done].
  destruct d; lia.
Qed.

Lemma elem_of_select_siblings (p : option string) (t : Table) (r : TaskRow) :
  r ∈ select_siblings p t ↔ r ∈ t ∧ parent_id r = p.
Proof.
  unfold select_siblings. rewrite elem_of_order_by_position, list_elem_of_filter.
  unfold where_parent. tauto.
Qed.

Lemma NoDup_select_siblings (p : option string) (t : Table) :
  NoDup (ids t) → NoDup (select_siblings p t).
Proof.
  intros Hnd. unfold select_siblings. rewrite order_by_position_perm.
  apply NoDup_filter. by eapply NoDup_fmap_1.
Qed.

(** What is known when [reorderTask] has swapped [task] and [other]. *)
Lemma reorderTask_neighbours (t : Table) (x : string) (d : Direction)
    (task me other : TaskRow) (idx j : nat) :
  NoDup (ids t) →
  select_by_id (Some x) t = Some task →
  list_find (λ s, id s = x) (select_siblings (parent_id task) t) = Some (idx, me) →
  select_siblings (parent_id task) t !! j = Some other →
  match d with up => S j = idx | down => j = S idx end →
  task ∈ t ∧ other ∈ t ∧ id task = x ∧ id other ≠ x ∧
  parent_id other = parent_id task ∧
  match d with
  | up => (position other ≤ position task)%Z
  | down => (position task ≤ position other)%Z
  end ∧
  (∀ c, c ∈ t → parent_id c = parent_id task → id c ≠ x → id c ≠ id other →
        match d with
        | up => (position c ≤ position other ∨ position task ≤ position c)%Z
        | down => (position c ≤ position task ∨ position other ≤ position c)%Z
        end).
Proof.
  intros Hnd Htask Hfind Hother Hd.
  apply select_by_id_Some in Htask as [Htask Hsel].
  assert (id task = x) as Hid by congruence. clear Hsel.
  apply list_find_Some in Hfind as (Hme & Hidme & _).
  set (s := select_siblings (parent_id task) t) in *.
  assert (me = task) as ->.
  { apply list_elem_of_lookup_2, elem_of_select_siblings in Hme as [Hme _].
    eapply same_id_same_row; eauto. congruence. }
  pose proof (NoDup_select_siblings (parent_id task) t Hnd) as Hnds. fold s in Hnds.
  pose proof (order_by_position_ascending (filter (where_parent (parent_id task)) t))
    as Hasc. fold (select_siblings (parent_id task) t) in Hasc. fold s in Hasc.
  assert (other ∈ t ∧ parent_id other = parent_id task) as [Hot Hop]
    by (by apply list_elem_of_lookup_2, elem_of_select_siblings in Hother).
  assert (j ≠ idx) as Hji by (destruct d; lia).
  assert (id other ≠ x) as Hne.
  { intros Heq. assert (other = task) as -> by (eapply same_id_same_row; eauto; congruence).
    apply Hji. by eapply NoDup_lookup. }
  split_and!; try done.
  - destruct d; [eapply (ascending_lookup s j idx) | eapply (ascending_lookup s idx j)];
      eauto; lia.
  - intros c Hc Hcp Hcx Hco.
    assert (c ∈ s) as [k Hk]%list_elem_of_lookup by (by apply elem_of_select_siblings).
    assert (k ≠ idx) by (intros ->; congruence).
    assert (k ≠ j) by (intros ->; congruence).
    destruct d.
    + destruct (decide (k < j)).
      * left. eapply (ascending_lookup s k j); eauto.
      * right. eapply (ascending_lookup s idx k); eauto. lia.
    + destruct (decide (k < idx)).
      * left. eapply (ascending_lookup s k idx); eauto.
      * right. eapply (ascending_lookup s j k); eauto. lia.
Qed.

Lemma swapped_rows (task other : TaskRow) now1 now2 (t : Table) :
  id other ≠ id task →
  Forall2 (swapped task other) t
    (update_where_id (Some (id other)) (set_position (position task) now2)
       (update_where_id (Some (id task)) (set_position (position other) now1) t)).
Proof.
  intros Hne. unfold update_where_id. rewrite <- list_fmap_compose.
  apply Forall2_fmap_r, Forall_Forall2_diag, Forall_forall. intros r _. cbn.
  unfold swapped, where_id.
  destruct (decide (Some (id task) = Some (id r))) as [[= Ht]|Ht]; cbn.
  - rewrite decide_False by congruence. rewrite decide_True by done.
    split_and!; try done; intros; congruence.
  - rewrite (decide_False (P := id r = id task)) by congruence.
    destruct (decide (Some (id other) = Some (id r))) as [[= Ho]|Ho]; cbn.
    + rewrite decide_True by done. split_and!; try done; intros; congruence.
    + rewrite decide_False by congruence. done.
Qed.



Lemma reorderTask_at_index (x : string) (d : Direction) (w : World)
    (task me : TaskRow) (idx : nat) :
  select_by_id (Some x) (tasks w) = Some task →
  list_find (λ s, id s = x) (select_siblings (parent_id task) (tasks w)) = Some (idx, me) →
  match match d with
        | up => match idx with O => None | S j => Some j end
        | down => Some (S idx)
        end ≫= (λ j, select_siblings (parent_id task) (tasks w) !! j) with
  | None => reorderTask x d w = (Returned false, w)
  | Some other => ∃ w', reorderTask x d w = (Returned true, w')
  end.
Proof.
  intros Htask Hfind. unfold reorderTask. rewrite run_bind. cbn [query]. rewrite Htask.
  rewrite run_bind. cbn [query]. rewrite Hfind.
  set (s := select_siblings (parent_id task) (tasks w)).
  destruct d, idx as [|j]; cbn [mbind option_bind].
  - rewrite decide_True by lia. done.
  - replace (Z.to_nat (Z.of_nat (S j) - 1)) with j by lia.
    destruct (s !! j) as [other|] eqn:Ho.
    + rewrite decide_False by (apply lookup_lt_Some in Ho; lia).
      rewrite run_bind.
      destruct (run_swap (Some (id task)) (Some (id other)) (position other)
                  (position task) w) as (w' & -> & _). eauto.
    + by destruct (decide _).
  - replace (Z.to_nat (Z.of_nat 0 + 1)) with 1 by lia.
    destruct (s !! 1) as [other|] eqn:Ho.
    + rewrite decide_False by (apply lookup_lt_Some in Ho; lia).
      rewrite run_bind.
      destruct (run_swap (Some (id task)) (Some (id other)) (position other)
                  (position task) w) as (w' & -> & _). eauto.
    + by destruct (decide _).
  - replace (Z.to_nat (Z.of_nat (S j) + 1)) with (S (S j)) by lia.
    destruct (s !! S (S j)) as [other|] eqn:Ho.
    + rewrite decide_False by (apply lookup_lt_Some in Ho; lia).
      rewrite run_bind.
      destruct (run_swap (Some (id task)) (Some (id other)) (position other)
                  (position task) w) as (w' & -> & _). eauto.
    + by destruct (decide _).
Qed.

Lemma select_by_id_unique (t : Table) (task : TaskRow) :
  NoDup (ids t) → task ∈ t → select_by_id (Some (id task)) t = Some task.
Proof.
  intros Hnd Htask. destruct (select_by_id (Some (id task)) t) as [r|] eqn:E.
  - apply select_by_id_Some in E as [Hr [= Hid]]. f_equal.
    eapply same_id_same_row; eauto.
  - exfalso. unfold select_by_id in E. apply head_None in E.
    by eapply (filter_nil_not_elem_of _ _ task E).
Qed.

Lemma find_among_siblings (t : Table) (task : TaskRow) :
  NoDup (ids t) → task ∈ t →
  ∃ idx, list_find (λ s, id s = id task) (select_siblings (parent_id task) t)
         = Some (idx, task) ∧
         select_siblings (parent_id task) t !! idx = Some task.
Proof.
  intros Hnd Htask.
  assert (task ∈ select_siblings (parent_id task) t) as Hin
    by (by apply elem_of_select_siblings).
  destruct (list_find (λ s, id s = id task) (select_siblings (parent_id task) t))
    as [[idx me]|] eqn:Hfind.
  - pose proof Hfind as (Hme & Hid & _)%list_find_Some.
    assert (me = task) as ->.
    { apply list_elem_of_lookup_2, elem_of_select_siblings in Hme as [Hme _].
      eapply same_id_same_row; eauto. }
    eauto.
  - exfalso. apply list_find_None in Hfind. rewrite Forall_forall in Hfind.
    by apply (Hfind task).
Qed.

(** X11: at the ends of a sibling group [reorderTask] does nothing: for a
    task before all its siblings, [up] returns false and leaves the world as
    it is, and so does [down] for a task after all its siblings (an only
    child is both).  Anywhere else it returns true: [up] whenever some
    sibling has a smaller position, [down] whenever one has a larger one. *)
Theorem reorderTask_at_the_ends (task : TaskRow) (w : World) :
  NoDup (ids (tasks w)) → task ∈ tasks w →
  ((∀ c, c ∈ tasks w → parent_id c = parent_id task → id c ≠ id task →
         (position task < position c)%Z) →
   reorderTask (id task) up w = (Returned false, w)) ∧
  ((∀ c, c ∈ tasks w → parent_id c = parent_id task → id c ≠ id task →
         (position c < position task)%Z) →
   reorderTask (id task) down w = (Returned false, w)) ∧
  ((∃ c, c ∈ tasks w ∧ parent_id c = parent_id task ∧ (position c < position task)%Z) →
   ∃ w', reorderTask (id task) up w = (Returned true, w')) ∧
  ((∃ c, c ∈ tasks w ∧ parent_id c = parent_id task ∧ (position task < position c)%Z) →
   ∃ w', reorderTask (id task) down w = (Returned true, w')).
Proof.
  intros Hnd Htask.
  pose proof (select_by_id_unique _ _ Hnd Htask) as Hsel.
  destruct (find_among_siblings _ _ Hnd Htask) as (idx & Hfind & Hidx).
  set (s := select_siblings (parent_id task) (tasks w)) in *.
  pose proof (NoDup_select_siblings (parent_id task) (tasks w) Hnd) as Hnds. fold s in Hnds.
  pose proof (order_by_position_ascending
                (filter (where_parent (parent_id task)) (tasks w))) as Hasc.
  fold (select_siblings (parent_id task) (tasks w)) in Hasc. fold s in Hasc.
  assert (∀ k c, s !! k = Some c → k ≠ idx →
                 c ∈ tasks w ∧ parent_id c = parent_id task ∧ id c ≠ id task) as Hsib.
  { intros k c Hk Hne.
    pose proof Hk as [Hc Hp]%list_elem_of_lookup_2%elem_of_select_siblings.
    split; [done|]. split; [done|]. intros Hid. apply Hne.
    assert (c = task) as -> by (by eapply same_id_same_row).
    by eapply NoDup_lookup. }
  pose proof (reorderTask_at_index (id task) up w task task idx Hsel Hfind) as Hup.
  pose proof (reorderTask_at_index (id task) down w task task idx Hsel Hfind) as Hdown.
  fold s in Hup, Hdown. cbn [mbind option_bind] in Hdown.
  split_and!.
  - intros Hfirst. destruct idx as [|j]; [exact Hup|]. cbn [mbind option_bind] in Hup.
    destruct (s !! j) as [c|] eqn:Hc; [|exact Hup]. exfalso.
    destruct (Hsib j c Hc) as (H1 & H2 & H3); [lia|].
    pose proof (Hfirst c H1 H2 H3).
    pose proof (ascending_lookup s j (S j) c task Hasc ltac:(lia) Hc Hidx). lia.
  - intros Hlast. destruct (s !! S idx) as [c|] eqn:Hc; [|exact Hdown]. exfalso.
    destruct (Hsib (S idx) c Hc) as (H1 & H2 & H3); [lia|].
    pose proof (Hlast c H1 H2 H3).
    pose proof (ascending_lookup s idx (S idx) task c Hasc ltac:(lia) Hidx Hc). lia.
  - intros (c & Hc & Hp & Hlt).
    assert (c ∈ s) as [k Hk]%list_elem_of_lookup by (by apply elem_of_select_siblings).
    assert (k < idx) as Hki.
    { destruct (decide (k < idx)); [done|]. exfalso.
      destruct (decide (k = idx)) as [->|]; [assert (c = task) by congruence; subst; lia|].
      pose proof (ascending_lookup s idx k task c Hasc ltac:(lia) Hidx Hk). lia. }
    destruct idx as [|j]; [lia|]. cbn [mbind option_bind] in Hup.
    destruct (s !! j) as [other|] eqn:Ho; [exact Hup|].
    apply lookup_ge_None in Ho. apply lookup_lt_Some in Hidx. lia.
  - intros (c & Hc & Hp & Hlt).
    assert (c ∈ s) as [k Hk]%list_elem_of_lookup by (by apply elem_of_select_siblings).
    assert (idx < k) as Hki.
    { destruct (decide (idx < k)); [done|]. exfalso.
      destruct (decide (k = idx)) as [->|]; [assert (c = task) by congruence; subst; lia|].
      pose proof (ascending_lookup s k idx c task Hasc ltac:(lia) Hk Hidx). lia. }
    destruct (s !! S idx) as [other|] eqn:Ho; [exact Hdown|].
    apply lookup_ge_None in Ho. apply lookup_lt_Some in Hk. lia.
Qed.

Lemma reorderTask_at_the_ends_witness :
  NoDup (ids (tasks (world_of parent_of_two))) ∧
  example_row "01B" done (Some "01A") 0 ∈ tasks (world_of parent_of_two) ∧
  reorderTask "01B" up (world_of parent_of_two)
    = (Returned false, world_of parent_of_two).
Proof.
  assert (NoDup (ids (tasks (world_of parent_of_two)))) as H1
    by (apply (bool_decide_unpack _); vm_compute; reflexivity).
  assert (example_row "01B" done (Some "01A") 0 ∈ tasks (world_of parent_of_two)) as H2
    by (apply (bool_decide_unpack _); vm_compute; reflexivity).
  split; [exact H1|]. split; [exact H2|].
  destruct (reorderTask_at_the_ends _ _ H1 H2) as (Hup & _).
  apply Hup. intros c Hc Hp Hid.
  assert (Forall (λ c, parent_id c = Some "01A" → id c ≠ "01B" → (0 < position c)%Z)
                 parent_of_two) as Hall
    by (repeat constructor; cbn; first [discriminate | congruence | lia]).
  rewrite Forall_forall in Hall. by apply (Hall c).
Defined.

(** ** Siblings keep distinct positions *)

Lemma distinct_positions_layout (t t' : Table) :
  layout <$> t = layout <$> t' → distinct_positions t → distinct_positions t'.
Proof.
  intros Hl Hd r1' r2' H1 H2 Hp Hpos.
  assert (∀ r', r' ∈ t' → ∃ r, r ∈ t ∧ layout r = layout r') as Hback.
  { intros r' Hr'. assert (layout r' ∈ layout <$> t) as Hin
      by (rewrite Hl; by apply list_elem_of_fmap_2).
    apply list_elem_of_fmap in Hin as (r & Hr & Hin). eauto. }
  destruct (Hback r1' H1) as (r1 & Hr1 & [= Hi1 Hp1 Hz1]).
  destruct (Hback r2' H2) as (r2 & Hr2 & [= Hi2 Hp2 Hz2]).
  rewrite <- Hi1, <- Hi2. apply Hd; congruence.
Qed.

Lemma layout_update_where_id (v : option string) f (t : Table) :
  (∀ r, layout (f r) = layout r) → layout <$> update_where_id v f t = layout <$> t.
Proof.
  intros Hf. unfold update_where_id. rewrite <- list_fmap_compose.
  apply list_fmap_ext. intros _ r _. cbn. by destruct (decide _).
Qed.

Lemma layout_advanced (t t' : Table) : Forall2 advanced t t' → layout <$> t = layout <$> t'.
Proof.
  induction 1 as [|r r' t t' (Hi & _ & Hp & Hz & _) _ IH]; [done|].
  cbn. f_equal; [|done]. unfold layout. congruence.
Qed.

Lemma distinct_positions_sublist (t t' : Table) :
  t' `sublist_of` t → distinct_positions t → distinct_positions t'.
Proof.
  intros Hsub Hd r r' Hr Hr'. apply Hd; by eapply elem_of_sublist.
Qed.

Lemma distinct_positions_nil : distinct_positions [].
Proof. intros r r' Hr. by apply not_elem_of_nil in Hr. Qed.

Lemma distinct_addTask ti p (w : World) :
  (∀ r, r ∈ tasks w → parent_id r = p → safe_position (position r)) →
  distinct_positions (tasks w) → distinct_positions (tasks (addTask ti p w).2).
Proof.
  intros Hsafe Hd. rewrite run_addTask.
  destruct (sql_insert _ _) as [e|t] eqn:E; cbn; [done|].
  rewrite tasks_store. apply sql_insert_inr in E. subst t.
  intros r r' [Hr| ->%list_elem_of_singleton]%elem_of_app
              [Hr'| ->%list_elem_of_singleton]%elem_of_app Hp Hz; [by apply Hd|..|done].
  - pose proof (next_position_after p (tasks w) r Hsafe Hr Hp) as Hlt. cbn in Hz. lia.
  - pose proof (next_position_after p (tasks w) r' Hsafe Hr' (eq_sym Hp)) as Hlt.
    cbn in Hz. lia.
Qed.

Lemma distinct_moveTask v B (w : World) :
  (∀ r, r ∈ tasks w → parent_id r = B → safe_position (position r)) →
  distinct_positions (tasks w) → distinct_positions (tasks (moveTask v B w).2).
Proof.
  intros Hsafe Hd. rewrite run_moveTask. unfold sql_update_parent.
  destruct (_ && _); cbn; [done|]. rewrite tasks_store.
  set (pos := next_position B (tasks w)). set (now := datetime_now w (sql_clock w)).
  assert (∀ r', r' ∈ update_where_id v (set_parent B pos now) (tasks w) →
                (r' ∈ tasks w ∧ ¬ where_id v r') ∨
                (v = Some (id r') ∧ parent_id r' = B ∧ position r' = pos)) as Hcases.
  { unfold update_where_id. intros r' (r & -> & Hr)%list_elem_of_fmap.
    destruct (decide (where_id v r)); [right | left]; done. }
  intros r1 r2 H1 H2 Hp Hz.
  destruct (Hcases r1 H1) as [[Hr1 Hn1]|(Hv1 & Hp1 & Hz1)],
           (Hcases r2 H2) as [[Hr2 Hn2]|(Hv2 & Hp2 & Hz2)].
  - by apply Hd.
  - pose proof (next_position_after B (tasks w) r1 Hsafe Hr1 ltac:(congruence)).
    fold pos in H. lia.
  - pose proof (next_position_after B (tasks w) r2 Hsafe Hr2 ltac:(congruence)).
    fold pos in H. lia.
  - congruence.
Qed.

Lemma keeps_distinct_reorderTask x d :
  keeps (λ t, NoDup (ids t) ∧ distinct_positions t) (reorderTask x d).
Proof.
  intros w [Hnd Hd].
  destruct (reorderTask_cases x d w)
    as [->|(task & me & other & idx & j & w' & Htask & Hfind & Hother & Hdir & -> & Ht)];
    [done|]. cbn [snd].
  destruct (reorderTask_neighbours _ _ _ _ _ _ _ _ Hnd Htask Hfind Hother Hdir)
    as (H1 & H2 & H3 & H4 & H5 & _).
  assert (id other ≠ id task) as Hne by congruence.
  pose proof (swapped_rows task other (datetime_now w (sql_clock w))
                (datetime_now w (S (sql_clock w))) (tasks w) Hne) as Hrows.
  rewrite <- Ht in Hrows. split.
  - assert (ids (tasks w') = ids (tasks w)) as ->; [|done].
    rewrite Ht. by rewrite !ids_update_where_id.
  - intros r1' r2' Hr1' Hr2' Hp Hz.
    destruct (list_elem_of_lookup_1 _ _ Hr1') as [i1 Hi1].
    destruct (list_elem_of_lookup_1 _ _ Hr2') as [i2 Hi2].
    destruct (Forall2_lookup_r _ _ _ _ _ Hrows Hi1) as (r1 & Hl1 & Hs1).
    destruct (Forall2_lookup_r _ _ _ _ _ Hrows Hi2) as (r2 & Hl2 & Hs2).
    apply list_elem_of_lookup_2 in Hl1, Hl2.
    destruct Hs1 as (Hid1 & _ & _ & Hp1 & _ & Hz1 & _).
    destruct Hs2 as (Hid2 & _ & _ & Hp2 & _ & Hz2 & _).
    rewrite Hid1, Hid2.
    assert (∀ r, r ∈ tasks w → id r = id task → r = task) as Htk
      by (intros; by eapply same_id_same_row).
    assert (∀ r, r ∈ tasks w → id r = id other → r = other) as Hot
      by (intros; by eapply same_id_same_row).
    assert (parent_id r1 = parent_id r2) as Hpp by congruence.
    assert (∀ a b, a ∈ tasks w → b ∈ tasks w → parent_id a = parent_id b →
                   position a = position b → id a = id b) as Hd' by exact Hd.
    repeat destruct (decide _) as [?|?] in Hz1; repeat destruct (decide _) as [?|?] in Hz2;
      try congruence.
    all: try (rewrite (Htk r1) in * by done); try (rewrite (Htk r2) in * by done);
         try (rewrite (Hot r1) in * by done); try (rewrite (Hot r2) in * by done).
    all: try (exfalso; apply Hne; apply Hd'; congruence).
    all: try (exfalso; apply Hne; symmetry; apply Hd'; congruence).
    all: first [ apply Hd'; congruence
               | exfalso; match goal with
                 | H : id _ ≠ id _ |- _ => apply H; apply Hd'; congruence
                 end ].
Qed.

Lemma stmt_distinct_update_title v x now :
  stmt_keeps distinct_positions (sql_update_title v x now).
Proof.
  intros t t' H [= <-]. eapply distinct_positions_layout; [|exact H].
  symmetry. by apply layout_update_where_id.
Qed.

Lemma stmt_distinct_update_status v st now :
  stmt_keeps distinct_positions (sql_update_status v st now).
Proof.
  intros t t' H [= <-]. eapply distinct_positions_layout; [|exact H].
  symmetry. by apply layout_update_where_id.
Qed.

Lemma stmt_distinct_delete v : stmt_keeps distinct_positions (sql_delete v).
Proof.
  intros t t' H Hdel. eapply distinct_positions_sublist; [|exact H].
  by eapply sql_delete_sublist.
Qed.

Lemma stmt_distinct_delete_all : stmt_keeps distinct_positions sql_delete_all.
Proof. intros t t' _ ->%sql_delete_all_inr. apply distinct_positions_nil. Qed.

Lemma keeps_distinct_completeTask depth v :
  keeps distinct_positions (completeTask depth v).
Proof.
  intros w H. eapply distinct_positions_layout; [|exact H].
  apply layout_advanced. unfold completeTask.
  rewrite run_bind, run_exec_now. cbn [sql_update_status].
  eapply advanced_trans; [|apply autoCompleteParent_advanced].
  rewrite tasks_store. apply advanced_update_done.
Qed.

Global Hint Resolve stmt_distinct_update_title stmt_distinct_update_status
  stmt_distinct_delete stmt_distinct_delete_all keeps_distinct_completeTask : keeps.

Lemma keeps_distinct_updateTask v a b : keeps distinct_positions (updateTask v a b).
Proof. unfold updateTask. auto 10 with keeps. Qed.

Lemma keeps_distinct_deleteTask v : keeps distinct_positions (deleteTask v).
Proof. unfold deleteTask. auto with keeps. Qed.

Lemma Forall_tail {A : Type} (P : A → Prop) (l : list A) : Forall P l → Forall P (tail l).
Proof. destruct 1; [constructor | done]. Qed.

(** Room for [MAX(position) + 1]. *)

Lemma room_safe (k : nat) (t : Table) (r : TaskRow) :
  room (S k) t → r ∈ t → safe_position (position r).
Proof. intros [_ H] Hr. specialize (H r Hr). unfold safe_position. lia. Qed.

Lemma room_le (k k' : nat) (t : Table) : k ≤ k' → room k' t → room k t.
Proof.
  intros Hk [H1 H2]. split; [lia|]. intros r Hr. specialize (H2 r Hr). lia.
Qed.

Lemma room_sublist (k : nat) (t t' : Table) : t' `sublist_of` t → room k t → room k t'.
Proof. intros Hsub [H1 H2]. split; [done|]. intros r Hr. apply H2. by eapply elem_of_sublist. Qed.

Lemma room_layout (k : nat) (t t' : Table) : layout <$> t = layout <$> t' → room k t → room k t'.
Proof.
  intros Hl [H1 H2]. split; [done|]. intros r' Hr'.
  assert (layout r' ∈ layout <$> t) as Hin by (rewrite Hl; by apply list_elem_of_fmap_2).
  apply list_elem_of_fmap in Hin as (r & [= _ _ Hz] & Hr). rewrite Hz. by apply H2.
Qed.

Lemma room_next_position (k : nat) (p : option string) (t : Table) :
  room (S k) t →
  (- two53 ≤ next_position p t ∧ next_position p t + Z.of_nat k ≤ two53)%Z.
Proof.
  intros Hroom.
  destruct (next_position_exact p t) as [Heq Hb].
  { intros r Hr _. by eapply room_safe. }
  destruct (filter (where_parent p) t) as [|r0 rest] eqn:E.
  - rewrite Heq. cbn. destruct Hroom as [H1 _]. unfold two53 in *. lia.
  - assert (∃ r, r ∈ t ∧ next_position p t = (position r + 1)%Z) as (r & Hr & ->).
    { rewrite Heq. cbn [max_position default].
      assert (∀ zs z, fold_left Z.max zs z = z ∨ fold_left Z.max zs z ∈ zs) as Hfold.
      { induction zs as [|a zs IH]; intros z; [by left|]. cbn.
        destruct (IH (Z.max z a)) as [->|Hin]; [|right; by right].
        destruct (Z.max_spec z a) as [[_ ->]|[_ ->]]; [right; by left | by left]. }
      assert (r0 ∈ filter (where_parent p) t) as Hr0 by (rewrite E; by left).
      destruct (Hfold (position <$> rest) (position r0)) as [->|Hin].
      - exists r0. split; [by apply list_elem_of_filter in Hr0 as [_ ?] | done].
      - apply list_elem_of_fmap in Hin as (r & -> & Hr). exists r. split; [|done].
        assert (r ∈ filter (where_parent p) t) as Hrin by (rewrite E; by right).
        by apply list_elem_of_filter in Hrin as [_ ?]. }
    destruct Hroom as [_ H2]. specialize (H2 r Hr). lia.
Qed.

Lemma room_addTask (k : nat) ti p (w : World) :
  room (S k) (tasks w) → room k (tasks (addTask ti p w).2).
Proof.
  intros Hroom. pose proof (room_next_position k p (tasks w) Hroom) as Hpos.
  pose proof (room_le k (S k) _ ltac:(lia) Hroom) as [H1 H2].
  rewrite run_addTask.
  destruct (sql_insert _ _) as [e|t] eqn:E; cbn; [done|].
  rewrite tasks_store. apply sql_insert_inr in E. subst t. split; [done|].
  intros r [Hr| ->%list_elem_of_singleton]%elem_of_app; [by apply H2 | done].
Qed.

Lemma room_moveTask (k : nat) v B (w : World) :
  room (S k) (tasks w) → room k (tasks (moveTask v B w).2).
Proof.
  intros Hroom. pose proof (room_next_position k B (tasks w) Hroom) as Hpos.
  pose proof (room_le k (S k) _ ltac:(lia) Hroom) as [H1 H2].
  rewrite run_moveTask. unfold sql_update_parent.
  destruct (_ && _); cbn; [done|]. rewrite tasks_store. split; [done|].
  unfold update_where_id. intros r' (r & -> & Hr)%list_elem_of_fmap.
  destruct (decide (where_id v r)); [done | by apply H2].
Qed.

Lemma stmt_room_update_title k v x now : stmt_keeps (room k) (sql_update_title v x now).
Proof.
  intros t t' H [= <-]. eapply room_layout; [|exact H].
  symmetry. by apply layout_update_where_id.
Qed.

Lemma stmt_room_update_status k v st now : stmt_keeps (room k) (sql_update_status v st now).
Proof.
  intros t t' H [= <-]. eapply room_layout; [|exact H].
  symmetry. by apply layout_update_where_id.
Qed.

Lemma stmt_room_delete k v : stmt_keeps (room k) (sql_delete v).
Proof. intros t t' H Hdel. eapply room_sublist; [|exact H]. by eapply sql_delete_sublist. Qed.

Global Hint Resolve stmt_room_update_title stmt_room_update_status stmt_room_delete : keeps.

Lemma keeps_room_updateTask k v a b : keeps (room k) (updateTask v a b).
Proof. unfold updateTask. auto 10 with keeps. Qed.

Lemma keeps_room_deleteTask k v : keeps (room k) (deleteTask v).
Proof. unfold deleteTask. auto with keeps. Qed.

Lemma keeps_room_completeTask k depth v : keeps (room k) (completeTask depth v).
Proof.
  intros w H. eapply room_layout; [|exact H].
  apply layout_advanced. unfold completeTask.
  rewrite run_bind, run_exec_now. cbn [sql_update_status].
  eapply advanced_trans; [|apply autoCompleteParent_advanced].
  rewrite tasks_store. apply advanced_update_done.
Qed.

Lemma distinct_indentTask x d (w : World) :
  room 1 (tasks w) → distinct_positions (tasks w) →
  distinct_positions (tasks (indentTask x d w).2).
Proof.
  intros Hroom Hd.
  assert (∀ B, distinct_positions (tasks ((moveTask (Some x) B;; mret true) w).2)) as Hmove.
  { intros B. rewrite run_bind.
    pose proof (distinct_moveTask (Some x) B w) as H.
    destruct (moveTask (Some x) B w) as [[[]|e] w'] eqn:E; cbn in *;
      apply H; (done || intros r Hr _; by eapply room_safe). }
  unfold indentTask. rewrite run_bind. cbn [query].
  destruct (select_by_id (Some x) (tasks w)) as [task|]; [|done].
  destruct d.
  - rewrite run_bind. cbn [query].
    destruct (list_find _ _) as [[[|idx] me]|]; [done| |done].
    destruct (_ !! idx); [apply Hmove | done].
  - destruct (truthy (parent_id task)); [|done].
    rewrite run_bind. cbn [query].
    destruct (select_by_id _ _); [apply Hmove | done].
Qed.

(** One operation of a batch uses up one unit of room. *)
Lemma apply_operation_placed depth idMap op (k : nat) (w : World) :
  distinct_positions (tasks w) ∧ room (S k) (tasks w) →
  distinct_positions (tasks (apply_operation depth idMap op w).2) ∧
  room k (tasks (apply_operation depth idMap op w).2).
Proof.
  intros [Hd Hroom].
  assert (room k (tasks w)) as Hroom' by (eapply room_le; [|exact Hroom]; lia).
  assert (∀ {A B : Type} (m : Eff A) (f : A → B) (P : Table → Prop),
            P (tasks (m w).2) → P (tasks ((a ← m; mret (f a)) w).2)) as Hthen.
  { intros A B m f P H. rewrite run_bind. by destruct (m w) as [[a|e] w']. }
  destruct op; cbn [apply_operation].
  - split; apply (Hthen _ _ (addTask _ _)).
    + apply distinct_addTask; [|done]. intros r Hr _. by eapply room_safe.
    + by apply room_addTask.
  - split; apply (Hthen _ _ (deleteTask _) (λ _, idMap)).
    + by apply keeps_distinct_deleteTask.
    + by apply keeps_room_deleteTask.
  - split; apply (Hthen _ _ (moveTask _ _) (λ _, idMap)).
    + apply distinct_moveTask; [|done]. intros r Hr _. by eapply room_safe.
    + by apply room_moveTask.
  - split; apply (Hthen _ _ (updateTask _ _ _) (λ _, idMap)).
    + by apply keeps_distinct_updateTask.
    + by apply keeps_room_updateTask.
  - split; apply (Hthen _ _ (completeTask _ _) (λ _, idMap)).
    + by apply keeps_distinct_completeTask.
    + by apply keeps_room_completeTask.
Qed.

Lemma apply_loop_placed depth ops (k : nat) idMap (w : World) :
  distinct_positions (tasks w) ∧ room (length ops + k) (tasks w) →
  distinct_positions (tasks (apply_loop depth idMap ops w).2) ∧
  room k (tasks (apply_loop depth idMap ops w).2).
Proof.
  revert idMap w. induction ops as [|op ops IH]; intros idMap w; cbn [apply_loop length].
  - done.
  - intros H. apply (apply_operation_placed depth idMap op) in H.
    rewrite run_bind. destruct (apply_operation depth idMap op w) as [[idMap'|e] w'];
      cbn [snd] in *.
    + by apply IH.
    + destruct H as [Hd Hroom]. split; [done|].
      apply (room_le k (length ops + k)); [lia | done].
Qed.

Lemma distinct_applyOperations depth ops (w : World) :
  room (length ops) (tasks w) → distinct_positions (tasks w) →
  distinct_positions (tasks (applyOperations depth ops w).2).
Proof.
  intros Hroom Hd. unfold applyOperations. rewrite run_bind. unfold transaction.
  pose proof (apply_loop_placed depth ops 0 ∅ (with_in_transaction true w)) as [H _].
  { rewrite Nat.add_0_r. done. }
  destruct (apply_loop depth ∅ ops _) as [[idMap|e] w']; cbn in *; [|done].
  by rewrite tasks_store.
Qed.


Lemma distinct_positions_check (t : Table) :
  Forall (λ r, Forall (λ r', parent_id r = parent_id r' → position r = position r' →
                             id r = id r') t) t →
  distinct_positions t.
Proof.
  intros H r r' Hr Hr'. rewrite Forall_forall in H. specialize (H r Hr).
  rewrite Forall_forall in H. by apply H.
Qed.

Lemma room_check (k : nat) (t : Table) :
  (Z.of_nat k ≤ two53)%Z →
  Forall (λ r, (- two53 ≤ position r ∧ position r + Z.of_nat k ≤ two53)%Z) t → room k t.
Proof. intros Hk H. split; [done|]. by apply Forall_forall. Qed.


(** ** Indenting and outdenting *)

Lemma run_move_true (A : string) (B : option string) (w : World) :
  (∀ b, B = Some b → b ∈ ids (tasks w)) →
  ∃ w' pos, (moveTask (Some A) B;; mret true) w = (Returned true, w') ∧
    Forall2 (moved A B pos) (tasks w) (tasks w') ∧
    ((∀ r, r ∈ tasks w → parent_id r = B → safe_position (position r)) →
     ∀ r, r ∈ tasks w → parent_id r = B → (position r < pos)%Z).
Proof.
  intros HB. rewrite run_bind, run_moveTask, sql_update_parent_ok by done.
  eexists _, (next_position B (tasks w)). split; [reflexivity|]. rewrite tasks_store.
  split; [apply update_parent_moved|].
  intros Hsafe r Hr Hp. by apply next_position_after.
Qed.

(** X13: outdenting.  In a table that satisfies the schema's constraints,
    a task without a parent (or whose parent id is the empty string) is left
    where it is and [indentTask(id, 'outdent')] returns false; any other
    task becomes a child of its grandparent (a root, if the parent is a
    root), every other row unchanged, and the call returns true; the task
    is placed after all tasks of that group when their positions are safe
    (at least [-2^53] and below [2^53]). *)
Theorem indentTask_outdent (task : TaskRow) (w : World) :
  integrity (tasks w) → task ∈ tasks w →
  match truthy (parent_id task) with
  | None => indentTask (id task) outdent w = (Returned false, w)
  | Some p =>
      ∃ parent w' pos,
        parent ∈ tasks w ∧ id parent = p ∧ parent_id task = Some p ∧
        indentTask (id task) outdent w = (Returned true, w') ∧
        Forall2 (moved (id task) (parent_id parent) pos) (tasks w) (tasks w') ∧
        ((∀ r, r ∈ tasks w → parent_id r = parent_id parent →
               safe_position (position r)) →
         ∀ r, r ∈ tasks w → parent_id r = parent_id parent → (position r < pos)%Z)
  end.
Proof.
  intros [Hnd Hfk] Htask.
  pose proof (select_by_id_unique _ _ Hnd Htask) as Hsel.
  unfold indentTask. rewrite run_bind. cbn [query]. rewrite Hsel.
  destruct (truthy (parent_id task)) as [p|] eqn:Hp; [|done].
  apply truthy_Some in Hp.
  pose proof (Hfk task p Htask Hp) as (parent & Hparent & Hid)%elem_of_ids.
  rewrite run_bind. cbn [query]. rewrite <- Hid.
  rewrite (select_by_id_unique _ _ Hnd Hparent).
  destruct (run_move_true (id task) (parent_id parent) w) as (w' & pos & Hrun & Hrows & Hpos).
  { intros b Hb. by eapply Hfk. }
  exists parent, w', pos. rewrite Hid in *. done.
Qed.

Lemma indentTask_outdent_witness :
  (integrity (tasks (world_of chain_and_root)) ∧
   (∀ r, r ∈ tasks (world_of chain_and_root) → safe_position (position r)) ∧
   example_row "01C" todo (Some "01B") 0 ∈ tasks (world_of chain_and_root)) ∧
  ∃ parent w' pos,
    parent ∈ tasks (world_of chain_and_root) ∧ id parent = "01B" ∧
    parent_id (example_row "01C" todo (Some "01B") 0) = Some "01B" ∧
    indentTask "01C" outdent (world_of chain_and_root) = (Returned true, w') ∧
    Forall2 (moved "01C" (parent_id parent) pos)
      (tasks (world_of chain_and_root)) (tasks w') ∧
    (∀ r, r ∈ tasks (world_of chain_and_root) → parent_id r = parent_id parent →
          (position r < pos)%Z).
Proof.
  assert (example_row "01C" todo (Some "01B") 0 ∈ tasks (world_of chain_and_root)) as H
    by (apply (bool_decide_unpack _); vm_compute; reflexivity).
  assert (∀ r, r ∈ tasks (world_of chain_and_root) → safe_position (position r)) as Hsafe
    by (apply Forall_forall, (bool_decide_unpack _); vm_compute; reflexivity).
  split; [split_and!; [apply integrity_chain_and_root | exact Hsafe | exact H]|].
  destruct (indentTask_outdent (example_row "01C" todo (Some "01B") 0)
              (world_of chain_and_root) integrity_chain_and_root H)
    as (parent & w' & pos & H1 & H2 & H3 & H4 & H5 & H6).
  exists parent, w', pos. split_and!; [done..|].
  apply H6. intros r Hr _. by apply Hsafe.
Defined.

(** X14: indenting.  In a table with unique ids, a task that comes first
    in its sibling group is left where it is and [indentTask(id, 'indent')]
    returns false; a task with a sibling of smaller position becomes a child
    of the sibling that immediately precedes it in position order, every
    other row unchanged, and the call returns true; the task is placed after
    that sibling's children when their positions are safe (at least [-2^53]
    and below [2^53]). *)
Theorem indentTask_indent (task : TaskRow) (w : World) :
  NoDup (ids (tasks w)) → task ∈ tasks w →
  ((∀ c, c ∈ tasks w → parent_id c = parent_id task → id c ≠ id task →
         (position task < position c)%Z) →
   indentTask (id task) indent w = (Returned false, w)) ∧
  ((∃ c, c ∈ tasks w ∧ parent_id c = parent_id task ∧ (position c < position task)%Z) →
   ∃ prev w' pos,
     prev ∈ tasks w ∧ parent_id prev = parent_id task ∧ id prev ≠ id task ∧
     (position prev ≤ position task)%Z ∧
     (∀ c, c ∈ tasks w → parent_id c = parent_id task → id c ≠ id task →
           id c ≠ id prev → (position c ≤ position prev ∨ position task ≤ position c)%Z) ∧
     indentTask (id task) indent w = (Returned true, w') ∧
     Forall2 (moved (id task) (Some (id prev)) pos) (tasks w) (tasks w') ∧
     ((∀ r, r ∈ tasks w → parent_id r = Some (id prev) → safe_position (position r)) →
      ∀ r, r ∈ tasks w → parent_id r = Some (id prev) → (position r < pos)%Z)).
Proof.
  intros Hnd Htask.
  pose proof (select_by_id_unique _ _ Hnd Htask) as Hsel.
  destruct (find_among_siblings _ _ Hnd Htask) as (idx & Hfind & Hidx).
  pose proof (NoDup_select_siblings (parent_id task) (tasks w) Hnd) as Hnds.
  pose proof (order_by_position_ascending
                (filter (where_parent (parent_id task)) (tasks w))) as Hasc.
  fold (select_siblings (parent_id task) (tasks w)) in Hasc.
  assert (indentTask (id task) indent w =
          match idx with
          | O => (Returned false, w)
          | S j => match select_siblings (parent_id task) (tasks w) !! j with
                   | None => (Returned false, w)
                   | Some prev => (moveTask (Some (id task)) (Some (id prev));; mret true) w
                   end
          end) as Hrun.
  { unfold indentTask. rewrite run_bind. cbn [query]. rewrite Hsel.
    rewrite run_bind. cbn [query]. rewrite Hfind.
    destruct idx as [|j]; [done|]. by destruct (_ !! j). }
  set (s := select_siblings (parent_id task) (tasks w)) in *.
  split.
  - intros Hfirst. rewrite Hrun. destruct idx as [|j]; [done|].
    destruct (s !! j) as [c|] eqn:Hc; [|done]. exfalso.
    pose proof Hc as [Hct Hcp]%list_elem_of_lookup_2%elem_of_select_siblings.
    assert (id c ≠ id task) as Hne.
    { intros Hid. assert (c = task) as -> by (by eapply same_id_same_row).
      pose proof (NoDup_lookup _ _ _ _ Hnds Hc Hidx). lia. }
    pose proof (Hfirst c Hct Hcp Hne).
    pose proof (ascending_lookup s j (S j) c task Hasc ltac:(lia) Hc Hidx). lia.
  - intros (c & Hc & Hp & Hlt).
    assert (c ∈ s) as [k Hk]%list_elem_of_lookup by (by apply elem_of_select_siblings).
    assert (k < idx) as Hki.
    { destruct (decide (k < idx)); [done|]. exfalso.
      destruct (decide (k = idx)) as [->|]; [assert (c = task) by congruence; subst; lia|].
      pose proof (ascending_lookup s idx k task c Hasc ltac:(lia) Hidx Hk). lia. }
    destruct idx as [|j]; [lia|].
    destruct (s !! j) as [prev|] eqn:Ho;
      [|apply lookup_ge_None in Ho; apply lookup_lt_Some in Hidx; lia].
    destruct (reorderTask_neighbours (tasks w) (id task) up task task prev (S j) j
                Hnd Hsel Hfind Ho eq_refl) as (_ & H2 & _ & H4 & H5 & H6 & H7).
    destruct (run_move_true (id task) (Some (id prev)) w) as (w' & pos & Hm & Hrows & Hpos).
    { intros b [= <-]. apply elem_of_ids. eauto. }
    exists prev, w', pos. rewrite Hrun. done.
Qed.

Lemma indentTask_indent_witness :
  (NoDup (ids (tasks (world_of chain_and_root))) ∧
   (∀ r, r ∈ tasks (world_of chain_and_root) → safe_position (position r)) ∧
   example_row "01D" todo None 1 ∈ tasks (world_of chain_and_root) ∧
   ∃ c, c ∈ tasks (world_of chain_and_root) ∧
        parent_id c = parent_id (example_row "01D" todo None 1) ∧
        (position c < position (example_row "01D" todo None 1))%Z) ∧
  ∃ prev w' pos,
    prev ∈ tasks (world_of chain_and_root) ∧ parent_id prev = None ∧ id prev ≠ "01D" ∧
    indentTask "01D" indent (world_of chain_and_root) = (Returned true, w') ∧
    Forall2 (moved "01D" (Some (id prev)) pos) (tasks (world_of chain_and_root)) (tasks w') ∧
    (∀ r, r ∈ tasks (world_of chain_and_root) → parent_id r = Some (id prev) →
          (position r < pos)%Z).
Proof.
  assert (NoDup (ids (tasks (world_of chain_and_root)))) as H1
    by (apply (bool_decide_unpack _); vm_compute; reflexivity).
  assert (example_row "01D" todo None 1 ∈ tasks (world_of chain_and_root)) as H2
    by (apply (bool_decide_unpack _); vm_compute; reflexivity).
  assert (∃ c, c ∈ tasks (world_of chain_and_root) ∧
               parent_id c = parent_id (example_row "01D" todo None 1) ∧
               (position c < position (example_row "01D" todo None 1))%Z) as H3.
  { exists (example_row "01A" todo None 0). split_and!; [|done|done].
    apply (bool_decide_unpack _); vm_compute; reflexivity. }
  assert (∀ r, r ∈ tasks (world_of chain_and_root) → safe_position (position r)) as Hsafe
    by (apply Forall_forall, (bool_decide_unpack _); vm_compute; reflexivity).
  split; [done|].
  destruct (indentTask_indent (example_row "01D" todo None 1) (world_of chain_and_root)
              H1 H2) as [_ Hmove].
  destruct (Hmove H3) as (prev & w' & pos & Hin & Hp & Hne & _ & _ & Hrun & Hrows & Hlast).
  exists prev, w', pos. split_and!; [done..|].
  apply Hlast. intros r Hr _. by apply Hsafe.
Defined.

(** ** The undo stack seen from outside *)

(** X15: [canUndo] and [undoDepth] read the stack without changing
    anything, and they predict [undo]: when [canUndo()] is false, [undo()]
    returns false and changes nothing; when it is true, [undo()] does not
    return false, and it consumes exactly one snapshot whether the restore
    commits or throws (the snapshot is popped before the transaction, and a
    failed restore does not push it back). *)
Theorem canUndo_predicts_undo (w : World) :
  ∃ b n, canUndo w = (Returned b, w) ∧ undoDepth w = (Returned n, w) ∧
         (b = true ↔ 0 < n) ∧
         (b = false → undo w = (Returned false, w)) ∧
         (b = true →
          (undo w).1 ≠ Returned false ∧
          undoDepth (undo w).2 = (Returned (n - 1), (undo w).2)).
Proof.
  exists (bool_decide (0 < length (undoStack w))), (length (undoStack w)).
  split; [done|]. split; [done|]. split; [apply bool_decide_eq_true|].
  pose proof (run_undo w) as Hu. split.
  - intros Hb%bool_decide_eq_false. apply undo_empty_stack.
    destruct (undoStack w); [done | cbn in Hb; lia].
  - intros Hb%bool_decide_eq_true.
    destruct (last (undoStack w)) as [snapshot|] eqn:Hl.
    + destruct Hu as (w' & Hs & _ & [[-> _]|(e & -> & _)]); cbn [fst snd];
        (split; [done|]); unfold undoDepth; rewrite run_bind; cbn [get_undoStack];
        rewrite Hs, removelast_firstn_len, length_take;
        cbv [mret Eff_ret]; repeat f_equal; lia.
    + apply last_None in Hl. rewrite Hl in Hb. cbn in Hb. lia.
Qed.

(** ** The task tree *)

Lemma map_set_fresh (k : string) (v : TaskObject) (m : JsMap) :
  k ∉ m.*1 → map_set k v m = m ++ [(k, v)].
Proof.
  induction m as [|[k' v'] m IH]; cbn; [done|]. intros Hk.
  apply not_elem_of_cons in Hk as [Hne Hk].
  rewrite decide_False by done. by rewrite IH.
Qed.

Lemma build_map_spec (rows : Table) :
  NoDup (ids rows) →
  build_map rows = (λ r, (id r, object_of [] r)) <$> rows.
Proof.
  unfold build_map.
  assert (∀ m, NoDup (m.*1 ++ ids rows) →
    fold_left (λ m row, map_set (id row) {| fields := row_to_task row; children := [] |} m)
      rows m = m ++ ((λ r, (id r, object_of [] r)) <$> rows)) as Hgen.
  { induction rows as [|r rows IH]; intros m Hnd; cbn; [by rewrite app_nil_r|].
    cbn in Hnd. apply NoDup_app in Hnd as (Hm & Hdisj & Hrows).
    apply NoDup_cons in Hrows as [Hr Hrows].
    rewrite map_set_fresh by (intros Hin; apply (Hdisj _ Hin); by left).
    rewrite IH.
    - by rewrite <- app_assoc.
    - rewrite fmap_app. cbn. apply NoDup_app. split_and!.
      + apply NoDup_app. split_and!; [done| |by apply NoDup_singleton].
        intros x Hx ->%list_elem_of_singleton. apply (Hdisj _ Hx). by left.
      + intros x [Hx| ->%list_elem_of_singleton]%elem_of_app; [|done].
        intros Hin. apply (Hdisj _ Hx). by right.
      + done. }
  intros Hnd. by rewrite (Hgen [] Hnd).
Qed.

Lemma heap_keys (rows seen : Table) : (heap (forest_of rows seen)).*1 = ids rows.
Proof. cbn. rewrite <- list_fmap_compose. done. Qed.

Lemma forest_eq (f g : Forest) : heap f = heap g → roots f = roots g → f = g.
Proof. destruct f, g. cbn. by intros -> ->. Qed.

Lemma link_step (rows seen : Table) (r : TaskRow) :
  NoDup (ids rows) →
  link (forest_of rows seen) (row_to_task r) = forest_of rows (seen ++ [r]).
Proof.
  intros Hnd. unfold link. cbn [row_to_task parentId task_id].
  assert (∀ p, truthy (parent_id r) = Some p →
               push_child p (id r) (heap (forest_of rows seen))
               = heap (forest_of rows (seen ++ [r]))) as Hpush.
  { intros p Hp. cbn. unfold push_child. rewrite <- list_fmap_compose.
    apply list_fmap_ext. intros _ a _. cbn. unfold object_of. cbn.
    rewrite filter_app, fmap_app. rewrite filter_cons, filter_nil.
    destruct (decide (id a = p)) as [<-|Hne].
    - rewrite decide_True by done. done.
    - rewrite decide_False by (unfold child_of; congruence). cbn. by rewrite app_nil_r. }
  assert ((∀ a, a ∈ rows → ¬ child_of a r) →
          heap (forest_of rows seen) = heap (forest_of rows (seen ++ [r]))) as Hsame.
  { intros Hno. cbn. apply list_fmap_ext. intros _ a Ha%list_elem_of_lookup_2.
    unfold object_of. rewrite filter_app, filter_cons, filter_nil.
    rewrite decide_False by by apply Hno. by rewrite app_nil_r. }
  assert (is_root rows r →
          roots (forest_of rows seen) ++ [id r] = roots (forest_of rows (seen ++ [r])))
    as Hroot.
  { intros Hr. cbn. rewrite filter_app, filter_cons, filter_nil.
    rewrite decide_True by done. by rewrite fmap_app. }
  assert (¬ is_root rows r →
          roots (forest_of rows seen) = roots (forest_of rows (seen ++ [r]))) as Hnoroot.
  { intros Hr. cbn. rewrite filter_app, filter_cons, filter_nil.
    rewrite decide_False by done. by rewrite app_nil_r. }
  destruct (truthy (parent_id r)) as [p|] eqn:Hp.
  - unfold map_has. rewrite heap_keys. destruct (bool_decide (p ∈ ids rows)) eqn:Hin.
    + apply bool_decide_eq_true_1 in Hin. apply forest_eq; cbn [heap roots].
      * by apply Hpush.
      * apply Hnoroot. unfold is_root. rewrite Hp. by intros ?.
    + apply bool_decide_eq_false_1 in Hin. apply forest_eq; cbn [heap roots].
      * apply Hsame. intros a Ha Hc. unfold child_of in Hc. apply Hin.
        apply elem_of_ids. exists a. split; [done|]. congruence.
      * apply Hroot. unfold is_root. by rewrite Hp.
  - apply forest_eq; cbn [heap roots].
    + apply Hsame. intros a Ha Hc. unfold child_of in Hc. congruence.
    + apply Hroot. unfold is_root. by rewrite Hp.
Qed.

Lemma link_loop (rows seen rest : Table) :
  NoDup (ids rows) →
  fold_left link (row_to_task <$> rest) (forest_of rows seen) = forest_of rows (seen ++ rest).
Proof.
  intros Hnd. revert seen. induction rest as [|r rest IH]; intros seen; cbn.
  - by rewrite app_nil_r.
  - rewrite link_step by done. rewrite IH. by rewrite <- app_assoc.
Qed.

Lemma run_getTasks (w : World) :
  NoDup (ids (tasks w)) →
  getTasks w = (Returned (forest_of (order_by_position (tasks w))
                            (order_by_position (tasks w))), w).
Proof.
  intros Hnd. unfold getTasks. rewrite run_bind. cbn [query].
  set (rows := order_by_position (tasks w)).
  assert (NoDup (ids rows)) as Hrows.
  { unfold ids, rows. by rewrite order_by_position_perm. }
  rewrite build_map_spec by done.
  change ((λ r, (id r, object_of [] r)) <$> rows) with (heap (forest_of rows [])).
  replace (fields <$> (heap (forest_of rows [])).*2) with (row_to_task <$> rows).
  - change {| heap := heap (forest_of rows []); roots := [] |} with (forest_of rows []).
    by rewrite link_loop.
  - cbn. rewrite <- !list_fmap_compose. done.
Qed.

Lemma NoDup_rows (t : Table) : NoDup (ids t) → NoDup t.
Proof. intros H. by eapply NoDup_fmap_1. Qed.

Lemma child_of_unique (t : Table) (a b c : TaskRow) :
  NoDup (ids t) → a ∈ t → b ∈ t → child_of a c → child_of b c → a = b.
Proof.
  intros Hnd Ha Hb Hac Hbc. unfold child_of in *.
  eapply same_id_same_row; eauto. congruence.
Qed.

Lemma level_elem_of (t : Table) (r : TaskRow) (n : nat) : level t r n → r ∈ t.
Proof. by destruct 1. Qed.

Lemma below_elem_of (t : Table) (a r : TaskRow) (k : nat) : below t a k r → a ∈ t ∧ r ∈ t.
Proof. induction 1 as [a Ha|a c k r Ha Hc Hac Hb [_ IH]]; done. Qed.

Lemma child_not_root (t : Table) (p r : TaskRow) : p ∈ t → child_of p r → ¬ is_root t r.
Proof.
  unfold child_of, is_root. intros Hp -> Hroot. apply Hroot, elem_of_ids. eauto.
Qed.

Lemma level_unique (t : Table) (r : TaskRow) (n m : nat) :
  NoDup (ids t) → level t r n → level t r m → n = m.
Proof.
  intros Hnd Hn. revert m. induction Hn as [r Hr Hroot|p r n Hp IH Hr Hc]; intros m Hm.
  - destruct Hm as [|p' r m Hp' _ Hc']; [done|].
    exfalso. exact (child_not_root t p' r (level_elem_of _ _ _ Hp') Hc' Hroot).
  - destruct Hm as [r _ Hroot|p' r m Hp' _ Hc'].
    + exfalso. exact (child_not_root t p r (level_elem_of _ _ _ Hp) Hc Hroot).
    + f_equal. apply IH.
      by rewrite (child_of_unique t p p' r Hnd (level_elem_of _ _ _ Hp)
                    (level_elem_of _ _ _ Hp') Hc Hc').
Qed.

Lemma below_level (t : Table) (a r : TaskRow) (d k : nat) :
  below t a k r → level t a d → level t r (d + k).
Proof.
  intros Hb. revert d. induction Hb as [a Ha|a c k r Ha Hc Hac Hb IH]; intros d Hd.
  - by rewrite Nat.add_0_r.
  - replace (d + S k) with (S d + k) by lia. apply IH. by eapply level_child.
Qed.

Lemma below_snoc (t : Table) (a p r : TaskRow) (k : nat) :
  below t a k p → r ∈ t → child_of p r → below t a (S k) r.
Proof.
  intros Hb. revert r. induction Hb as [a Ha|a c k p Ha Hc' Hac Hb IH]; intros r Hr Hc.
  - apply (below_step t a r 0 r); [done..|]. by apply below_self.
  - apply (below_step t a c (S k) r); [done..|]. by apply IH.
Qed.

Lemma level_below (t : Table) (r : TaskRow) (n : nat) :
  level t r n → ∃ a, a ∈ t ∧ is_root t a ∧ below t a n r.
Proof.
  induction 1 as [r Hr Hroot|p r n Hp (a & Ha & Hroot & Hb) Hr Hc].
  - exists r. split_and!; [done..|by apply below_self].
  - exists a. split_and!; [done..|by eapply below_snoc].
Qed.

Lemma below_up_unique (t : Table) (a b r : TaskRow) (k : nat) :
  NoDup (ids t) → below t a k r → below t b k r → a = b.
Proof.
  intros Hnd Ha. revert b. induction Ha as [a Ha|a c k r Ha Hc Hac Hb IH]; intros b Hb'.
  - by inversion Hb'.
  - inversion Hb' as [|b' c' k' r' Hb0 Hc0 Hbc Hbelow]; subst.
    pose proof (IH _ Hbelow) as ->. by eapply child_of_unique.
Qed.

(** A task [n] steps below a root has [n] distinct ancestors. *)
Lemma level_lt (t : Table) (r : TaskRow) (n : nat) :
  NoDup (ids t) → level t r n → n < length t.
Proof.
  intros Hnd Hl.
  assert (∃ chain : list TaskRow, length chain = S n ∧ NoDup chain ∧
            (∀ q, q ∈ chain → ∃ m, m ≤ n ∧ level t q m)) as (chain & Hlen & Hch & Hall).
  { induction Hl as [r Hr Hroot|p r n Hp (chain & Hlen & Hch & Hall) Hr Hc].
    - exists [r]. split_and!; [done|by apply NoDup_singleton|].
      intros q ->%list_elem_of_singleton. exists 0. split; [done|]. by apply level_root.
    - exists (r :: chain). split_and!; [cbn; lia| |].
      + apply NoDup_cons. split; [|done]. intros (m & Hm & Hlm)%Hall.
        pose proof (level_unique t r m (S n) Hnd Hlm
                      (level_child t p r n Hp Hr Hc)). lia.
      + intros q [->|Hq]%elem_of_cons.
        * exists (S n). split; [done|]. by eapply level_child.
        * destruct (Hall q Hq) as (m & Hm & Hlm). exists m. split; [lia|done]. }
  assert (chain ⊆+ t) as Hsub.
  { apply NoDup_submseteq; [done|]. intros q (m & _ & Hq)%Hall. by eapply level_elem_of. }
  apply submseteq_length in Hsub. lia.
Qed.

Lemma listing_nil (k : nat) (rows : Table) (d : nat) : listing k rows [] d = [].
Proof. by destruct k. Qed.

Lemma elem_of_listing (k : nat) (rows rs : Table) (d : nat) (r : TaskRow) (n : nat) :
  (∀ a, a ∈ rs → a ∈ rows) →
  (r, n) ∈ listing k rows rs d ↔ ∃ a j, a ∈ rs ∧ below rows a j r ∧ n = d + j ∧ j < k.
Proof.
  revert rs d n. induction k as [|k IH]; intros rs d n Hrs; cbn [listing].
  - split; [by intros ?%not_elem_of_nil | intros (? & ? & ? & ? & ? & ?); lia].
  - rewrite list_elem_of_bind. split.
    + intros (a & [[= -> ->]|Hin]%elem_of_cons & Ha).
      * exists a, 0. split_and!; [done|by apply below_self, Hrs|lia|lia].
      * apply IH in Hin as (c & j & [Hc Hac]%list_elem_of_filter & Hb & -> & Hj).
        -- exists a, (S j). split_and!; [done| |lia|lia].
           eapply below_step; eauto.
        -- by intros c [_ Hc]%list_elem_of_filter.
    + intros (a & j & Ha & Hb & -> & Hj). exists a. split; [|done].
      inversion Hb as [|a' c k' r' Ha' Hc Hac Hbelow]; subst.
      * apply elem_of_cons. left. f_equal. lia.
      * apply elem_of_cons. right. apply IH; [by intros c' [_ Hc']%list_elem_of_filter|].
        exists c, k'. split_and!; [by apply list_elem_of_filter|done|lia|lia].
Qed.

Lemma NoDup_listing (k : nat) (rows rs : Table) (d : nat) :
  NoDup (ids rows) → NoDup rs → (∀ a, a ∈ rs → level rows a d) →
  NoDup (listing k rows rs d).*1.
Proof.
  intros Hnd. revert rs d. induction k as [|k IH]; intros rs d Hrs Hlev; cbn [listing].
  { constructor. }
  assert (∀ a, a ∈ rs → a ∈ rows) as Hsub by (intros a Ha; eapply level_elem_of; eauto).
  induction rs as [|r0 rest IHrest]; [constructor|].
  apply NoDup_cons in Hrs as [Hr0 Hrest].
  assert (∀ a, a ∈ rest → level rows a d) as Hlev' by (intros; apply Hlev; by right).
  assert (∀ a, a ∈ rest → a ∈ rows) as Hsub' by (intros; apply Hsub; by right).
  assert (level rows r0 d) as Hl0 by (apply Hlev; by left).
  assert (∀ c, c ∈ filter (child_of r0) rows → c ∈ rows) as Hkids
    by (by intros c [_ Hc]%list_elem_of_filter).
  assert (∀ c, c ∈ filter (child_of r0) rows → level rows c (S d)) as Hkl.
  { intros c [Hc Hin]%list_elem_of_filter. by eapply level_child. }
  specialize (IHrest Hrest Hlev' Hsub').
  change ((r0 :: rest) ≫= ?f) with (f r0 ++ (rest ≫= f)).
  rewrite fmap_app. cbn [fmap list_fmap fst].
  set (sub := listing k rows (filter (child_of r0) rows) (S d)) in *.
  set (others := rest ≫= _) in *.
  assert (∀ r, r ∈ sub.*1 → ∃ j, level rows r (S d + j) ∧ below rows r0 (S j) r) as Hsub_in.
  { intros r ([r' n] & -> & Hin)%list_elem_of_fmap. cbn.
    apply elem_of_listing in Hin as (c & j & Hc & Hb & -> & _); [|done].
    exists j. split; [exact (below_level rows c r' (S d) j Hb (Hkl c Hc))|].
    apply list_elem_of_filter in Hc as [Hc Hin].
    apply (below_step rows r0 c j r'); [by eapply level_elem_of|done..]. }
  assert (∀ r, r ∈ others.*1 → ∃ a j, a ∈ rest ∧ below rows a j r) as Hothers_in.
  { intros r ([r' n] & -> & Hin)%list_elem_of_fmap. cbn.
    change others with (listing (S k) rows rest d) in Hin.
    apply elem_of_listing in Hin as (a & j & Ha & Hb & _); [|done]. eauto. }
  apply NoDup_cons. split.
  - intros [Hin|Hin]%elem_of_app.
    + destruct (Hsub_in _ Hin) as (j & Hl & _).
      pose proof (level_unique _ _ _ _ Hnd Hl0 Hl). lia.
    + destruct (Hothers_in _ Hin) as (a & j & Ha & Hb).
      pose proof (below_level _ _ _ d _ Hb (Hlev' a Ha)) as Hl.
      pose proof (level_unique _ _ _ _ Hnd Hl0 Hl). assert (j = 0) as -> by lia.
      inversion Hb; subst. done.
  - apply NoDup_app. split_and!.
    + apply IH; [|done]. apply NoDup_filter. by apply NoDup_rows.
    + intros r Hin1 Hin2.
      destruct (Hsub_in _ Hin1) as (j & Hl & Hb0).
      destruct (Hothers_in _ Hin2) as (a & j' & Ha & Hb).
      pose proof (below_level _ _ _ d _ Hb (Hlev' a Ha)) as Hl'.
      pose proof (level_unique _ _ _ _ Hnd Hl Hl'). assert (j' = S j) as -> by lia.
      pose proof (below_up_unique _ _ _ _ _ Hnd Hb0 Hb). by subst.
    + done.
Qed.

Lemma map_get_forest (rows seen : Table) (r : TaskRow) :
  NoDup (ids rows) → r ∈ rows →
  map_get (id r) (heap (forest_of rows seen)) = Some (object_of seen r).
Proof.
  intros Hnd Hr. unfold map_get. cbn [heap forest_of].
  induction rows as [|a rows IH]; [by apply not_elem_of_nil in Hr|].
  cbn in Hnd. apply NoDup_cons in Hnd as [Ha Hnd].
  rewrite fmap_cons. cbn [filter list_filter fst].
  apply elem_of_cons in Hr as [->|Hr].
  - by rewrite decide_True.
  - rewrite decide_False; [by apply IH|].
    intros Heq. apply Ha, elem_of_ids. exists r. done.
Qed.

Lemma number_loop_spec (rec : list string → nat → option (list (Task * nat)))
    (m : JsMap) (rows : Table) (f d : nat) (rs : Table) (acc : list (Task * nat)) :
  (∀ r, r ∈ rs → map_get (id r) m = Some (object_of rows r)) →
  (∀ r, r ∈ rs → filter (child_of r) rows ≠ [] →
        rec (id <$> filter (child_of r) rows) (S d)
        = Some (numbered <$> listing f rows (filter (child_of r) rows) (S d))) →
  number_loop rec m d (id <$> rs) acc = Some (acc ++ (numbered <$> listing (S f) rows rs d)).
Proof.
  revert acc. induction rs as [|r rs IH]; intros acc Hget Hrec.
  - cbn. by rewrite app_nil_r.
  - cbn [fmap list_fmap number_loop]. rewrite Hget by by left.
    cbn [object_of fields children]. rewrite length_fmap.
    change (listing (S f) rows (r :: rs) d)
      with (((r, d) :: listing f rows (filter (child_of r) rows) (S d))
              ++ listing (S f) rows rs d).
    rewrite fmap_app, fmap_cons.
    change (numbered (r, d)) with (row_to_task r, d).
    destruct (filter (child_of r) rows) as [|c kids] eqn:Hkids.
    + rewrite bool_decide_eq_false_2 by (cbn; lia).
      rewrite IH; [|intros; apply Hget; by right|intros; apply Hrec; [by right|done]].
      rewrite listing_nil. cbn [fmap list_fmap]. by rewrite <- app_assoc.
    + rewrite bool_decide_eq_true_2 by (cbn; lia).
      rewrite <- Hkids in *. rewrite Hrec; [|by left|by rewrite Hkids].
      rewrite IH; [|intros; apply Hget; by right|intros; apply Hrec; [by right|done]].
      f_equal. rewrite <- !app_assoc. done.
Qed.

Lemma numberTasks_listing (rows : Table) (fuel d : nat) (rs : Table) :
  NoDup (ids rows) → 0 < fuel → length rows < fuel + d →
  (∀ r, r ∈ rs → level rows r d) →
  numberTasks fuel (heap (forest_of rows rows)) (id <$> rs) d
  = Some (numbered <$> listing fuel rows rs d).
Proof.
  intros Hnd. revert d rs. induction fuel as [|f IH]; intros d rs Hpos Hlen Hlev; [lia|].
  cbn [numberTasks]. rewrite (number_loop_spec _ _ rows f); [done|..].
  - intros r Hr. apply map_get_forest; [done|]. eapply level_elem_of; eauto.
  - intros r Hr Hkids.
    assert (∀ c, c ∈ filter (child_of r) rows → level rows c (S d)) as Hkl.
    { intros c [Hc Hin]%list_elem_of_filter. eapply level_child; eauto. }
    apply IH; [|lia|done].
    destruct (filter (child_of r) rows) as [|c kids]; [done|].
    pose proof (level_lt rows c (S d) Hnd (Hkl c ltac:(by left))). lia.
Qed.

Lemma level_perm (t t' : Table) (r : TaskRow) (n : nat) :
  t ≡ₚ t' → level t r n → level t' r n.
Proof.
  intros Hp. induction 1 as [r Hr Hroot|p r n Hp' IH Hr Hc].
  - apply level_root; [by rewrite <- Hp|].
    unfold is_root, ids in *. destruct (truthy (parent_id r)); [|done].
    by rewrite <- Hp.
  - eapply level_child; [done|by rewrite <- Hp|done].
Qed.

(** The listing that [numberTasks(getTasks())] computes. *)
Lemma numberTasks_getTasks_rows (w : World) :
  NoDup (ids (tasks w)) →
  ∃ f, getTasks w = (Returned f, w) ∧
       ∀ fuel, length (tasks w) < fuel →
         ∃ L, numberTasks fuel (heap f) (roots f) 0 = Some (numbered <$> L) ∧
              NoDup L.*1 ∧
              (∀ r n, (r, n) ∈ L ↔ level (tasks w) r n).
Proof.
  intros Hnd. eexists. split; [by apply run_getTasks|].
  set (rows := order_by_position (tasks w)).
  assert (rows ≡ₚ tasks w) as Hperm by apply order_by_position_perm.
  assert (NoDup (ids rows)) as Hrows by (unfold ids; by rewrite Hperm).
  assert (∀ a, a ∈ filter (is_root rows) rows → level rows a 0) as Hroots.
  { intros a [Ha Hin]%list_elem_of_filter. by apply level_root. }
  intros fuel Hfuel. exists (listing fuel rows (filter (is_root rows) rows) 0).
  assert (length rows = length (tasks w)) as Hlen by by rewrite Hperm.
  split_and!.
  - cbn [heap roots forest_of]. apply numberTasks_listing; [done|lia|lia|done].
  - apply NoDup_listing; [done| |done]. apply NoDup_filter. by apply NoDup_rows.
  - intros r n. rewrite elem_of_listing by (by intros a [_ Ha]%list_elem_of_filter).
    split.
    + intros (a & j & Ha & Hb & -> & _). apply (level_perm rows); [done|].
      apply (below_level rows a r 0 j Hb). by apply Hroots.
    + intros Hl%(level_perm _ rows); [|done].
      pose proof (level_lt rows r n Hrows Hl).
      apply level_below in Hl as (a & Ha & Hroot & Hb).
      exists a, n. split_and!; [by apply list_elem_of_filter|done|lia|lia].
Qed.

(** X16: the numbered list of the command line.  For a table with unique
    ids, [getTasks] returns without changing anything, and
    [numberTasks(getTasks())] returns whenever the call stack allows more
    frames than there are tasks; the list contains no task twice, and it
    contains a task at depth [n] exactly when the task is [n] steps below a
    root, a root being a task whose parent is null, the empty string, or not
    in the table. *)
Theorem numberTasks_getTasks (w : World) :
  NoDup (ids (tasks w)) →
  ∃ f, getTasks w = (Returned f, w) ∧
       ∀ fuel, length (tasks w) < fuel →
         ∃ out, numberTasks fuel (heap f) (roots f) 0 = Some out ∧
                NoDup (task_id ∘ fst <$> out) ∧
                (∀ task n, (task, n) ∈ out ↔
                           ∃ r, task = row_to_task r ∧ level (tasks w) r n).
Proof.
  intros Hnd. destruct (numberTasks_getTasks_rows w Hnd) as (f & Hf & Hlist).
  exists f. split; [done|]. intros fuel Hfuel.
  destruct (Hlist fuel Hfuel) as (L & Hrun & HL & Hin).
  exists (numbered <$> L). split_and!; [done| |].
  - rewrite <- list_fmap_compose.
    change (task_id ∘ fst ∘ numbered) with (id ∘ (fst : TaskRow * nat → TaskRow)).
    rewrite list_fmap_compose. apply NoDup_fmap_2_strong; [|done].
    intros a b [[a' n] [-> Ha]]%list_elem_of_fmap [[b' m] [-> Hb]]%list_elem_of_fmap.
    apply Hin in Ha, Hb. apply level_elem_of in Ha, Hb. cbn.
    by apply (same_id_same_row (tasks w)).
  - intros task n. rewrite list_elem_of_fmap. split.
    + intros ([r m] & [= -> ->] & Hr). exists r. split; [done|]. by apply Hin.
    + intros (r & -> & Hl). exists (r, n). split; [done|]. by apply Hin.
Qed.

Lemma numberTasks_getTasks_witness :
  NoDup (ids (tasks (world_of chain_and_root))) ∧
  ∃ f, getTasks (world_of chain_and_root) = (Returned f, world_of chain_and_root) ∧
       ∀ fuel, length (tasks (world_of chain_and_root)) < fuel →
         ∃ out, numberTasks fuel (heap f) (roots f) 0 = Some out ∧
                NoDup (task_id ∘ fst <$> out) ∧
                (∀ task n, (task, n) ∈ out ↔
                   ∃ r, task = row_to_task r ∧ level (tasks (world_of chain_and_root)) r n).
Proof.
  assert (NoDup (ids (tasks (world_of chain_and_root)))) as H
    by (apply (bool_decide_unpack _); vm_compute; reflexivity).
  split; [exact H|]. exact (numberTasks_getTasks (world_of chain_and_root) H).
Defined.

Lemma acyclic_level (t : Table) (r : TaskRow) :
  acyclic t → r ∈ t → ∃ n, level t r n.
Proof.
  intros Hac Hr. pose proof (acyclic_grounded t Hac (id r)) as Hacc.
  remember (id r) as x eqn:Hx. revert r Hr Hx.
  induction Hacc as [x _ IH]. intros r Hr ->.
  destruct (truthy (parent_id r)) as [p|] eqn:Hp.
  - destruct (decide (p ∈ ids t)) as [Hin|Hout].
    + apply elem_of_ids in Hin as (rp & Hrp & <-).
      destruct (IH (id rp)) with (r := rp) as [n Hn]; [|done..|].
      * exists r. split_and!; [done..|]. by apply truthy_Some.
      * exists (S n). by eapply level_child.
    + exists 0. apply level_root; [done|]. unfold is_root. by rewrite Hp.
  - exists 0. apply level_root; [done|]. unfold is_root. by rewrite Hp.
Qed.

(** X17: when the parent relation has no cycle (and ids are unique), the
    numbered list shows every task of the table exactly once: its tasks are
    a permutation of the table's. *)
Theorem numberTasks_lists_every_task (w : World) :
  NoDup (ids (tasks w)) → acyclic (tasks w) →
  ∃ f, getTasks w = (Returned f, w) ∧
       ∀ fuel, length (tasks w) < fuel →
         ∃ out, numberTasks fuel (heap f) (roots f) 0 = Some out ∧
                out.*1 ≡ₚ row_to_task <$> tasks w.
Proof.
  intros Hnd Hac. destruct (numberTasks_getTasks_rows w Hnd) as (f & Hf & Hlist).
  exists f. split; [done|]. intros fuel Hfuel.
  destruct (Hlist fuel Hfuel) as (L & Hrun & HL & Hin).
  exists (numbered <$> L). split; [done|].
  rewrite <- list_fmap_compose.
  change (fst ∘ numbered) with (row_to_task ∘ (fst : TaskRow * nat → TaskRow)).
  rewrite list_fmap_compose. apply fmap_Permutation.
  apply NoDup_Permutation; [done|by apply NoDup_rows|].
  intros r. split.
  - intros ([r' n] & -> & Hr)%list_elem_of_fmap. apply Hin in Hr. by eapply level_elem_of.
  - intros Hr. destruct (acyclic_level _ r Hac Hr) as [n Hn].
    apply list_elem_of_fmap. exists (r, n). split; [done|]. by apply Hin.
Qed.

Lemma numberTasks_lists_every_task_witness :
  (NoDup (ids (tasks (world_of chain_and_root))) ∧
   acyclic (tasks (world_of chain_and_root))) ∧
  ∃ f, getTasks (world_of chain_and_root) = (Returned f, world_of chain_and_root) ∧
       ∀ fuel, length (tasks (world_of chain_and_root)) < fuel →
         ∃ out, numberTasks fuel (heap f) (roots f) 0 = Some out ∧
                out.*1 ≡ₚ row_to_task <$> tasks (world_of chain_and_root).
Proof.
  assert (NoDup (ids (tasks (world_of chain_and_root)))) as H1
    by (apply (bool_decide_unpack _); vm_compute; reflexivity).
  assert (acyclic (tasks (world_of chain_and_root))) as H2
    by (apply acyclicb_sound; vm_compute; reflexivity).
  split; [done|]. exact (numberTasks_lists_every_task (world_of chain_and_root) H1 H2).
Defined.

Lemma level_off_cycles (t : Table) (r : TaskRow) (n : nat) (x : string) :
  NoDup (ids t) → "" ∉ ids t → descendant t x x →
  level t r n → ¬ (id r = x ∨ descendant t x (id r)).
Proof.
  intros Hnd Hne Hcycle Hl.
  assert (∀ r, r ∈ t → (id r = x ∨ descendant t x (id r)) →
               ∃ q, parent_id r = Some q ∧ truthy (parent_id r) = Some q ∧
                    q ∈ ids t ∧ (q = x ∨ descendant t x q)) as Hup.
  { intros r' Hr' Hbad.
    assert (descendant t x (id r')) as Hd by (destruct Hbad as [->|]; done).
    apply descendant_inv in Hd as (q & (r'' & Hr'' & Hid & Hpar) & Hq).
    assert (r'' = r') as -> by (by eapply same_id_same_row).
    assert (q ∈ ids t) as Hqin.
    { apply elem_of_ids. destruct Hq as [->|Hq]; by eapply descendant_has_row. }
    exists q. split_and!; [done| |done..].
    rewrite Hpar. destruct q as [|c q]; [done|done]. }
  induction Hl as [r Hr Hroot|p r n Hp IH Hr Hc]; intros Hbad.
  - destruct (Hup r Hr Hbad) as (q & _ & Hq & Hqin & _).
    unfold is_root in Hroot. rewrite Hq in Hroot. done.
  - destruct (Hup r Hr Hbad) as (q & _ & Hq & _ & Hqbad).
    unfold child_of in Hc. apply IH. assert (id p = q) as -> by congruence.
    destruct Hqbad as [->|]; [by left | by right].
Qed.

(** X18: tasks on a cycle of the parent relation, and the tasks below
    them, disappear from the numbered list: with unique non-empty ids, no
    task that is its own ancestor, and no descendant of such a task, is in
    the result of [numberTasks(getTasks())]. *)
Theorem cycles_are_not_listed (w : World) (x y : string) :
  NoDup (ids (tasks w)) → "" ∉ ids (tasks w) →
  descendant (tasks w) x x → y = x ∨ descendant (tasks w) x y →
  ∃ f, getTasks w = (Returned f, w) ∧
       ∀ fuel, length (tasks w) < fuel →
         ∃ out, numberTasks fuel (heap f) (roots f) 0 = Some out ∧
                y ∉ (task_id ∘ fst <$> out).
Proof.
  intros Hnd Hne Hcycle Hy. destruct (numberTasks_getTasks_rows w Hnd) as (f & Hf & Hlist).
  exists f. split; [done|]. intros fuel Hfuel.
  destruct (Hlist fuel Hfuel) as (L & Hrun & HL & Hin).
  exists (numbered <$> L). split; [done|].
  rewrite <- list_fmap_compose.
  intros ([r n] & -> & Hr)%list_elem_of_fmap. apply Hin in Hr. cbn in Hy.
  by apply (level_off_cycles _ _ _ _ Hnd Hne Hcycle Hr).
Qed.

Lemma cycles_are_not_listed_witness :
  (NoDup (ids (tasks (world_of cycle_and_tail))) ∧
   ("" ∉ ids (tasks (world_of cycle_and_tail))) ∧
   descendant (tasks (world_of cycle_and_tail)) "01A" "01A" ∧
   ("01C" = "01A" ∨ descendant (tasks (world_of cycle_and_tail)) "01A" "01C")) ∧
  ∃ f, getTasks (world_of cycle_and_tail) = (Returned f, world_of cycle_and_tail) ∧
       ∀ fuel, length (tasks (world_of cycle_and_tail)) < fuel →
         ∃ out, numberTasks fuel (heap f) (roots f) 0 = Some out ∧
                "01C" ∉ (task_id ∘ fst <$> out).
Proof.
  assert (NoDup (ids (tasks (world_of cycle_and_tail)))) as H1
    by (apply (bool_decide_unpack _); vm_compute; reflexivity).
  assert ("" ∉ ids (tasks (world_of cycle_and_tail))) as H2
    by (apply (bool_decide_unpack _); vm_compute; reflexivity).
  assert (∀ p c st pos, example_row c st (Some p) pos ∈ cycle_and_tail →
                        is_parent cycle_and_tail p c) as Hedge.
  { intros p c st pos Hin. by exists (example_row c st (Some p) pos). }
  assert (is_parent cycle_and_tail "01B" "01A") as HBA
    by (apply (Hedge _ _ todo 0%Z), (bool_decide_unpack _); vm_compute; reflexivity).
  assert (is_parent cycle_and_tail "01A" "01B") as HAB
    by (apply (Hedge _ _ todo 0%Z), (bool_decide_unpack _); vm_compute; reflexivity).
  assert (is_parent cycle_and_tail "01A" "01C") as HAC
    by (apply (Hedge _ _ todo 1%Z), (bool_decide_unpack _); vm_compute; reflexivity).
  assert (descendant (tasks (world_of cycle_and_tail)) "01A" "01A") as H3.
  { eapply descendant_step; [exact HBA|]. by apply descendant_child. }
  assert ("01C" = "01A" ∨ descendant (tasks (world_of cycle_and_tail)) "01A" "01C") as H4.
  { right. by apply descendant_child. }
  split; [done|].
  exact (cycles_are_not_listed (world_of cycle_and_tail) "01A" "01C" H1 H2 H3 H4).
Defined.

(** ** The interactive view *)

Lemma flatten_loop_number
    (recF : list string → nat → list bool → option (list FlatTask))
    (recN : list string → nat → option (list (Task * nat)))
    (m : JsMap) (d : nat) (anc : list bool) (ts : list string)
    (accF : list FlatTask) (accN : list (Task * nat)) :
  (∀ ts' d' anc', numbered_view (recF ts' d' anc') = recN ts' d') →
  flat_numbered <$> accF = accN →
  numbered_view (flatten_loop recF m ∅ d anc ts accF) = number_loop recN m d ts accN.
Proof.
  intros Hrec. revert accF accN. induction ts as [|ref rest IH]; intros accF accN Hacc.
  - cbn. by rewrite Hacc.
  - cbn [flatten_loop number_loop]. destruct (map_get ref m) as [task|]; [|done].
    rewrite (bool_decide_eq_false_2 (_ ∈ ∅)) by apply not_elem_of_empty.
    rewrite andb_true_r.
    destruct (bool_decide (0 < length (children task))).
    + rewrite <- (Hrec (children task) (S d) (anc ++ [bool_decide (rest = [])])).
      destruct (recF _ _ _) as [below|]; [|done]. cbn [numbered_view].
      apply IH. rewrite !fmap_app, Hacc. done.
    + apply IH. rewrite fmap_app, Hacc. done.
Qed.

(** X19: with nothing collapsed, the interactive view lists the same tasks
    at the same depths in the same order as the numbered list of the command
    line, and exhausts the call stack exactly when that one does: on every
    tree, dropping the extra fields of [flattenTasks(tasks, new Set())] gives
    [numberTasks(tasks)]. *)
Theorem flattenTasks_numberTasks (fuel : nat) (m : JsMap) (ts : list string) (d : nat)
    (anc : list bool) :
  numbered_view (flattenTasks fuel m ∅ ts d anc) = numberTasks fuel m ts d.
Proof.
  revert ts d anc. induction fuel as [|fuel IH]; intros ts d anc; [done|].
  cbn [flattenTasks numberTasks]. by apply flatten_loop_number.
Qed.

Lemma flattenTasks_returns (fuel : nat) (m : JsMap) (ts : list string) (d : nat)
    (anc : list bool) (l : list (Task * nat)) :
  numberTasks fuel m ts d = Some l →
  ∃ fl, flattenTasks fuel m ∅ ts d anc = Some fl.
Proof.
  intros Hn.
  assert (numbered_view (flattenTasks fuel m ∅ ts d anc) = numberTasks fuel m ts d) as H.
  { clear Hn. revert ts d anc. induction fuel as [|fuel IH]; intros ts d anc; [done|].
    cbn [flattenTasks numberTasks]. by apply flatten_loop_number. }
  rewrite Hn in H. destruct (flattenTasks _ _ _ _ _ _) as [fl|]; [eauto|done].
Qed.

Lemma flatten_loop_collapsed
    (rec0 recC : list string → nat → list bool → option (list FlatTask))
    (m : JsMap) (C : gset string) (d : nat) (anc : list bool) (ts : list string)
    (acc0 accC l0 : list FlatTask) :
  (∀ ts' d' anc' l', rec0 ts' d' anc' = Some l' →
                     ∃ l, recC ts' d' anc' = Some l ∧ l `sublist_of` l') →
  accC `sublist_of` acc0 →
  flatten_loop rec0 m ∅ d anc ts acc0 = Some l0 →
  ∃ l, flatten_loop recC m C d anc ts accC = Some l ∧ l `sublist_of` l0.
Proof.
  intros Hrec. revert acc0 accC. induction ts as [|ref rest IH]; intros acc0 accC Hacc.
  - cbn. intros [= <-]. eauto.
  - cbn [flatten_loop]. destruct (map_get ref m) as [task|]; [|done].
    rewrite (bool_decide_eq_false_2 (_ ∈ ∅)) by apply not_elem_of_empty.
    rewrite andb_true_r.
    set (e := {| flat_task := fields task |}).
    destruct (bool_decide (0 < length (children task))); cbn [andb].
    + destruct (rec0 _ _ _) as [below0|] eqn:H0; [|done].
      destruct (Hrec _ _ _ _ H0) as (belowC & HC & Hsub).
      destruct (negb (bool_decide (task_id (fields task) ∈ C))).
      * rewrite HC. apply IH. by repeat apply sublist_app.
      * apply IH. apply sublist_inserts_r. by apply sublist_app.
    + apply IH. by apply sublist_app.
Qed.

(** X20: collapsing hides, and never adds or reorders: whenever the view
    with nothing collapsed returns, the view with the set [collapsedIds]
    returns too (it recurses into fewer tasks), and its entries are a
    subsequence of the uncollapsed view's entries, each with the same fields. *)
Theorem flattenTasks_collapsed (fuel : nat) (m : JsMap) (C : gset string)
    (ts : list string) (d : nat) (anc : list bool) (l0 : list FlatTask) :
  flattenTasks fuel m ∅ ts d anc = Some l0 →
  ∃ l, flattenTasks fuel m C ts d anc = Some l ∧ l `sublist_of` l0.
Proof.
  revert ts d anc l0. induction fuel as [|fuel IH]; intros ts d anc l0; [done|].
  cbn [flattenTasks]. by apply flatten_loop_collapsed.
Qed.

Lemma flattenTasks_collapsed_witness :
  ∃ l0, flattenTasks 5 (heap chain_forest) ∅ (roots chain_forest) 0 [] = Some l0 ∧
        ∃ l, flattenTasks 5 (heap chain_forest) {["01A"]} (roots chain_forest) 0 [] = Some l ∧
             l `sublist_of` l0.
Proof.
  assert (∃ l0, flattenTasks 5 (heap chain_forest) ∅ (roots chain_forest) 0 [] = Some l0)
    as [l0 H] by (eexists; vm_compute; reflexivity).
  exists l0. split; [exact H|].
  exact (flattenTasks_collapsed 5 (heap chain_forest) {["01A"]} (roots chain_forest) 0 [] l0 H).
Defined.

Lemma flattenTasks_collapsed_returns (fuel : nat) (m : JsMap) (C : gset string)
    (ts : list string) (d : nat) (anc : list bool) (l0 : list FlatTask) :
  flattenTasks fuel m ∅ ts d anc = Some l0 → ∃ l, flattenTasks fuel m C ts d anc = Some l.
Proof.
  intros H0.
  assert (∃ l, flattenTasks fuel m C ts d anc = Some l ∧ l `sublist_of` l0) as (l & Hl & _);
    [|eauto].
  revert ts d anc l0 H0. induction fuel as [|fuel IH]; intros ts d anc l0; [done|].
  cbn [flattenTasks]. by apply flatten_loop_collapsed.
Qed.

Lemma flatten_loop_entries (rec : list string → nat → list bool → option (list FlatTask))
    (m : JsMap) (C : gset string) (d : nat) (anc : list bool) (ts : list string)
    (acc l : list FlatTask) :
  (∀ ts' d' anc' l', rec ts' d' anc' = Some l' →
     Forall (λ e, ∃ ref obj, map_get ref m = Some obj ∧ entry_of m obj e) l') →
  Forall (λ e, ∃ ref obj, map_get ref m = Some obj ∧ entry_of m obj e) acc →
  flatten_loop rec m C d anc ts acc = Some l →
  Forall (λ e, ∃ ref obj, map_get ref m = Some obj ∧ entry_of m obj e) l.
Proof.
  intros Hrec. revert acc. induction ts as [|ref rest IH]; intros acc Hacc.
  - cbn. by intros [= <-].
  - cbn [flatten_loop]. destruct (map_get ref m) as [task|] eqn:Hget; [|done].
    set (e := {| flat_task := fields task |}).
    assert (∃ ref obj, map_get ref m = Some obj ∧ entry_of m obj e) as He.
    { exists ref, task. split; [done|]. unfold entry_of, e. cbn.
      destruct (children task); cbn; done. }
    destruct (_ && _).
    + destruct (rec _ _ _) as [sub|] eqn:Hsub; [|done].
      apply IH. apply Forall_app. split; [|by eapply Hrec].
      apply Forall_app. split; [done|]. by constructor.
    + apply IH. apply Forall_app. split; [done|]. by constructor.
Qed.

Lemma flattenTasks_entries (fuel : nat) (m : JsMap) (C : gset string)
    (ts : list string) (d : nat) (anc : list bool) (l : list FlatTask) :
  flattenTasks fuel m C ts d anc = Some l →
  Forall (λ e, ∃ ref obj, map_get ref m = Some obj ∧ entry_of m obj e) l.
Proof.
  revert ts d anc l. induction fuel as [|fuel IH]; intros ts d anc l; [done|].
  cbn [flattenTasks]. apply flatten_loop_entries; [exact IH|constructor].
Qed.

Lemma map_get_forest_inv (rows seen : Table) (ref : string) (obj : TaskObject) :
  map_get ref (heap (forest_of rows seen)) = Some obj →
  ∃ r, r ∈ rows ∧ ref = id r ∧ obj = object_of seen r.
Proof.
  unfold map_get. cbn [heap forest_of].
  destruct (head _) as [[k v]|] eqn:Hhead; [|done]. intros [= <-].
  apply head_Some_elem_of, list_elem_of_filter in Hhead as [Hk Hin].
  apply list_elem_of_fmap in Hin as (r & [= -> ->] & Hr). cbn in Hk. eauto.
Qed.

Lemma count_done_forest (rows : Table) (ks : Table) :
  NoDup (ids rows) → (∀ c, c ∈ ks → c ∈ rows) →
  count_done (heap (forest_of rows rows)) (id <$> ks)
  = length (filter (λ c, status c = done) ks).
Proof.
  intros Hnd. unfold count_done. induction ks as [|c ks IH]; intros Hks; [done|].
  rewrite fmap_cons, !filter_cons.
  rewrite map_get_forest by (done || apply Hks; by left).
  cbn [fmap option_fmap option_map object_of fields row_to_task task_status compose].
  destruct (decide (status c = done)) as [Hd|Hd].
  - rewrite decide_True by by rewrite Hd. cbn. f_equal. apply IH.
    intros; apply Hks; by right.
  - rewrite decide_False by congruence. apply IH. intros; apply Hks; by right.
Qed.

Lemma run_getChildrenCount (p : string) (w : World) :
  getChildrenCount p w
  = (Returned (length (filter (where_parent (Some p)) (tasks w)),
               length (filter (λ c, status c = done)
                         (filter (where_parent (Some p)) (tasks w)))), w).
Proof.
  unfold getChildrenCount. rewrite run_bind. cbn [query]. unfold child_stats.
  by destruct (filter (where_parent (Some p)) (tasks w)).
Qed.

(** X21: the progress counter of the interactive view agrees with the
    database.  For a table with unique ids and any set of collapsed ids,
    [flattenTasks(getTasks(), collapsedIds)] returns, and for every entry
    whose task id is not the empty string, [totalCount] and [doneCount] are
    what [getChildrenCount(task.id)] reports, and [hasChildren] says whether
    [totalCount] is positive. *)
Theorem flattenTasks_counts (w : World) (C : gset string) :
  NoDup (ids (tasks w)) →
  ∃ f, getTasks w = (Returned f, w) ∧
       ∀ fuel, length (tasks w) < fuel →
         ∃ out, flattenTasks fuel (heap f) C (roots f) 0 [] = Some out ∧
                ∀ e, e ∈ out → task_id (flat_task e) ≠ "" →
                     getChildrenCount (task_id (flat_task e)) w
                     = (Returned (totalCount e, doneCount e), w) ∧
                     hasChildren e = bool_decide (0 < totalCount e).
Proof.
  intros Hnd. destruct (numberTasks_getTasks_rows w Hnd) as (f & Hf & Hlist).
  exists f. split; [done|]. intros fuel Hfuel.
  destruct (Hlist fuel Hfuel) as (L & Hrun & _).
  destruct (flattenTasks_returns _ _ _ _ [] _ Hrun) as (fl0 & H0).
  destruct (flattenTasks_collapsed_returns _ _ C _ _ _ _ H0) as (out & Hout).
  exists out. split; [done|]. intros e He Hne.
  pose proof (flattenTasks_entries _ _ _ _ _ _ _ Hout) as Hentries.
  rewrite Forall_forall in Hentries.
  destruct (Hentries e He) as (ref & obj & Hget & Htask & Htotal & Hdone & Hhas).
  rewrite run_getTasks in Hf by done. injection Hf as <-.
  set (rows := order_by_position (tasks w)) in *.
  assert (rows ≡ₚ tasks w) as Hperm by apply order_by_position_perm.
  assert (NoDup (ids rows)) as Hrows by (unfold ids; by rewrite Hperm).
  apply map_get_forest_inv in Hget as (r & Hr & -> & ->).
  cbn [object_of fields children] in *. rewrite Htask in *. cbn [row_to_task task_id] in *.
  assert (filter (child_of r) rows = filter (where_parent (Some (id r))) rows) as Hkids.
  { apply list_filter_iff. intros c. unfold child_of, where_parent. split.
    - apply truthy_Some.
    - intros ->. cbn. by destruct (id r). }
  rewrite run_getChildrenCount, Hhas, Htotal, Hdone.
  rewrite count_done_forest by (done || by intros c [_ Hc]%list_elem_of_filter).
  rewrite length_fmap, Hkids. rewrite <- Hperm. done.
Qed.

Lemma flattenTasks_counts_witness :
  NoDup (ids (tasks (world_of parent_of_two))) ∧
  ∃ f, getTasks (world_of parent_of_two) = (Returned f, world_of parent_of_two) ∧
       ∀ fuel, length (tasks (world_of parent_of_two)) < fuel →
         ∃ out, flattenTasks fuel (heap f) ∅ (roots f) 0 [] = Some out ∧
                ∀ e, e ∈ out → task_id (flat_task e) ≠ "" →
                     getChildrenCount (task_id (flat_task e)) (world_of parent_of_two)
                     = (Returned (totalCount e, doneCount e), world_of parent_of_two) ∧
                     hasChildren e = bool_decide (0 < totalCount e).
Proof.
  assert (NoDup (ids (tasks (world_of parent_of_two)))) as H
    by (apply (bool_decide_unpack _); vm_compute; reflexivity).
  split; [exact H|]. exact (flattenTasks_counts (world_of parent_of_two) ∅ H).
Defined.

(** ** Transactions *)

(** X22: the three users of [db.transaction] commit once or not at all.
    Called outside a transaction, [reorderTask], [undo] and
    [applyOperations] either leave the table and the committed states as
    they were (in particular whenever they throw), or return having
    committed exactly one new state, the final table. *)
Theorem transactions_commit_once (w : World) :
  in_transaction w = false →
  let all_or_nothing {A : Type} (m : Eff A) :=
    (tasks (m w).2 = tasks w ∧ durable (m w).2 = durable w) ∨
    (∃ a, (m w).1 = Returned a ∧ durable (m w).2 = tasks (m w).2 :: durable w) in
  (∀ x d, all_or_nothing (reorderTask x d)) ∧
  all_or_nothing undo ∧
  (∀ depth ops, all_or_nothing (applyOperations depth ops)).
Proof.
  intros Hw all_or_nothing. split_and!.
  - intros x d. by apply atomic_reorderTask.
  - by apply atomic_undo.
  - intros depth ops. by apply atomic_applyOperations.
Qed.

Lemma transactions_commit_once_witness :
  in_transaction (world_of parent_and_child) = false ∧
  ((tasks (applyOperations 4 [OpAdd None "X" (Some "zz")] (world_of parent_and_child)).2
    = tasks (world_of parent_and_child) ∧
    durable (applyOperations 4 [OpAdd None "X" (Some "zz")] (world_of parent_and_child)).2
    = durable (world_of parent_and_child)) ∨
   (∃ a, (applyOperations 4 [OpAdd None "X" (Some "zz")] (world_of parent_and_child)).1
         = Returned a ∧
         durable (applyOperations 4 [OpAdd None "X" (Some "zz")] (world_of parent_and_child)).2
         = tasks (applyOperations 4 [OpAdd None "X" (Some "zz")]
                    (world_of parent_and_child)).2
           :: durable (world_of parent_and_child))).
Proof.
  split; [reflexivity|].
  destruct (transactions_commit_once (world_of parent_and_child) eq_refl) as (_ & _ & H).
  exact (H 4 [OpAdd None "X" (Some "zz")]).
Defined.

(** ** Undo without moves *)

Lemma insertable_app (acc l1 l2 : Table) :
  insertable acc (l1 ++ l2) ↔ insertable acc l1 ∧ insertable (acc ++ l1) l2.
Proof.
  revert acc. induction l1 as [|r l1 IH]; intros acc; cbn [insertable app].
  - rewrite app_nil_r. tauto.
  - rewrite IH, <- app_assoc. cbn. tauto.
Qed.

Lemma insertable_skeleton (acc acc' rows rows' : Table) :
  skeleton <$> acc = skeleton <$> acc' → skeleton <$> rows = skeleton <$> rows' →
  insertable acc rows → insertable acc' rows'.
Proof.
  assert (∀ l l', skeleton <$> l = skeleton <$> l' → ids l = ids l') as Hids.
  { intros l l' H. unfold ids. change id with (fst ∘ skeleton).
    by rewrite !list_fmap_compose, H. }
  revert rows' acc acc'. induction rows as [|r rows IH]; intros [|r' rows'] acc acc' Ha Hr;
    try done.
  cbn in Hr. injection Hr as Hid Hpar Hrest. cbn [insertable].
  intros (Hfresh & Hparent & Hins). rewrite <- (Hids _ _ Ha), <- Hid, <- Hpar.
  split_and!; [done..|]. eapply IH; [|done..].
  rewrite !fmap_app, Ha. cbn. unfold skeleton. by rewrite Hid, Hpar.
Qed.

Lemma insertable_NoDup (acc t : Table) : insertable acc t → NoDup (ids acc) → NoDup (ids (acc ++ t)).
Proof.
  revert acc. induction t as [|r t IH]; intros acc; cbn [insertable].
  - by rewrite app_nil_r.
  - intros (Hfresh & _ & Hins) Hnd. change (acc ++ r :: t) with (acc ++ [r] ++ t).
    rewrite app_assoc. apply IH; [done|]. unfold ids. rewrite fmap_app.
    apply NoDup_app. split_and!; [done| |by apply NoDup_singleton].
    intros x Hx ->%list_elem_of_singleton. done.
Qed.

Lemma insertable_filter (keep : TaskRow → Prop) `{!∀ r, Decision (keep r)}
    (acc t : Table) :
  insertable acc t →
  (∀ r p rp, r ∈ t → keep r → parent_id r = Some p → p ≠ id r →
             rp ∈ acc ++ t → id rp = p → keep rp) →
  insertable (filter keep acc) (filter keep t).
Proof.
  revert acc. induction t as [|r t IH]; intros acc; cbn [insertable]; [done|].
  intros (Hfresh & Hparent & Hins) Hclosed.
  assert (insertable (filter keep (acc ++ [r])) (filter keep t)) as Hrest.
  { apply IH; [done|]. intros r' p rp Hr' Hk Hp Hne Hrp.
    apply (Hclosed r' p rp); [by right|done..|].
    rewrite <- app_assoc in Hrp. done. }
  rewrite filter_app, filter_cons, filter_nil in Hrest. rewrite filter_cons.
  destruct (decide (keep r)) as [Hk|Hk]; [|by rewrite app_nil_r in Hrest].
  cbn [insertable]. split_and!; [| |done].
  - intros (a & [_ Ha]%list_elem_of_filter & Hid)%elem_of_ids.
    apply Hfresh, elem_of_ids. eauto.
  - intros p Hp. destruct (decide (p = id r)) as [->|Hne]; [by right|]. left.
    destruct (Hparent p Hp) as [Hin|]; [|done].
    apply elem_of_ids in Hin as (rp & Hrp & Hid). apply elem_of_ids. exists rp.
    split; [|done]. apply list_elem_of_filter. split; [|done].
    apply (Hclosed r p rp); [by left|done..| |done]. apply elem_of_app. by left.
Qed.


Lemma filter_ext_elem_of {A : Type} (P Q : A → Prop) `{!∀ x, Decision (P x)}
    `{!∀ x, Decision (Q x)} (l : list A) :
  (∀ x, x ∈ l → P x ↔ Q x) → filter P l = filter Q l.
Proof.
  induction l as [|a l IH]; intros Hext; [done|]. rewrite !filter_cons.
  rewrite IH by (intros; apply Hext; by right).
  destruct (decide (P a)) as [Hp|Hp].
  - rewrite decide_True; [done|]. apply Hext; [by left|done].
  - rewrite decide_False; [done|]. intros Hq. apply Hp, Hext; [by left|done].
Qed.

Lemma sublist_filter_elem_of (t t' : Table) :
  NoDup t → t' `sublist_of` t → t' = filter (λ r, r ∈ t') t.
Proof.
  intros Hnd Hsub. induction Hsub as [|r l1 l2 Hsub IH|r l1 l2 Hsub IH].
  - done.
  - apply NoDup_cons in Hnd as [Hr Hnd]. rewrite filter_cons.
    rewrite decide_True by by left. f_equal.
    rewrite (IH Hnd) at 1. apply filter_ext_elem_of.
    intros x Hx. rewrite elem_of_cons. split; [by right|].
    intros [->|]; done.
  - apply NoDup_cons in Hnd as [Hr Hnd]. rewrite filter_cons.
    rewrite decide_False by (intros Hin; apply Hr; by eapply elem_of_sublist).
    by apply IH.
Qed.

Lemma stmt_parents_first_insert (r : TaskRow) : stmt_keeps (insertable []) (sql_insert r).
Proof.
  intros t t' Hins. unfold sql_insert.
  destruct (bool_decide (id r ∈ ids t)) eqn:Hpk; [done|].
  destruct (fk_ok _ _) eqn:Hfk; [|done]. intros [= <-].
  apply bool_decide_eq_false_1 in Hpk.
  apply insertable_app. split; [done|]. cbn. split_and!; [done| |done].
  intros p Hp. rewrite Hp in Hfk. cbn in Hfk. apply bool_decide_eq_true_1 in Hfk.
  unfold ids in Hfk. rewrite fmap_app in Hfk.
  apply elem_of_app in Hfk as [?| ->%list_elem_of_singleton]; [by left | by right].
Qed.

Lemma stmt_parents_first_update (v : option string) f (t : Table) :
  (∀ r, skeleton (f r) = skeleton r) →
  insertable [] t → insertable [] (update_where_id v f t).
Proof.
  intros Hf. apply insertable_skeleton; [done|].
  symmetry. by apply skeleton_update_where_id.
Qed.

Lemma stmt_parents_first_update_title v x now :
  stmt_keeps (insertable []) (sql_update_title v x now).
Proof. intros t t' H [= <-]. by apply stmt_parents_first_update. Qed.

Lemma stmt_parents_first_update_status v st now :
  stmt_keeps (insertable []) (sql_update_status v st now).
Proof. intros t t' H [= <-]. by apply stmt_parents_first_update. Qed.

Lemma stmt_parents_first_update_position v pos now :
  stmt_keeps (insertable []) (sql_update_position v pos now).
Proof. intros t t' H [= <-]. by apply stmt_parents_first_update. Qed.

Lemma stmt_parents_first_delete v : stmt_keeps (insertable []) (sql_delete v).
Proof.
  intros t t' Hins Hdel.
  pose proof (insertable_NoDup [] t Hins ltac:(constructor)) as Hnd. cbn in Hnd.
  destruct (filter (where_id v) t) as [|r0 gone] eqn:Hgone.
  { unfold sql_delete in Hdel. rewrite Hgone in Hdel. by injection Hdel as <-. }
  assert (r0 ∈ filter (where_id v) t) as Hr0 by (rewrite Hgone; by left).
  apply list_elem_of_filter in Hr0 as [-> Hr0].
  assert (id r0 ∈ ids t) as Hx by (apply elem_of_ids; eauto).
  pose proof (sql_delete_spec t (id r0) Hnd Hx t' Hdel) as Hspec.
  pose proof (sql_delete_sublist _ _ _ Hdel) as Hsub.
  rewrite (sublist_filter_elem_of t t' (NoDup_rows _ Hnd) Hsub).
  change [] with (filter (λ r, r ∈ t') ([] : Table)).
  apply insertable_filter; [done|].
  intros r p rp Hr Hk Hp Hne Hrp Hid. cbn in Hrp.
  apply Hspec in Hk as (_ & Hrx & Hrd). apply Hspec.
  assert (is_parent t p (id r)) as Hpar by (by exists r).
  split_and!; [done| |].
  - rewrite Hid. intros ->. apply Hrd. by apply descendant_child.
  - rewrite Hid. intros Hd. apply Hrd. by eapply descendant_step.
Qed.

Lemma stmt_parents_first_delete_all : stmt_keeps (insertable []) sql_delete_all.
Proof. by intros t t' _ ->%sql_delete_all_inr. Qed.

Global Hint Resolve stmt_parents_first_insert stmt_parents_first_update_title
  stmt_parents_first_update_status stmt_parents_first_update_position
  stmt_parents_first_delete stmt_parents_first_delete_all : keeps.

Lemma keeps_parents_first_addTask ti p : keeps (insertable []) (addTask ti p).
Proof. unfold addTask. auto 10 with keeps. Qed.

Lemma keeps_parents_first_updateTask v a b : keeps (insertable []) (updateTask v a b).
Proof. unfold updateTask. auto 10 with keeps. Qed.

Lemma keeps_parents_first_deleteTask v : keeps (insertable []) (deleteTask v).
Proof. unfold deleteTask. auto with keeps. Qed.

Lemma keeps_parents_first_autoCompleteParent depth v :
  keeps (insertable []) (autoCompleteParent depth v).
Proof.
  revert v. induction depth as [|depth IH]; intros v; cbn [autoCompleteParent];
    auto 10 with keeps.
Qed.

Lemma keeps_parents_first_completeTask depth v :
  keeps (insertable []) (completeTask depth v).
Proof.
  unfold completeTask. auto using keeps_parents_first_autoCompleteParent with keeps.
Qed.

Lemma keeps_parents_first_reorderTask x d : keeps (insertable []) (reorderTask x d).
Proof. unfold reorderTask. auto 20 with keeps. Qed.

Lemma keeps_parents_first_insert_rows rows : keeps (insertable []) (insert_rows rows).
Proof. induction rows; cbn [insert_rows]; auto with keeps. Qed.

Lemma keeps_parents_first_undo : keeps (insertable []) undo.
Proof. unfold undo. auto 20 using keeps_parents_first_insert_rows with keeps. Qed.

Lemma keeps_parents_first_apply_loop depth idMap ops :
  Forall (λ op, is_move op = false) ops →
  keeps (insertable []) (apply_loop depth idMap ops).
Proof.
  intros Hops. revert idMap.
  induction Hops as [|op ops Hop Hops IH]; intros idMap; cbn [apply_loop];
    [auto with keeps|].
  apply keeps_bind; [|done].
  destruct op; cbn [apply_operation]; try done;
    auto 10 using keeps_parents_first_addTask, keeps_parents_first_updateTask,
      keeps_parents_first_deleteTask, keeps_parents_first_completeTask with keeps.
Qed.

Lemma keeps_parents_first_applyOperations depth ops :
  Forall (λ op, is_move op = false) ops →
  keeps (insertable []) (applyOperations depth ops).
Proof.
  intros Hops. unfold applyOperations.
  auto using keeps_parents_first_apply_loop with keeps.
Qed.

Lemma Forall_removelast {A : Type} (P : A → Prop) (l : list A) :
  Forall P l → Forall P (removelast l).
Proof.
  induction 1 as [|a [|b l] Ha _ IH]; cbn; [constructor..|].
  constructor; [done | exact IH].
Qed.

Lemma insertableb_sound (t rows : Table) : insertableb t rows = true → insertable t rows.
Proof.
  revert t. induction rows as [|r rows IH]; intros t; cbn [insertableb insertable]; [done|].
  intros [[Hid Hp]%andb_true_iff Hrest]%andb_true_iff.
  apply negb_true_iff, bool_decide_eq_false_1 in Hid.
  split_and!; [done| |by apply IH].
  intros p Hpar. rewrite Hpar in Hp.
  apply orb_true_iff in Hp as [Hp|Hp]; apply bool_decide_eq_true_1 in Hp; [by left|by right].
Qed.



(** X24: only a move can break [undo].  Call a table parents-first when
    every row has a fresh id and a parent that is the row itself or an
    earlier row.  From a parents-first table and an undo stack of such
    tables, every call except [moveTask], [indentTask] and a batch with a
    move leaves the table and the stack so, whether it returns or throws,
    and [undo] does not throw when the table holds at most 1000 rows (its
    delete then cascades less than 1000 levels deep): it returns true or
    false. *)
Theorem undo_is_safe_without_moves (w : World) :
  insertable [] (tasks w) → Forall (insertable []) (undoStack w) →
  let ok (w' : World) :=
    insertable [] (tasks w') ∧ Forall (insertable []) (undoStack w') in
  (∀ ti p, ok (addTask ti p w).2) ∧
  (∀ v a b, ok (updateTask v a b w).2) ∧
  (∀ v, ok (deleteTask v w).2) ∧
  (∀ depth v, ok (completeTask depth v w).2) ∧
  (∀ x d, ok (reorderTask x d w).2) ∧
  ok (clearAllTasks w).2 ∧
  ok (saveSnapshot w).2 ∧
  ok (undo w).2 ∧
  (∀ depth ops, Forall (λ op, is_move op = false) ops →
                ok (applyOperations depth ops w).2) ∧
  (length (tasks w) ≤ MAX_TRIGGER_DEPTH → ∃ b, (undo w).1 = Returned b).
Proof.
  intros Hins Hst ok.
  assert (∀ {A : Type} (m : Eff A), framed m → keeps (insertable []) m → ok (m w).2)
    as Hfr.
  { intros A m Hf Hk. split; [by apply Hk|].
    destruct (Hf w) as (-> & _). done. }
  split_and!; intros.
  - apply Hfr; [apply framed_addTask | apply keeps_parents_first_addTask].
  - apply Hfr; [apply framed_updateTask | apply keeps_parents_first_updateTask].
  - apply Hfr; [apply framed_deleteTask | apply keeps_parents_first_deleteTask].
  - apply Hfr; [apply framed_completeTask | apply keeps_parents_first_completeTask].
  - apply Hfr; [apply framed_reorderTask | apply keeps_parents_first_reorderTask].
  - apply Hfr; [apply framed_clearAllTasks|].
    exact (keeps_exec (insertable []) _ stmt_parents_first_delete_all).
  - destruct (run_saveSnapshot w) as (w' & -> & Ht & _ & _ & Hu). cbn [snd].
    split; [by rewrite Ht|]. rewrite Hu.
    assert (Forall (insertable []) (undoStack w ++ [tasks w])) as Hall
      by (apply Forall_app; split; [done | by constructor]).
    destruct (decide _); [by apply Forall_tail | done].
  - split; [by apply keeps_parents_first_undo|].
    rewrite undoStack_undo. by apply Forall_removelast.
  - apply Hfr; [apply framed_applyOperations|].
    by apply keeps_parents_first_applyOperations.
  - destruct (last (undoStack w)) as [snapshot|] eqn:Hlast.
    + destruct (undo_returns w snapshot) as (w' & -> & _); [done..| |by exists true].
      eapply Forall_forall; [exact Hst|]. by apply last_Some_elem_of.
    + exists false. apply last_None in Hlast. by rewrite undo_empty_stack.
Qed.

Lemma undo_is_safe_without_moves_witness :
  (insertable [] (tasks chain_saved) ∧ Forall (insertable []) (undoStack chain_saved) ∧
   length (tasks chain_saved) ≤ MAX_TRIGGER_DEPTH) ∧
  (insertable [] (tasks (deleteTask (Some "01B") chain_saved).2) ∧
   Forall (insertable []) (undoStack (deleteTask (Some "01B") chain_saved).2)) ∧
  ∃ b, (undo chain_saved).1 = Returned b.
Proof.
  assert (insertable [] (tasks chain_saved)) as H1
    by (apply insertableb_sound; vm_compute; reflexivity).
  assert (Forall (insertable []) (undoStack chain_saved)) as H2.
  { assert (undoStack chain_saved = [chain_and_root]) as -> by reflexivity.
    constructor; [|constructor].
    apply insertableb_sound; vm_compute; reflexivity. }
  assert (length (tasks chain_saved) ≤ MAX_TRIGGER_DEPTH) as H3
    by (apply (bool_decide_unpack _); vm_compute; reflexivity).
  split; [done|].
  destruct (undo_is_safe_without_moves chain_saved H1 H2)
    as (_ & _ & Hdel & _ & _ & _ & _ & _ & _ & Hundo).
  split; [apply Hdel | exact (Hundo H3)].
Defined.

(** X25: the tree that [getTasks] builds.  For a table with unique ids,
    [getTasks] returns without changing anything; with [rows] the table in
    ascending position order, [roots] lists in that order the tasks whose
    parent is null, the empty string or not in the table, the map holds one
    object per row in that order, and the object of a task carries the row's
    fields and, as [children], in that order, exactly the tasks that name it
    as their parent. *)
Theorem getTasks_tree (w : World) :
  NoDup (ids (tasks w)) →
  ∃ f rows, getTasks w = (Returned f, w) ∧
            rows ≡ₚ tasks w ∧ ascending rows ∧
            roots f = id <$> filter (is_root (tasks w)) rows ∧
            (heap f).*1 = ids rows ∧
            ∀ r, r ∈ tasks w →
                 map_get (id r) (heap f)
                 = Some {| fields := row_to_task r;
                           children := id <$> filter (child_of r) rows |}.
Proof.
  intros Hnd. exists (forest_of (order_by_position (tasks w)) (order_by_position (tasks w))),
    (order_by_position (tasks w)).
  set (rows := order_by_position (tasks w)).
  assert (rows ≡ₚ tasks w) as Hperm by apply order_by_position_perm.
  assert (NoDup (ids rows)) as Hrows by (unfold ids; by rewrite Hperm).
  split_and!.
  - by apply run_getTasks.
  - done.
  - apply order_by_position_ascending.
  - cbn [roots forest_of]. f_equal. apply list_filter_iff. intros r.
    unfold is_root, ids. destruct (truthy (parent_id r)); [|done]. by rewrite Hperm.
  - apply heap_keys.
  - intros r Hr. apply map_get_forest; [done|]. by rewrite Hperm.
Qed.

Lemma getTasks_tree_witness :
  NoDup (ids (tasks (world_of parent_of_two))) ∧
  ∃ f rows, getTasks (world_of parent_of_two) = (Returned f, world_of parent_of_two) ∧
            rows ≡ₚ tasks (world_of parent_of_two) ∧ ascending rows ∧
            roots f = id <$> filter (is_root (tasks (world_of parent_of_two))) rows ∧
            (heap f).*1 = ids rows ∧
            ∀ r, r ∈ tasks (world_of parent_of_two) →
                 map_get (id r) (heap f)
                 = Some {| fields := row_to_task r;
                           children := id <$> filter (child_of r) rows |}.
Proof.
  assert (NoDup (ids (tasks (world_of parent_of_two)))) as H
    by (apply (bool_decide_unpack _); vm_compute; reflexivity).
  split; [exact H|]. exact (getTasks_tree (world_of parent_of_two) H).
Defined.
